(** * Offer creation: token cache, retrying requester, dispatcher

    A shallow embedding of [offer_creation.py].  The coroutines
    [TokenManager.get_token], [OfferCreator.create_offer] and [main] are
    written once, as finite trees of the effects they perform (clock reads,
    accesses to the shared token fields, HTTP posts, sleeps, log records).
    The trees are then run in two ways: sequentially against a scripted
    environment, and as a pool of asyncio tasks that are advanced from one
    suspension point to the next. *)

From Stdlib Require Import ZArith QArith List String Ascii Bool Lia.
From Stdlib Require Import DecimalString DecimalPos DecimalZ SpecFloat.
Import ListNotations.

Set Warnings "-register-all".

Open Scope string_scope.
Open Scope Z_scope.

(* ================================================================== *)
(** ** Python floats *)
(* ================================================================== *)

(** A Python float is an IEEE 754 binary64 number: a significand of 53
    bits, infinities at exponent 1024, and every operation rounded to
    the nearest double, ties to even. *)
Definition float : Type := spec_float.

(** The double nearest to [m * 2 ^ e]; an infinity when that is out of
    range. *)
Definition dyadic (m e : Z) : float := binary_normalize 53 1024 m e false.

(** The double nearest to the integer [n]. *)
Definition nearest (n : Z) : float := dyadic n 0.

(** [a + b], [a - b] and [a < b] on floats. *)
Definition float_add (a b : float) : float := SFadd 53 1024 a b.

Definition float_sub (a b : float) : float := SFsub 53 1024 a b.

Definition float_lt (a b : float) : bool := SFltb a b.

Arguments dyadic : simpl never.
Arguments nearest : simpl never.
Arguments float_add : simpl never.
Arguments float_sub : simpl never.
Arguments float_lt : simpl never.

(** The rational a finite float denotes. *)
Definition exact (x : float) : option Q :=
  match x with
  | S754_zero _ => Some 0%Q
  | S754_finite s m e => Some (inject_Z (cond_Zopp s (Zpos m)) * (2 # 1) ^ e)%Q
  | S754_infinity _ | S754_nan => None
  end.

(* ================================================================== *)
(** ** Python values *)
(* ================================================================== *)

(** Documents as [json.loads] / a dict literal produce them.  An object
    keeps its keys in insertion order, as a Python dict does. *)
Inductive json : Type :=
| JNull
| JBool (b : bool)
| JInt (n : Z)
| JFloat (x : float)
| JStr (s : string)
| JArr (items : list json)
| JObj (fields : list (string * json)).

(** The classes of the exceptions the program meets.  All of them derive
    from [Exception]. *)
Inductive exn_class : Type :=
| KeyError
| TypeError
| ValueError
| ClientError      (* aiohttp.ClientError and its subclasses *)
| TimeoutError     (* asyncio.TimeoutError *)
| OverflowError
| PlainException.  (* raise Exception(...) *)

Record exn : Type := Raise { exn_cls : exn_class; exn_str : string }.

(** [A] or a raised exception. *)
Definition result (A : Type) : Type := (exn + A)%type.

Definition exn_class_eqb (a b : exn_class) : bool :=
  match a, b with
  | KeyError, KeyError | TypeError, TypeError | ValueError, ValueError
  | ClientError, ClientError | TimeoutError, TimeoutError
  | OverflowError, OverflowError | PlainException, PlainException => true
  | _, _ => false
  end.

(** [str(n)] for an int. *)
Definition str_of_Z (n : Z) : string := NilZero.string_of_int (Z.to_int n).

(** [bool(v)]: what [if v] and [v and ...] test. *)
Definition truthy (v : json) : bool :=
  match v with
  | JNull => false
  | JBool b => b
  | JInt n => negb (n =? 0)
  | JFloat x => match x with S754_zero _ => false | _ => true end
  | JStr s => negb (String.eqb s "")
  | JArr l => match l with [] => false | _ => true end
  | JObj l => match l with [] => false | _ => true end
  end.

(** [bool(v)] for the result of [os.environ.get]. *)
Definition truthy_env (v : option string) : bool :=
  match v with
  | None => false
  | Some s => negb (String.eqb s "")
  end.

(** [all([...])]. *)
Definition all (l : list bool) : bool := forallb (fun b => b) l.

Fixpoint dict_get (fields : list (string * json)) (key : string) : option json :=
  match fields with
  | [] => None
  | (k, v) :: rest => if String.eqb k key then Some v else dict_get rest key
  end.

(** [v[key]] with a string key. *)
Definition subscript (v : json) (key : string) : result json :=
  match v with
  | JObj fields =>
      match dict_get fields key with
      | Some x => inr x
      | None => inl (Raise KeyError ("'" ++ key ++ "'"))
      end
  | JArr _ => inl (Raise TypeError "list indices must be integers or slices, not str")
  | JStr _ => inl (Raise TypeError "string indices must be integers, not 'str'")
  | JNull => inl (Raise TypeError "'NoneType' object is not subscriptable")
  | JBool _ => inl (Raise TypeError "'bool' object is not subscriptable")
  | JInt _ => inl (Raise TypeError "'int' object is not subscriptable")
  | JFloat _ => inl (Raise TypeError "'float' object is not subscriptable")
  end.

(** The name of the type of a value, as error messages give it. *)
Definition type_name (v : json) : string :=
  match v with
  | JNull => "NoneType"
  | JBool _ => "bool"
  | JInt _ => "int"
  | JFloat _ => "float"
  | JStr _ => "str"
  | JArr _ => "list"
  | JObj _ => "dict"
  end.

(** The conversion of an int operand in [float + int] and [float - int]:
    it raises when the int is beyond the doubles. *)
Definition float_of_int (n : Z) : result float :=
  match nearest n with
  | S754_infinity _ => inl (Raise OverflowError "int too large to convert to float")
  | x => inr x
  end.

Arguments float_of_int : simpl never.

(** [int(x)] for a float: the integer part, towards zero. *)
Definition int_of_float (x : float) : result Z :=
  match x with
  | S754_zero _ => inr 0
  | S754_finite s m e =>
      inr (cond_Zopp s (if 0 <=? e then Zpos m * 2 ^ e
                        else Z.quot (Zpos m) (2 ^ (- e))))
  | S754_infinity _ =>
      inl (Raise OverflowError "cannot convert float infinity to integer")
  | S754_nan => inl (Raise ValueError "cannot convert float NaN to integer")
  end.

(* ================================================================== *)
(** ** [repr] and [int] *)
(* ================================================================== *)

Definition hex_digit (n : nat) : ascii :=
  nth n (list_ascii_of_string "0123456789abcdef") "0"%char.

Definition backslash : ascii := ascii_of_nat 92.

Definition escape (s : string) : string := String backslash s.

(** One character of [repr(s)], [quote] being the quote chosen. *)
Definition repr_char (quote c : ascii) : string :=
  let n := nat_of_ascii c in
  if (n =? 92)%nat then escape (String backslash "")
  else if Ascii.eqb c quote then escape (String c "")
  else if (n =? 9)%nat then escape "t"
  else if (n =? 10)%nat then escape "n"
  else if (n =? 13)%nat then escape "r"
  else if ((n <? 32) || (n =? 127))%nat then
    escape (String "x"%char
      (String (hex_digit (n / 16)) (String (hex_digit (n mod 16)) "")))
  else String c "".

Fixpoint occurs (c : ascii) (s : string) : bool :=
  match s with
  | EmptyString => false
  | String d s' => Ascii.eqb c d || occurs c s'
  end.

Definition apostrophe : ascii := ascii_of_nat 39.

Definition double_quote : ascii := ascii_of_nat 34.

(** [repr(s)] for a string of ASCII characters: double quotes are used
    when [s] holds an apostrophe and no double quote. *)
Definition repr (s : string) : string :=
  let quote :=
    if occurs apostrophe s && negb (occurs double_quote s)
    then double_quote else apostrophe in
  String quote
    (String.concat "" (map (repr_char quote) (list_ascii_of_string s))
       ++ String quote "").

Section PyInt.

(** [int(s)] for a string [s] is Python's own parser (white space, sign,
    digit groups); it is taken as given: [None] is its [ValueError]. *)
Variable int_of_str : string -> option Z.

(** [int(s)] on a string; the message shows at most 200 characters of
    [repr(s)]. *)
Definition py_int_str (s : string) : result Z :=
  match int_of_str s with
  | Some n => inr n
  | None =>
      inl (Raise ValueError
             ("invalid literal for int() with base 10: "
                ++ substring 0 200 (repr s)))
  end.

(** [int(v)]. *)
Definition py_int (v : json) : result Z :=
  match v with
  | JInt n => inr n
  | JBool b => inr (if b then 1 else 0)
  | JFloat x => int_of_float x
  | JStr s => py_int_str s
  | JNull | JArr _ | JObj _ =>
      inl (Raise TypeError
             ("int() argument must be a string, a bytes-like object or a real number, not '"
                ++ type_name v ++ "'"))
  end.

End PyInt.

(* ================================================================== *)
(** ** Effects *)
(* ================================================================== *)

(** An HTTP response as the program reads it: the status line, and what
    [await response.json()] and [await response.text()] give (either may
    raise while the body is read). *)
Record response : Type := Response {
  status : Z;
  json_body : result json;
  text : result string
}.

(** The records the program writes to its logger, one constructor per
    [logger.info] / [logger.error] call of the source. *)
Inductive log_record : Type :=
| TokenError (msg : string)
| OfferCreated (offer_name : string)
| OfferRejected (offer_name : string) (status : Z) (error_text : string)
| OfferError (offer_name : string) (msg : string)
| OfferExhausted (offer_name : string) (max_retries : Z)
| InvalidNumOffers (msg : string).

(** The text of each record: the f-string of the source. *)
Definition render (r : log_record) : string :=
  match r with
  | TokenError msg => "Error getting token: " ++ msg
  | OfferCreated name => "Successfully created offer: " ++ name
  | OfferRejected name st err =>
      "Failed to create offer " ++ name ++ ". Status: " ++ str_of_Z st
        ++ ", Error: " ++ err
  | OfferError name msg => "Error creating offer " ++ name ++ ": " ++ msg
  | OfferExhausted name n =>
      "Failed to create offer " ++ name ++ " after " ++ str_of_Z n ++ " attempts"
  | InvalidNumOffers msg => "Invalid NUM_OFFERS value: " ++ msg
  end.

(** [logger.info] is used for [OfferCreated] alone. *)
Definition is_error_level (r : log_record) : bool :=
  match r with OfferCreated _ => false | _ => true end.

(** What a coroutine asks of its surroundings, indexed by the type of the
    answer.  [PostToken] and [PostOffer] stand for the whole
    [async with session.post(...) as response] exchange; the bearer header
    is kept as the token value it is formatted from. *)
Inductive event : Type -> Type :=
| Time : event float
| LoadAccessToken : event json
| LoadTokenExpiresAt : event float
| StoreAccessToken (v : json) : event unit
| StoreTokenExpiresAt (t : float) : event unit
| PostToken (client_id client_secret : string) : event (result response)
| PostOffer (url : string) (token : json) (payload : json) : event (result response)
| Sleep (seconds : Z) : event unit
| Log (r : log_record) : event unit
| PrintLine (line : string) : event unit.

(** A coroutine body: a finite tree of events. *)
Inductive prog (R : Type) : Type :=
| Ret (r : R)
| Vis {X : Type} (e : event X) (k : X -> prog R).

Arguments Ret {R} r.
Arguments Vis {R X} e k.

Fixpoint bind {A B : Type} (p : prog A) (f : A -> prog B) : prog B :=
  match p with
  | Ret a => f a
  | Vis e k => Vis e (fun x => bind (k x) f)
  end.

(** Programs that may raise. *)
Definition M (A : Type) : Type := prog (result A).

Definition ret {A : Type} (a : A) : M A := Ret (inr a).

Definition raise {A : Type} (e : exn) : M A := Ret (inl e).

Definition lift {A : Type} (r : result A) : M A := Ret r.

Definition bindM {A B : Type} (p : M A) (f : A -> M B) : M B :=
  bind p (fun r => match r with inl e => Ret (inl e) | inr a => f a end).

(** [try: body  except Exception as e: handler e]. *)
Definition try_except {A : Type} (body : M A) (handler : exn -> M A) : M A :=
  bind body (fun r => match r with inl e => handler e | inr a => Ret (inr a) end).

(** An event that cannot raise. *)
Definition perform {X : Type} (e : event X) : M X :=
  Vis e (fun x => Ret (inr x)).

(** An awaited call: its exception, if any, is raised at the [await]. *)
Definition await {X : Type} (e : event (result X)) : M X :=
  Vis e (fun x => Ret x).

Declare Scope prog_scope.
Delimit Scope prog_scope with prog.
Notation "x <- p ;; k" := (bindM p (fun x => k))
  (at level 61, p at next level, right associativity) : prog_scope.
Notation "p ;; k" := (bindM p (fun _ => k))
  (at level 61, right associativity) : prog_scope.
Open Scope prog_scope.

(* ================================================================== *)
(** ** class TokenManager *)
(* ================================================================== *)

(** The immutable fields of a [TokenManager]; [access_token] and
    [token_expires_at] are mutable and shared by every coroutine, they
    live in the [world] below and are reached through events. *)
Record TokenManager : Type := {
  client_id : string;
  client_secret : string
}.

Section Program.

Variable int_of_str : string -> option Z.

Definition get_token (self : TokenManager) : M json :=
  access_token <- perform LoadAccessToken ;;
  hit <- (if truthy access_token then
            now <- perform Time ;;
            token_expires_at <- perform LoadTokenExpiresAt ;;
            ret (float_lt now (float_sub token_expires_at (nearest 300)))
          else ret false) ;;
  if (hit : bool) then
    tok <- perform LoadAccessToken ;;
    ret tok
  else
    try_except
      (response <- await (PostToken (client_id self) (client_secret self)) ;;
       if status response =? 200 then
         token_response <- lift (json_body response) ;;
         v <- lift (subscript token_response "access_token") ;;
         perform (StoreAccessToken v) ;;
         now <- perform Time ;;
         expires_in <- lift (subscript token_response "expires_in") ;;
         n <- lift (py_int int_of_str expires_in) ;;
         seconds <- lift (float_of_int n) ;;
         perform (StoreTokenExpiresAt (float_add now seconds)) ;;
         tok <- perform LoadAccessToken ;;
         ret tok
       else
         error_text <- lift (text response) ;;
         raise (Raise PlainException
                  ("Failed to get token. Status: " ++ str_of_Z (status response)
                     ++ ", Error: " ++ error_text)))
      (fun e => perform (Log (TokenError (exn_str e))) ;; raise e).

(* ================================================================ *)
(** ** class OfferCreator *)
(* ================================================================ *)

Record OfferCreator : Type := {
  token_manager : TokenManager;
  base_url : string
}.

Definition billingTerm (type : string) : string * json :=
  ("billingTerm", JObj [("type", JStr type); ("value", JInt 1)]).

Definition paymentOption (type : string) : string * json :=
  ("paymentOption", JObj [("type", JStr type); ("value", JInt 1)]).

Definition get_offer_payload (self : OfferCreator) (offer_name : string) : json :=
  JObj [
    ("$schema", JStr "https://schema.mp.microsoft.com/schema/configure/2022-07-01");
    ("resources", JArr [
      JObj [
        ("$schema", JStr "https://schema.mp.microsoft.com/schema/price-and-availability-private-offer-plan/2023-07-15");
        ("product", JStr "product/d414cbcc-a721-4b58-bdaa-145e05e87fa7");
        ("resourceName", JStr "newSaaSPlanAbsolutePricing");
        ("plan", JStr "plan/d414cbcc-a721-4b58-bdaa-145e05e87fa7/1bed11cb-98e3-4429-942f-2561eb6e212c");
        ("offerPricingType", JStr "saasNewCustomizedPlans");
        ("pricing", JObj [
          ("recurrentPrice", JObj [
            ("recurrentPriceMode", JStr "flatRate");
            ("priceInputOption", JStr "usd");
            ("prices", JArr [
              JObj [ billingTerm "month"; paymentOption "month";
                     ("pricePerPaymentInUsd", JFloat (nearest 10)) ];
              JObj [ billingTerm "year"; paymentOption "month";
                     ("pricePerPaymentInUsd", JFloat (nearest 10)) ] ]) ]);
          ("customMeters", JObj [
            ("priceInputOption", JStr "usd");
            ("meters", JObj [
              ("xyx", JObj [
                ("includedQuantities", JArr [
                  JObj [ billingTerm "month"; ("isInfinite", JBool false);
                         ("quantity", JFloat (nearest 10)) ];
                  JObj [ billingTerm "year"; ("isInfinite", JBool true) ] ]);
                ("pricePerPaymentInUsd", JFloat (nearest 10)) ]);
              ("ws43", JObj [
                ("includedQuantities", JArr [
                  JObj [ billingTerm "month"; ("isInfinite", JBool false);
                         ("quantity", JFloat (nearest 4)) ];
                  JObj [ billingTerm "year"; ("isInfinite", JBool false);
                         ("quantity", JFloat (nearest 4)) ] ]);
                ("pricePerPaymentInUsd", JFloat (nearest 10)) ]) ]) ]) ]) ];
      JObj [
        ("$schema", JStr "https://schema.mp.microsoft.com/schema/private-offer/2023-07-15");
        ("name", JStr offer_name);
        ("state", JStr "draft");
        ("privateOfferType", JStr "customerPromotion");
        ("offerPricingType", JStr "saasNewCustomizedPlans");
        ("variableStartDate", JBool true);
        ("end", JStr "2024-06-28");
        ("acceptBy", JStr "2024-05-28");
        ("preparedBy", JStr "sundaran.s@workspan.com");
        ("termsAndConditionsDocSasUrl", JStr "https://query.prod.cms.rt.microsoft.com/cms/api/am/binary/RE4rFOA");
        ("notificationContacts", JArr [ JStr "sundaran.s@workspan.com" ]);
        ("beneficiaries", JArr [
          JObj [
            ("id", JStr "xxxxxx-2163-5eea-ae4e-d6e88627c26b:6ea018a9-da9d-4eae-8610-22b51ebe260b_2019-05-31");
            ("description", JStr "Top First Customer") ] ]);
        ("pricing", JArr [
          JObj [
            ("product", JStr "product/d414cbcc-a721-4b58-bdaa-145e05e87fa7");
            ("discountType", JStr "absolute");
            ("priceDetails", JObj [ ("resourceName", JStr "newSaaSPlanAbsolutePricing") ]);
            ("basePlan", JStr "plan/d414cbcc-a721-4b58-bdaa-145e05e87fa7/1bed11cb-98e3-4429-942f-2561eb6e212c");
            ("newPlanDetails", JObj [
              ("name", JStr ("plan_" ++ offer_name));
              ("description", JStr "custom plan description") ]) ] ]) ] ]) ].

(** The f-string naming the offer of a job. *)
Definition offer_name_of (offer_number : Z) : string :=
  "dynamic_offer_1000_workers_" ++ str_of_Z offer_number.

(** How one pass through the body of the [while] loop ends: the
    [return] after an accepted response, the [break] that follows the
    [try] statement, or the [continue] of the handler, which carries the
    incremented [retry_count]. *)
Inductive control : Type :=
| Return
| Break
| Continue (retry_count : Z).

(** The [try] statement of the loop body. *)
Definition attempt (self : OfferCreator) (offer_name : string) (payload : json)
    (max_retries retry_count : Z) : M control :=
  try_except
    (token <- get_token (token_manager self) ;;
     response <- await (PostOffer (base_url self ++ "?$version=2022-07-01")
                          token payload) ;;
     if status response =? 202 then
       perform (Log (OfferCreated offer_name)) ;;
       ret Return
     else
       error_text <- lift (text response) ;;
       perform (Log (OfferRejected offer_name (status response) error_text)) ;;
       ret Break)
    (fun e =>
       perform (Log (OfferError offer_name (exn_str e))) ;;
       let retry_count := retry_count + 1 in
       (if retry_count <? max_retries
        then perform (Sleep (2 ^ retry_count))
        else ret tt) ;;
       ret (Continue retry_count)).

(** The statement after the loop. *)
Definition after_loop (offer_name : string) (max_retries retry_count : Z) : M unit :=
  if retry_count =? max_retries
  then perform (Log (OfferExhausted offer_name max_retries))
  else ret tt.

(** [while retry_count < max_retries], by recursion on the variant
    [max_retries - retry_count] of the loop: the guard holds exactly
    when the variant is positive, and [continue] lowers it by one. *)
Fixpoint retry_loop (self : OfferCreator) (offer_name : string) (payload : json)
    (max_retries : Z) (variant : nat) (retry_count : Z) : M unit :=
  match variant with
  | O => after_loop offer_name max_retries retry_count
  | S variant' =>
      ctl <- attempt self offer_name payload max_retries retry_count ;;
      match ctl with
      | Return => ret tt
      | Break => after_loop offer_name max_retries retry_count
      | Continue retry_count' =>
          retry_loop self offer_name payload max_retries variant' retry_count'
      end
  end.

Definition create_offer (self : OfferCreator) (offer_number : Z) : M unit :=
  let offer_name := offer_name_of offer_number in
  let payload := get_offer_payload self offer_name in
  let max_retries := 3 in
  let retry_count := 0 in
  retry_loop self offer_name payload max_retries
    (Z.to_nat (max_retries - retry_count)) retry_count.

(* ================================================================ *)
(** ** main *)
(* ================================================================ *)

(** [except cls as e: handler e]: other classes pass through. *)
Definition try_except_class {A : Type} (cls : exn_class) (body : M A)
    (handler : exn -> M A) : M A :=
  try_except body
    (fun e => if exn_class_eqb (exn_cls e) cls then handler e else raise e).

(** The value of a variable that [all] has found set. *)
Definition the (v : option string) : string :=
  match v with Some s => s | None => "" end.

Definition newline : string := String (ascii_of_nat 10) "".

(** A coroutine object that has not started yet: the call
    [offer_creator.create_offer(session, i)] with its arguments. *)
Record coroutine : Type := {
  creator : OfferCreator;
  offer_number : Z
}.

Definition body (c : coroutine) : M unit :=
  create_offer (creator c) (offer_number c).

(** [main] up to [asyncio.gather]: it either raises or hands the
    coroutines of its jobs to the event loop.  [environ] is
    [os.environ.get]. *)
Definition main (environ : string -> option string) : M (list coroutine) :=
  let client_id := environ "MS_CLIENT_ID" in
  let client_secret := environ "MS_CLIENT_SECRET" in
  let num_offers := environ "NUM_OFFERS" in
  if negb (all [truthy_env client_id; truthy_env client_secret; truthy_env num_offers])
  then raise (Raise ValueError
    "Missing required environment variables. Please ensure MS_CLIENT_ID, MS_CLIENT_SECRET, and NUM_OFFERS are set.")
  else
    num_offers <-
      try_except_class ValueError
        (num_offers <- lift (py_int_str int_of_str (the num_offers)) ;;
         if num_offers <=? 0
         then raise (Raise ValueError "NUM_OFFERS must be a positive number")
         else ret num_offers)
        (fun e => perform (Log (InvalidNumOffers (exn_str e))) ;; raise e) ;;
    perform (PrintLine (newline ++ "Starting creation of " ++ str_of_Z num_offers
                      ++ " offers in parallel...")) ;;
    let token_manager :=
      {| client_id := the client_id; client_secret := the client_secret |} in
    let offer_creator :=
      {| token_manager := token_manager;
         base_url := "https://graph.microsoft.com/rp/product-ingestion/configure" |} in
    ret (map (fun i => {| creator := offer_creator; offer_number := Z.of_nat i |})
           (seq 0 (Z.to_nat num_offers))).

End Program.

(* ================================================================== *)
(** ** Running a coroutine *)
(* ================================================================== *)

(** What can be observed from outside, in the order it happens. *)
Inductive obs : Type :=
| TokenPosted (client_id client_secret : string)
| OfferPosted (url : string) (token payload : json)
| Slept (seconds : Z)
| Logged (r : log_record)
| Printed (line : string).

(** The mutable fields of the one [TokenManager] every job shares, the
    number of clock reads so far, and the trace. *)
Record world : Type := World {
  access_token : json;
  token_expires_at : float;
  ticks : nat;
  trace : list obs
}.

(** [TokenManager.__init__].  The expiry starts as the int [0]; it is
    only ever read in [token_expires_at - 300 ], compared with a float,
    where the int [0] and the float [0.0] act alike. *)
Definition init_world : world :=
  {| access_token := JNull; token_expires_at := S754_zero false;
     ticks := 0%nat; trace := [] |}.

(** Everything the program does not decide: what the [n]-th read of the
    clock gives, and how the two endpoints answer their [n]-th request.
    [time.time()] is a float, in seconds. *)
Record env : Type := Env {
  clock : nat -> float;
  token_endpoint : nat -> string -> string -> result response;
  offer_endpoint : nat -> string -> json -> json -> result response
}.

Definition is_token_post (o : obs) : bool :=
  match o with TokenPosted _ _ => true | _ => false end.

Definition is_offer_post (o : obs) : bool :=
  match o with OfferPosted _ _ _ => true | _ => false end.

(** Number of credential exchanges in a trace. *)
Definition token_posts (tr : list obs) : nat :=
  List.length (filter is_token_post tr).

(** The creation requests of a trace. *)
Definition offer_posts (tr : list obs) : list obs := filter is_offer_post tr.

Fixpoint sleeps (tr : list obs) : list Z :=
  match tr with
  | [] => []
  | Slept s :: tr' => s :: sleeps tr'
  | _ :: tr' => sleeps tr'
  end.

Fixpoint records (tr : list obs) : list log_record :=
  match tr with
  | [] => []
  | Logged r :: tr' => r :: records tr'
  | _ :: tr' => records tr'
  end.

Definition emit (o : obs) (w : world) : world :=
  {| access_token := access_token w; token_expires_at := token_expires_at w;
     ticks := ticks w; trace := (trace w ++ [o])%list |}.

Definition handle {X : Type} (e : event X) (en : env) (w : world) : X * world :=
  match e in event X return X * world with
  | Time =>
      (clock en (ticks w),
       {| access_token := access_token w; token_expires_at := token_expires_at w;
          ticks := S (ticks w); trace := trace w |})
  | LoadAccessToken => (access_token w, w)
  | LoadTokenExpiresAt => (token_expires_at w, w)
  | StoreAccessToken v =>
      (tt, {| access_token := v; token_expires_at := token_expires_at w;
              ticks := ticks w; trace := trace w |})
  | StoreTokenExpiresAt t =>
      (tt, {| access_token := access_token w; token_expires_at := t;
              ticks := ticks w; trace := trace w |})
  | PostToken cid cs =>
      (token_endpoint en (token_posts (trace w)) cid cs, emit (TokenPosted cid cs) w)
  | PostOffer url tok payload =>
      (offer_endpoint en (List.length (offer_posts (trace w))) url tok payload,
       emit (OfferPosted url tok payload) w)
  | Sleep s => (tt, emit (Slept s) w)
  | Log r => (tt, emit (Logged r) w)
  | PrintLine l => (tt, emit (Printed l) w)
  end.

(** One coroutine run alone, from its first statement to its last. *)
Fixpoint run {R : Type} (p : prog R) (en : env) (w : world) : R * world :=
  match p with
  | Ret r => (r, w)
  | Vis e k => let (x, w') := handle e en w in run (k x) en w'
  end.

(* ================================================================== *)
(** ** The event loop *)
(* ================================================================== *)

(** The awaits at which a task yields to the event loop. *)
Definition suspends {X : Type} (e : event X) : bool :=
  match e with
  | PostToken _ _ | PostOffer _ _ _ | Sleep _ => true
  | _ => false
  end.

Inductive task (R : Type) : Type :=
| Done (r : R)
| Suspended (rest : prog R).

Arguments Done {R} r.
Arguments Suspended {R} rest.

(** A task runs, without interruption, up to its next suspending await;
    the request is on its way from then on, and [rest] is what the task
    does once the loop wakes it with the answer. *)
Fixpoint advance {R : Type} (p : prog R) (en : env) (w : world) : task R * world :=
  match p with
  | Ret r => (Done r, w)
  | Vis e k =>
      let (x, w') := handle e en w in
      if suspends e then (Suspended (k x), w') else advance (k x) en w'
  end.

(** [asyncio.gather] schedules its coroutines in order; each runs its
    first stretch before the loop polls for any answer. *)
Fixpoint start {R : Type} (ps : list (prog R)) (en : env) (w : world)
  : list (task R) * world :=
  match ps with
  | [] => ([], w)
  | p :: ps' =>
      let (t, w1) := advance p en w in
      let (ts, w2) := start ps' en w1 in
      (t :: ts, w2)
  end.

Fixpoint replace {A : Type} (i : nat) (x : A) (l : list A) : list A :=
  match l, i with
  | [], _ => []
  | _ :: l', O => x :: l'
  | y :: l', S i' => y :: replace i' x l'
  end.

(** The loop wakes task [i]. *)
Definition resume {R : Type} (i : nat) (pool : list (task R)) (en : env) (w : world)
  : list (task R) * world :=
  match nth_error pool i with
  | Some (Suspended p) =>
      let (t, w') := advance p en w in (replace i t pool, w')
  | _ => (pool, w)
  end.

Fixpoint first_raised {A : Type} (pool : list (task (result A))) : option exn :=
  match pool with
  | [] => None
  | Done (inl e) :: _ => Some e
  | _ :: pool' => first_raised pool'
  end.

Definition is_done {R : Type} (t : task R) : bool :=
  match t with Done _ => true | Suspended _ => false end.

(** How the awaited [asyncio.gather] of [main] stands. *)
Inductive gathered : Type :=
| Raised (e : exn)     (* a task raised: gather raises it in [main] *)
| Returned             (* every task returned *)
| Running.             (* some task is still suspended *)

(** The tasks are woken in the order their answers arrive, [order];
    [gather] raises as soon as one task has raised. *)
Fixpoint event_loop {A : Type} (order : list nat) (pool : list (task (result A)))
    (en : env) (w : world) : gathered * world :=
  match first_raised pool with
  | Some e => (Raised e, w)
  | None =>
      if forallb is_done pool then (Returned, w)
      else
        match order with
        | [] => (Running, w)
        | i :: order' =>
            let (pool', w') := resume i pool en w in
            event_loop order' pool' en w'
        end
  end.

Section Process.

Variable int_of_str : string -> option Z.

(** [asyncio.run(main())]. *)
Definition run_main (environ : string -> option string) (order : list nat)
    (en : env) : gathered * world :=
  match run (main int_of_str environ) en init_world with
  | (inl e, w) => (Raised e, w)
  | (inr coroutines, w) =>
      let (pool, w') := start (map (body int_of_str) coroutines) en w in
      event_loop order pool en w'
  end.

End Process.

(* ================================================================== *)
(** ** Reading traces *)
(* ================================================================== *)

(** The records of [create_offer] (those of [get_token] and [main] left out). *)
Definition is_offer_record (r : log_record) : bool :=
  match r with
  | OfferCreated _ | OfferRejected _ _ _ | OfferError _ _ | OfferExhausted _ _ => true
  | TokenError _ | InvalidNumOffers _ => false
  end.

Definition offer_records (tr : list obs) : list log_record :=
  filter is_offer_record (records tr).

(** The records that close one pass of the retry loop: each attempt
    writes exactly one of them. *)
Definition is_attempt_record (r : log_record) : bool :=
  match r with
  | OfferCreated _ | OfferRejected _ _ _ | OfferError _ _ => true
  | _ => false
  end.

(** Number of attempts a trace shows. *)
Definition attempts (tr : list obs) : nat :=
  List.length (filter is_attempt_record (records tr)).

(** The two terminal reports of a job. *)
Definition is_terminal_record (r : log_record) : bool :=
  match r with
  | OfferCreated _ | OfferExhausted _ _ => true
  | _ => false
  end.

Definition terminal_records (tr : list obs) : list log_record :=
  filter is_terminal_record (records tr).

(** What [get_token] alone can add to a trace. *)
Definition is_token_obs (o : obs) : bool :=
  match o with
  | TokenPosted _ _ | Logged (TokenError _) => true
  | _ => false
  end.

(** The cached token is usable at time [now]: the test of [get_token]. *)
Definition cache_valid (w : world) (now : float) : bool :=
  truthy (access_token w) &&
  float_lt now (float_sub (token_expires_at w) (nearest 300)).

Definition tick (w : world) : world :=
  {| access_token := access_token w; token_expires_at := token_expires_at w;
     ticks := S (ticks w); trace := trace w |}.

(** A job's attempt has failed with [e] when [retry_count] was [rc]: the
    handler of [create_offer]. *)
Definition failed (offer_name : string) (max_retries rc : Z) (e : exn) (w : world)
  : result control * world :=
  let w1 := emit (Logged (OfferError offer_name (exn_str e))) w in
  (inr (Continue (rc + 1)),
   if rc + 1 <? max_retries then emit (Slept (2 ^ (rc + 1))) w1 else w1).


(** The world once [get_token] has tested the cache: the clock is read
    only when a token is there. *)
Definition checked (w : world) : world :=
  if truthy (access_token w) then tick w else w.

Section Granted.

Variable int_of_str : string -> option Z.

(** What a credential exchange grants: the [access_token] of the body
    and [int(expires_in)], when the answer is a 200 whose body has
    both and the number of seconds is one a float can hold.  [None] when
    [get_token] raises on this answer. *)
Definition granted (answer : result response) : option (json * Z) :=
  match answer with
  | inl _ => None
  | inr r =>
      if status r =? 200 then
        match json_body r with
        | inl _ => None
        | inr token_response =>
            match subscript token_response "access_token",
                  subscript token_response "expires_in" with
            | inr v, inr x =>
                match py_int int_of_str x with
                | inr n =>
                    match float_of_int n with
                    | inr _ => Some (v, n)
                    | inl _ => None
                    end
                | inl _ => None
                end
            | _, _ => None
            end
        end
      else None
  end.

(** The token endpoint never lets a caller down. *)
Definition token_service_ok (en : env) : Prop :=
  forall i cid cs, granted (token_endpoint en i cid cs) <> None.

End Granted.

(** The sleep that follows a failed attempt made with [retry_count = rc],
    if any. *)
Definition backoff (max_retries rc : Z) : list Z :=
  if rc + 1 <? max_retries then [2 ^ (rc + 1)] else [].

(** The sleeps of [k] failed attempts in a row, the first of them made
    with [retry_count = rc]. *)
Fixpoint backoffs (max_retries rc : Z) (k : nat) : list Z :=
  match k with
  | O => []
  | S k' => (backoff max_retries rc ++ backoffs max_retries (rc + 1) k')%list
  end.

(** What the job itself does, in the order it does it: the trace without
    the traffic of [get_token]. *)
Definition timeline (tr : list obs) : list obs :=
  filter (fun o => negb (is_token_obs o)) tr.

Section Passes.

Variable url : string.
Variable offer_name : string.
Variable payload : json.
Variable max_retries : Z.

(** The creation request of a pass, when the pass got as far as sending
    one; [token] is the bearer it carried. *)
Definition request (posted : option json) : list obs :=
  match posted with
  | Some token => [OfferPosted url token payload]
  | None => []
  end.

(** A failed pass made with [retry_count = rc], as the timeline shows
    it: its request, if any, its error record, then its sleep, if any. *)
Definition failed_pass (rc : Z) (f : option json * string) : list obs :=
  (request (fst f) ++ Logged (OfferError offer_name (snd f))
     :: map Slept (backoff max_retries rc))%list.

(** Failed passes in a row, the first made with [retry_count = rc]. *)
Fixpoint failed_passes (rc : Z) (fs : list (option json * string)) : list obs :=
  match fs with
  | [] => []
  | f :: fs' => (failed_pass rc f ++ failed_passes (rc + 1) fs')%list
  end.

End Passes.

(** The index of the next creation request. *)
Definition post_index (w : world) : nat := List.length (offer_posts (trace w)).

Section Attempted.

Variable int_of_str : string -> option Z.
Variable self : OfferCreator.
Variable offer_name : string.
Variable payload : json.
Variable max_retries : Z.
Variable en : env.

Definition request_url : string := base_url self ++ "?$version=2022-07-01".

(** The four ways one pass of the loop can go from world [w] with
    [retry_count = rc], with what it adds to the trace. *)
Inductive attempted (rc : Z) (w : world) : control -> list obs -> Prop :=
| attempted_accepted toks token r :
    forallb is_token_obs toks = true ->
    fst (run (get_token int_of_str (token_manager self)) en w) = inr token ->
    offer_endpoint en (post_index w) request_url token payload = inr r ->
    status r = 202 ->
    attempted rc w Return
      (toks ++ [OfferPosted request_url token payload;
                Logged (OfferCreated offer_name)])
| attempted_rejected toks token r error_text :
    forallb is_token_obs toks = true ->
    fst (run (get_token int_of_str (token_manager self)) en w) = inr token ->
    offer_endpoint en (post_index w) request_url token payload = inr r ->
    status r <> 202 ->
    text r = inr error_text ->
    attempted rc w Break
      (toks ++ [OfferPosted request_url token payload;
                Logged (OfferRejected offer_name (status r) error_text)])
| attempted_no_token toks e :
    forallb is_token_obs toks = true ->
    fst (run (get_token int_of_str (token_manager self)) en w) = inl e ->
    attempted rc w (Continue (rc + 1))
      (toks ++ Logged (OfferError offer_name (exn_str e))
            :: map Slept (backoff max_retries rc))
| attempted_raised toks token e :
    forallb is_token_obs toks = true ->
    fst (run (get_token int_of_str (token_manager self)) en w) = inr token ->
    (offer_endpoint en (post_index w) request_url token payload = inl e \/
     exists r, offer_endpoint en (post_index w) request_url token payload = inr r /\
               status r <> 202 /\ text r = inl e) ->
    attempted rc w (Continue (rc + 1))
      (toks ++ OfferPosted request_url token payload
            :: Logged (OfferError offer_name (exn_str e))
            :: map Slept (backoff max_retries rc)).

End Attempted.

(** How the offer endpoint treats its [i]-th request, whatever it carries:
    the call raises; it answers 202; it answers another status [st] with
    a body that reads as [error_text]. *)
Definition raises_at (en : env) (i : nat) : Prop :=
  forall url token payload, exists e, offer_endpoint en i url token payload = inl e.

Definition accepts_at (en : env) (i : nat) : Prop :=
  forall url token payload,
  exists r, offer_endpoint en i url token payload = inr r /\ status r = 202.

Definition rejects_at (en : env) (i : nat) (st : Z) (error_text : string) : Prop :=
  st <> 202 /\
  forall url token payload,
  exists r, offer_endpoint en i url token payload = inr r /\
            status r = st /\ text r = inr error_text.

(* ================================================================== *)
(** ** Properties of every run of a coroutine *)
(* ================================================================== *)

(** What an event leaves in the trace. *)
Definition observe {X : Type} (e : event X) : option obs :=
  match e with
  | PostToken cid cs => Some (TokenPosted cid cs)
  | PostOffer url token payload => Some (OfferPosted url token payload)
  | Sleep s => Some (Slept s)
  | Log r => Some (Logged r)
  | PrintLine l => Some (Printed l)
  | _ => None
  end.

(** [sat PO PR p]: whatever the surroundings answer, and however the
    coroutine is scheduled, all that [p] shows satisfies [PO] and what it
    ends with satisfies [PR]. *)
Inductive sat {R : Type} (PO : obs -> Prop) (PR : R -> Prop) : prog R -> Prop :=
| sat_ret r : PR r -> sat PO PR (Ret r)
| sat_vis X (e : event X) k :
    (forall o, observe e = Some o -> PO o) ->
    (forall x, sat PO PR (k x)) ->
    sat PO PR (Vis e k).

(** The offer a record is about. *)
Definition record_offer_name (r : log_record) : option string :=
  match r with
  | OfferCreated n | OfferRejected n _ _ | OfferError n _ | OfferExhausted n _ => Some n
  | TokenError _ | InvalidNumOffers _ => None
  end.

(** [o] is a request for, or a record about, the offer [name] with the
    document [payload], or is no request or offer record at all. *)
Definition of_job (url name : string) (payload : json) (o : obs) : Prop :=
  match o with
  | OfferPosted u _ p => u = url /\ p = payload
  | Logged r =>
      match record_offer_name r with
      | Some n => n = name
      | None => True
      end
  | _ => True
  end.

(** A task that has returned has not raised; one that is suspended never
    will. *)
Definition never_raises {A : Type} (t : task (result A)) : Prop :=
  match t with
  | Done r => exists a, r = inr a
  | Suspended rest => sat (fun _ => True) (fun r => exists a, r = inr a) rest
  end.

(** A creation request carries [payload]; anything else goes. *)
Definition posts_document (payload : json) (o : obs) : Prop :=
  match o with
  | OfferPosted _ _ p => p = payload
  | _ => True
  end.

(** [settles d p]: whatever it is answered, [p] yields to the event loop
    at most [d] times before it ends. *)
Inductive settles {R : Type} : nat -> prog R -> Prop :=
| settles_ret d r : settles d (Ret r)
| settles_go d X (e : event X) k :
    suspends e = false -> (forall x, settles d (k x)) -> settles d (Vis e k)
| settles_wait d X (e : event X) k :
    suspends e = true -> (forall x, settles d (k x)) -> settles (S d) (Vis e k).

(** The task is done after at most [d] wake-ups. *)
Definition within {R : Type} (d : nat) (t : task R) : Prop :=
  match t with
  | Done _ => True
  | Suspended rest => exists d', d = S d' /\ settles d' rest
  end.

(** The loop wakes the tasks of [order], one after the other. *)
Fixpoint resume_all {R : Type} (order : list nat) (pool : list (task R))
    (en : env) (w : world) : list (task R) * world :=
  match order with
  | [] => (pool, w)
  | i :: order' =>
      let (pool', w') := resume i pool en w in
      resume_all order' pool' en w'
  end.

(** [rounds] times round the [n] tasks. *)
Fixpoint round_robin (n rounds : nat) : list nat :=
  match rounds with
  | O => []
  | S rounds' => (seq 0 n ++ round_robin n rounds')%list
  end.

(* ================================================================== *)
(** ** Configurations *)
(* ================================================================== *)

(** A variable [all] finds wanting: not set, or set to the empty string. *)
Definition unset (v : option string) : Prop := v = None \/ v = Some "".

Section Config.

Variable int_of_str : string -> option Z.
Variable environ : string -> option string.

Inductive bad_config : Prop :=
| no_client_id : unset (environ "MS_CLIENT_ID") -> bad_config
| no_client_secret : unset (environ "MS_CLIENT_SECRET") -> bad_config
| no_num_offers : unset (environ "NUM_OFFERS") -> bad_config
| num_offers_not_a_number s :
    environ "NUM_OFFERS" = Some s -> int_of_str s = None -> bad_config
| num_offers_not_positive s n :
    environ "NUM_OFFERS" = Some s -> int_of_str s = Some n -> n <= 0 -> bad_config.

(** Both credentials are set and [NUM_OFFERS] reads as the positive [n]. *)
Definition good_config (n : Z) : Prop :=
  ~ unset (environ "MS_CLIENT_ID") /\
  ~ unset (environ "MS_CLIENT_SECRET") /\
  exists s, environ "NUM_OFFERS" = Some s /\ s <> "" /\
            int_of_str s = Some n /\ 0 < n.

(** What the checks of [main] let through: the number of offers. *)
Definition validated : option Z :=
  if all [truthy_env (environ "MS_CLIENT_ID"); truthy_env (environ "MS_CLIENT_SECRET");
          truthy_env (environ "NUM_OFFERS")]
  then
    match int_of_str (the (environ "NUM_OFFERS")) with
    | Some n => if n <=? 0 then None else Some n
    | None => None
    end
  else None.

End Config.

(* ================================================================== *)
(** ** Sample inputs *)
(* ================================================================== *)

(** A parser for plain decimal literals, to run the program on. *)
Definition decimal (s : string) : option Z :=
  option_map Z.of_int (NilZero.int_of_string s).

Definition tm0 : TokenManager := {| client_id := "app"; client_secret := "secret" |}.

Definition creator0 : OfferCreator :=
  {| token_manager := tm0;
     base_url := "https://graph.microsoft.com/rp/product-ingestion/configure" |}.

(** A token endpoint answer granting [tok] for an hour. *)
Definition grant (tok : string) : result response :=
  inr {| status := 200;
         json_body := inr (JObj [("access_token", JStr tok); ("expires_in", JStr "3600")]);
         text := inr "" |}.

(** An offer endpoint answer with status [st] and body [body]. *)
Definition answer (st : Z) (body : string) : result response :=
  inr {| status := st; json_body := inl (Raise ValueError "not json"); text := inr body |}.

Definition timeout : result response := inl (Raise TimeoutError "").

(** The offer endpoint answers 500 to everything. *)
Definition env_500 : env :=
  {| clock := fun _ => nearest 1000;
     token_endpoint := fun _ _ _ => grant "tok";
     offer_endpoint := fun _ _ _ _ => answer 500 "Internal Server Error" |}.

(** Every creation request times out. *)
Definition env_timeout : env :=
  {| clock := fun _ => nearest 1000;
     token_endpoint := fun _ _ _ => grant "tok";
     offer_endpoint := fun _ _ _ _ => timeout |}.

(** The offer endpoint answers 500 twice, then 202. *)
Definition env_500_500_202 : env :=
  {| clock := fun _ => nearest 1000;
     token_endpoint := fun _ _ _ => grant "tok";
     offer_endpoint := fun i _ _ _ =>
       if (i <? 2)%nat then answer 500 "Internal Server Error" else answer 202 "" |}.

(** Two creation requests time out, the third is accepted. *)
Definition env_timeout_timeout_202 : env :=
  {| clock := fun _ => nearest 1000;
     token_endpoint := fun _ _ _ => grant "tok";
     offer_endpoint := fun i _ _ _ =>
       if (i <? 2)%nat then timeout else answer 202 "" |}.

(** The token endpoint answers 200 with a body that lacks [expires_in]. *)
Definition env_no_expiry : env :=
  {| clock := fun _ => nearest 1000;
     token_endpoint := fun _ _ _ =>
       inr {| status := 200;
              json_body := inr (JObj [("access_token", JStr "tok")]);
              text := inr "" |};
     offer_endpoint := fun _ _ _ _ => answer 202 "" |}.

(** Later on: the clock reads 2000, and the token endpoint is down. *)
Definition env_later : env :=
  {| clock := fun _ => nearest 2000;
     token_endpoint := fun _ _ _ => timeout;
     offer_endpoint := fun _ _ _ _ => answer 202 "" |}.

(** January 2038: the clock passes [2 ^ 31] seconds, from where on the
    doubles lie [2 ^ -21] apart and no longer [2 ^ -22].  The first
    reading is the double next after 2147483000, every later one is
    2147486300. *)
Definition env_2038 : env :=
  {| clock := fun i =>
       if (i =? 0)%nat then dyadic (2147483000 * 2 ^ 22 + 1) (-22)
       else nearest 2147486300;
     token_endpoint := fun _ _ _ => grant "tok";
     offer_endpoint := fun _ _ _ _ => answer 202 "" |}.

(** Two sets of environment variables: [NUM_OFFERS] is 0 in the first and
    2 in the second. *)
Definition environ_zero (name : string) : option string :=
  if String.eqb name "MS_CLIENT_ID" then Some "app"
  else if String.eqb name "MS_CLIENT_SECRET" then Some "secret"
  else if String.eqb name "NUM_OFFERS" then Some "0"
  else None.

Definition environ_two (name : string) : option string :=
  if String.eqb name "MS_CLIENT_ID" then Some "app"
  else if String.eqb name "MS_CLIENT_SECRET" then Some "secret"
  else if String.eqb name "NUM_OFFERS" then Some "2"
  else None.

(** The token endpoint grants a different token at each exchange. *)
Definition env_two_tokens : env :=
  {| clock := fun _ => nearest 1000;
     token_endpoint := fun i _ _ => if (i =? 0)%nat then grant "A" else grant "B";
     offer_endpoint := fun _ _ _ _ => answer 202 "" |}.

(* ================================================================== *)
(** ** Further behaviours *)
(* ================================================================== *)

(** An answer that carries no token: the call raised, the status is not
    200, the body is not JSON, or it has no [access_token]. *)
Definition no_token_in (a : result response) : Prop :=
  match a with
  | inl _ => True
  | inr r =>
      status r <> 200 \/
      (exists e, json_body r = inl e) \/
      (exists body e, json_body r = inr body /\ subscript body "access_token" = inl e)
  end.

(** The token endpoint grants nothing: each exchange raises or is
    answered with a status other than 200. *)
Definition token_refused (en : env) : Prop :=
  forall i cid cs,
    match token_endpoint en i cid cs with
    | inl _ => True
    | inr r => status r <> 200
    end.

(** Every creation request is answered with a status other than 202 and
    a body that cannot be read. *)
Definition unreadable_rejections (en : env) : Prop :=
  forall i url token payload,
  exists r e, offer_endpoint en i url token payload = inr r /\
              status r <> 202 /\ text r = inl e.

(** The tokens the token endpoint has in store: the [access_token] of the
    body of one of its 200 answers. *)
Definition issued (en : env) (v : json) : Prop :=
  exists i cid cs r body,
    token_endpoint en i cid cs = inr r /\ status r = 200 /\
    json_body r = inr body /\ subscript body "access_token" = inr v.

(** A creation request carries a token that satisfies [P]. *)
Definition bearer (P : json -> Prop) (o : obs) : Prop :=
  match o with
  | OfferPosted _ token _ => P token
  | _ => True
  end.

(** No token traffic, and every creation request carries [tok]. *)
Definition served_from_cache (tok : json) (o : obs) : Prop :=
  match o with
  | TokenPosted _ _ => False
  | Logged (TokenError _) => False
  | OfferPosted _ token _ => token = tok
  | _ => True
  end.

(** The offer endpoint answers 500 and breaks the connection before the
    body is read. *)
Definition env_unreadable : env :=
  {| clock := fun _ => nearest 1000;
     token_endpoint := fun _ _ _ => grant "tok";
     offer_endpoint := fun _ _ _ _ =>
       inr {| status := 500;
              json_body := inl (Raise ClientError "Connection closed");
              text := inl (Raise ClientError "Connection closed") |} |}.

(** The token endpoint is down: every exchange times out. *)
Definition env_token_down : env :=
  {| clock := fun _ => nearest 1000;
     token_endpoint := fun _ _ _ => timeout;
     offer_endpoint := fun _ _ _ _ => answer 202 "" |}.

(** A world whose cached token is good until time 10000. *)
Definition world_with_token : world :=
  {| access_token := JStr "cached"; token_expires_at := nearest 10000;
     ticks := 0%nat; trace := [] |}.

(** The creator [main] builds from its environment. *)
Definition creator_of (environ : string -> option string) : OfferCreator :=
  {| token_manager :=
       {| client_id := the (environ "MS_CLIENT_ID");
          client_secret := the (environ "MS_CLIENT_SECRET") |};
     base_url := "https://graph.microsoft.com/rp/product-ingestion/configure" |}.

(** The line [main] prints before it starts its jobs. *)
Definition starting_line (n : Z) : string :=
  newline ++ "Starting creation of " ++ str_of_Z n ++ " offers in parallel...".

(** The secret is not set. *)
Definition environ_no_secret (name : string) : option string :=
  if String.eqb name "MS_CLIENT_ID" then Some "app"
  else if String.eqb name "NUM_OFFERS" then Some "2"
  else None.




(** Number of events of a trace that [c] picks. *)
Definition count (c : obs -> bool) (tr : list obs) : nat := List.length (filter c tr).

(** [spends c d p]: whatever it is answered, [p] shows at most [d] events
    that [c] picks. *)
Inductive spends {R : Type} (c : obs -> bool) : nat -> prog R -> Prop :=
| spends_ret d r : spends c d (Ret r)
| spends_free d X (e : event X) k :
    (forall o, observe e = Some o -> c o = false) ->
    (forall x, spends c d (k x)) ->
    spends c d (Vis e k)
| spends_one d X (e : event X) k :
    (forall x, spends c d (k x)) ->
    spends c (S d) (Vis e k).

(** The task shows at most [d] more events that [c] picks. *)
Definition owes {R : Type} (c : obs -> bool) (d : nat) (t : task R) : Prop :=
  match t with
  | Done _ => True
  | Suspended rest => spends c d rest
  end.

Section Stages.

Variable en : env.

(** The task of job [c] waits for the answer to its creation request,
    and the answer is a 202: once woken it logs its success and ends. *)
Definition waits_for_answer (c : coroutine) (t : task (result unit)) : Prop :=
  exists rest,
    t = Suspended rest /\
    forall w,
      advance rest en w =
      (Done (inr tt), emit (Logged (OfferCreated (offer_name_of (offer_number c)))) w).

(** The task of job [c] waits for the answer to its exchange, and the
    answer grants a token: once woken it posts its creation request and
    waits for the answer. *)
Definition waits_for_token (c : coroutine) (t : task (result unit)) : Prop :=
  exists rest,
    t = Suspended rest /\
    forall w,
    exists token,
      trace (snd (advance rest en w)) =
        (trace w ++ [OfferPosted (request_url (creator c)) token
                       (get_offer_payload (creator c)
                          (offer_name_of (offer_number c)))])%list /\
      waits_for_answer c (fst (advance rest en w)).

End Stages.

(** Every exchange grants a token and every creation request is
    accepted. *)
Definition env_all_good : env :=
  {| clock := fun _ => nearest 1000;
     token_endpoint := fun _ _ _ => grant "tok";
     offer_endpoint := fun _ _ _ _ => answer 202 "" |}.

(** What a task shows when it is woken with a granted token: its
    creation request. *)
Definition posts_request (c : coroutine) (evs : list obs) : Prop :=
  exists token,
    evs = [OfferPosted (request_url (creator c)) token
             (get_offer_payload (creator c) (offer_name_of (offer_number c)))].

(** What a task shows when it is woken with a 202: its success record. *)
Definition logs_success (c : coroutine) (evs : list obs) : Prop :=
  evs = [Logged (OfferCreated (offer_name_of (offer_number c)))].

(** The task has returned. *)
Definition has_returned (c : coroutine) (t : task (result unit)) : Prop :=
  t = Done (inr tt).

(** The token endpoint answers 401 to every exchange. *)
Definition env_token_401 : env :=
  {| clock := fun _ => nearest 1000;
     token_endpoint := fun _ _ _ => answer 401 "invalid_client";
     offer_endpoint := fun _ _ _ _ => answer 202 "" |}.

(** The token endpoint grants a token for [10 ^ 400] seconds, an int no
    float can hold. *)
Definition env_long_expiry : env :=
  {| clock := fun _ => nearest 1000;
     token_endpoint := fun _ _ _ =>
       inr {| status := 200;
              json_body := inr (JObj [("access_token", JStr "tok");
                                      ("expires_in", JInt (10 ^ 400))]);
              text := inr "" |};
     offer_endpoint := fun _ _ _ _ => answer 202 "" |}.
(* ================================================================== *)
(** ** Equations of [run] *)
(* ================================================================== *)

Lemma run_bind {A B : Type} (p : prog A) (f : A -> prog B) en w :
  run (bind p f) en w = let (a, w') := run p en w in run (f a) en w'.
Proof.
  revert w. induction p as [a | X e k IH]; intros w; simpl.
  - reflexivity.
  - destruct (handle e en w) as [x w1]. apply IH.
Qed.

Lemma run_bindM {A B : Type} (p : M A) (f : A -> M B) en w :
  run (bindM p f) en w =
  let (a, w') := run p en w in
  match a with inl e => (inl e, w') | inr x => run (f x) en w' end.
Proof.
  unfold bindM. rewrite run_bind. destruct (run p en w) as [[e | x] w']; reflexivity.
Qed.

Lemma run_try_except {A : Type} (p : M A) (h : exn -> M A) en w :
  run (try_except p h) en w =
  let (a, w') := run p en w in
  match a with inl e => run (h e) en w' | inr x => (inr x, w') end.
Proof.
  unfold try_except. rewrite run_bind. destruct (run p en w) as [[e | x] w']; reflexivity.
Qed.

Lemma sleeps_app tr1 tr2 : sleeps (tr1 ++ tr2) = (sleeps tr1 ++ sleeps tr2)%list.
Proof.
  induction tr1 as [| o tr1 IH]; simpl; [reflexivity |].
  destruct o; simpl; rewrite IH; reflexivity.
Qed.

Lemma records_app tr1 tr2 : records (tr1 ++ tr2) = (records tr1 ++ records tr2)%list.
Proof.
  induction tr1 as [| o tr1 IH]; simpl; [reflexivity |].
  destruct o; simpl; rewrite IH; reflexivity.
Qed.

Lemma offer_records_app tr1 tr2 :
  offer_records (tr1 ++ tr2) = (offer_records tr1 ++ offer_records tr2)%list.
Proof. unfold offer_records. rewrite records_app. apply filter_app. Qed.

Lemma terminal_records_app tr1 tr2 :
  terminal_records (tr1 ++ tr2) = (terminal_records tr1 ++ terminal_records tr2)%list.
Proof. unfold terminal_records. rewrite records_app. apply filter_app. Qed.

Lemma attempts_app tr1 tr2 : attempts (tr1 ++ tr2) = (attempts tr1 + attempts tr2)%nat.
Proof. unfold attempts. rewrite records_app, filter_app. apply length_app. Qed.

Lemma offer_posts_app tr1 tr2 :
  offer_posts (tr1 ++ tr2) = (offer_posts tr1 ++ offer_posts tr2)%list.
Proof. apply filter_app. Qed.

Lemma token_posts_app tr1 tr2 :
  token_posts (tr1 ++ tr2) = (token_posts tr1 + token_posts tr2)%nat.
Proof. unfold token_posts. rewrite filter_app. apply length_app. Qed.

(** A stretch of trace made of token traffic shows nothing of the job. *)
Lemma token_obs_silent evs :
  forallb is_token_obs evs = true ->
  sleeps evs = [] /\ offer_posts evs = [] /\ offer_records evs = [] /\
  attempts evs = 0%nat /\ terminal_records evs = [].
Proof.
  induction evs as [| o evs IH]; simpl; intros H.
  - repeat split; reflexivity.
  - apply andb_prop in H. destruct H as [Ho H].
    destruct (IH H) as (S1 & S2 & S3 & S4 & S5).
    destruct o as [ | | | r | ]; try discriminate Ho.
    + repeat split; assumption.
    + destruct r; try discriminate Ho. repeat split; assumption.
Qed.

(** Token traffic is all that [timeline] drops. *)
Lemma timeline_app tr1 tr2 : timeline (tr1 ++ tr2) = (timeline tr1 ++ timeline tr2)%list.
Proof. apply filter_app. Qed.

Lemma timeline_token_obs toks : forallb is_token_obs toks = true -> timeline toks = [].
Proof.
  induction toks as [| o toks IH]; simpl; intros H; [reflexivity |].
  apply andb_prop in H. destruct H as [Ho H]. unfold timeline. simpl.
  rewrite Ho. simpl. apply IH. exact H.
Qed.

Lemma timeline_map_Slept l : timeline (map Slept l) = map Slept l.
Proof. induction l as [| s l IH]; simpl; [reflexivity |]. unfold timeline in *. simpl. rewrite IH. reflexivity. Qed.

Lemma timeline_shows tr :
  sleeps (timeline tr) = sleeps tr /\
  offer_posts (timeline tr) = offer_posts tr /\
  offer_records (timeline tr) = offer_records tr /\
  attempts (timeline tr) = attempts tr.
Proof.
  unfold timeline, offer_posts, offer_records, attempts.
  induction tr as [| o tr (S1 & S2 & S3 & S4)]; simpl; [repeat split; reflexivity |].
  destruct o as [ | | | r | ]; simpl; rewrite ?S1, ?S2, ?S3, ?S4;
    try (repeat split; reflexivity).
  destruct r; simpl; rewrite ?S1, ?S2, ?S3, ?S4; repeat split; reflexivity.
Qed.

(** An int that converts is converted to the nearest double. *)
Lemma float_of_int_inr n x : float_of_int n = inr x -> x = nearest n.
Proof.
  unfold float_of_int. destruct (nearest n); intros H; inversion H; reflexivity.
Qed.

(** What is granted is a number of seconds that converts. *)
Lemma granted_converts int_of_str answer v n :
  granted int_of_str answer = Some (v, n) -> float_of_int n = inr (nearest n).
Proof.
  unfold granted. intros H.
  destruct answer as [e | r]; [discriminate |].
  destruct (status r =? 200); [| discriminate].
  destruct (json_body r) as [e | body]; [discriminate |].
  destruct (subscript body "access_token") as [e | v']; [discriminate |].
  destruct (subscript body "expires_in") as [e | x]; [discriminate |].
  destruct (py_int int_of_str x) as [e | n']; [discriminate |].
  destruct (float_of_int n') as [e | s] eqn:Hs; [discriminate |].
  injection H as _ <-. rewrite (float_of_int_inr _ _ Hs) in Hs. exact Hs.
Qed.

(* ================================================================== *)
(** ** [get_token] *)
(* ================================================================== *)

Ltac unfold_prog :=
  unfold bindM, try_except, try_except_class, perform, await, lift, ret, raise.

Ltac case_step :=
  match goal with
  | |- context [truthy ?v] => destruct (truthy v) eqn:?
  | |- context [float_lt ?a ?b] => destruct (float_lt a b) eqn:?
  | |- context [token_endpoint ?en ?i ?a ?b] => destruct (token_endpoint en i a b) eqn:?
  | |- context [(status ?r =? ?n)%Z] => destruct (status r =? n)%Z eqn:?
  | |- context [json_body ?r] => destruct (json_body r) eqn:?
  | |- context [text ?r] => destruct (text r) eqn:?
  | |- context [subscript ?v ?k] => destruct (subscript v k) eqn:?
  | |- context [py_int ?f ?v] => destruct (py_int f v) eqn:?
  | |- context [float_of_int ?n] => destruct (float_of_int n) eqn:?
  end; simpl.

Section TokenFacts.

Variable int_of_str : string -> option Z.
Variable tm : TokenManager.

(** A valid cached token is returned at once; only the clock is read. *)
Lemma get_token_hit en w :
  cache_valid w (clock en (ticks w)) = true ->
  run (get_token int_of_str tm) en w = (inr (access_token w), tick w).
Proof.
  unfold cache_valid. intros H. apply andb_prop in H. destruct H as [Ht Hq].
  unfold get_token. unfold_prog. simpl. rewrite Ht. simpl. rewrite Hq. simpl.
  reflexivity.
Qed.

(** Whatever happens, [get_token] adds token traffic only to the trace. *)
Lemma get_token_frame en w :
  exists evs,
    trace (snd (run (get_token int_of_str tm) en w)) = (trace w ++ evs)%list /\
    forallb is_token_obs evs = true.
Proof.
  unfold get_token. unfold_prog. simpl.
  repeat case_step;
    try (exists []; simpl; rewrite app_nil_r; split; reflexivity);
    try (eexists; split; [rewrite <- ?app_assoc; reflexivity | reflexivity]).
Qed.

(** A miss followed by a good answer: both fields are replaced, and the
    new token is returned. *)
Lemma get_token_refresh en w v n :
  cache_valid w (clock en (ticks w)) = false ->
  granted int_of_str
    (token_endpoint en (token_posts (trace w)) (client_id tm) (client_secret tm))
    = Some (v, n) ->
  run (get_token int_of_str tm) en w =
  (inr v,
   {| access_token := v;
      token_expires_at := float_add (clock en (ticks (checked w))) (nearest n);
      ticks := S (ticks (checked w));
      trace := (trace w ++ [TokenPosted (client_id tm) (client_secret tm)])%list |}).
Proof.
  unfold cache_valid, granted, checked. intros Hc Hg.
  unfold get_token. unfold_prog. simpl.
  destruct (truthy (access_token w)) eqn:Ht; simpl in *.
  - rewrite Hc. simpl.
    destruct (token_endpoint en _ _ _) as [e | r]; [discriminate |]. simpl.
    destruct (status r =? 200); [| discriminate]. simpl.
    destruct (json_body r) as [e | body]; [discriminate |]. simpl.
    destruct (subscript body "access_token") as [e | v']; [discriminate |]. simpl.
    destruct (subscript body "expires_in") as [e | x]; [discriminate |]. simpl.
    destruct (py_int int_of_str x) as [e | n']; [discriminate |]. simpl.
    destruct (float_of_int n') as [e | s] eqn:Hs; [discriminate |]. simpl.
    apply float_of_int_inr in Hs. injection Hg as -> ->. subst s. reflexivity.
  - destruct (token_endpoint en _ _ _) as [e | r]; [discriminate |]. simpl.
    destruct (status r =? 200); [| discriminate]. simpl.
    destruct (json_body r) as [e | body]; [discriminate |]. simpl.
    destruct (subscript body "access_token") as [e | v']; [discriminate |]. simpl.
    destruct (subscript body "expires_in") as [e | x]; [discriminate |]. simpl.
    destruct (py_int int_of_str x) as [e | n']; [discriminate |]. simpl.
    destruct (float_of_int n') as [e | s] eqn:Hs; [discriminate |]. simpl.
    apply float_of_int_inr in Hs. injection Hg as -> ->. subst s. reflexivity.
Qed.

(** [get_token] posts to the token endpoint exactly when the cache does
    not hold a valid token. *)
Lemma get_token_posts en w :
  token_posts (trace (snd (run (get_token int_of_str tm) en w))) =
  (token_posts (trace w)
   + if cache_valid w (clock en (ticks w)) then 0 else 1)%nat.
Proof.
  unfold cache_valid, get_token. unfold_prog. simpl.
  repeat case_step; rewrite ?token_posts_app; unfold token_posts; simpl; lia.
Qed.

(** With a token endpoint that always grants, [get_token] returns. *)
Lemma get_token_served en w :
  token_service_ok int_of_str en ->
  exists tok, fst (run (get_token int_of_str tm) en w) = inr tok.
Proof.
  intros Hok.
  destruct (cache_valid w (clock en (ticks w))) eqn:Hc.
  - rewrite (get_token_hit en w Hc). eexists. reflexivity.
  - destruct (granted int_of_str
      (token_endpoint en (token_posts (trace w)) (client_id tm) (client_secret tm)))
      as [[v n] |] eqn:Hg.
    + rewrite (get_token_refresh en w v n Hc Hg). eexists. reflexivity.
    + exfalso. exact (Hok _ _ _ Hg).
Qed.

End TokenFacts.

(* ================================================================== *)
(** ** [create_offer] *)
(* ================================================================== *)

Section OfferFacts.

Variable int_of_str : string -> option Z.
Variable self : OfferCreator.

(** One pass of the loop, in terms of what [get_token] and the offer
    endpoint answer. *)
Lemma run_attempt offer_name payload max_retries rc en w :
  run (attempt int_of_str self offer_name payload max_retries rc) en w =
  let (g, w1) := run (get_token int_of_str (token_manager self)) en w in
  match g with
  | inl e => failed offer_name max_retries rc e w1
  | inr token =>
      let w2 := emit (OfferPosted (request_url self) token payload) w1 in
      match offer_endpoint en (post_index w1) (request_url self) token payload with
      | inl e => failed offer_name max_retries rc e w2
      | inr response =>
          if status response =? 202
          then (inr Return, emit (Logged (OfferCreated offer_name)) w2)
          else
            match text response with
            | inl e => failed offer_name max_retries rc e w2
            | inr error_text =>
                (inr Break,
                 emit (Logged (OfferRejected offer_name (status response) error_text)) w2)
            end
      end
  end.
Proof.
  unfold attempt. rewrite run_try_except, run_bindM.
  destruct (run (get_token int_of_str (token_manager self)) en w) as [[e | token] w1].
  - unfold failed. unfold_prog. simpl.
    destruct (rc + 1 <? max_retries); reflexivity.
  - unfold failed, request_url, post_index. unfold_prog. simpl.
    destruct (offer_endpoint en _ _ token payload) as [e | response]; simpl.
    + destruct (rc + 1 <? max_retries); reflexivity.
    + destruct (status response =? 202); simpl; [reflexivity |].
      destruct (text response) as [e | error_text]; simpl; [| reflexivity].
      destruct (rc + 1 <? max_retries); reflexivity.
Qed.

Lemma failed_fst offer_name max_retries rc e w :
  fst (failed offer_name max_retries rc e w) = inr (Continue (rc + 1)).
Proof. reflexivity. Qed.

Lemma failed_trace offer_name max_retries rc e w :
  trace (snd (failed offer_name max_retries rc e w)) =
  (trace w ++ Logged (OfferError offer_name (exn_str e))
           :: map Slept (backoff max_retries rc))%list.
Proof.
  unfold failed, backoff. simpl.
  destruct (rc + 1 <? max_retries); simpl; rewrite <- ?app_assoc; reflexivity.
Qed.

(** Every pass of the loop goes one of the four ways of [attempted]. *)
Lemma attempt_spec offer_name payload max_retries rc en w :
  exists c evs,
    fst (run (attempt int_of_str self offer_name payload max_retries rc) en w) = inr c /\
    trace (snd (run (attempt int_of_str self offer_name payload max_retries rc) en w))
      = (trace w ++ evs)%list /\
    attempted int_of_str self offer_name payload max_retries en rc w c evs.
Proof.
  rewrite run_attempt.
  destruct (get_token_frame int_of_str (token_manager self) en w) as (toks & Htr & Htok).
  destruct (run (get_token int_of_str (token_manager self)) en w) as [g w1] eqn:G.
  simpl in Htr.
  assert (Hidx : post_index w1 = post_index w).
  { unfold post_index. rewrite Htr, offer_posts_app.
    destruct (token_obs_silent toks Htok) as (_ & -> & _). rewrite app_nil_r. reflexivity. }
  rewrite Hidx. cbv zeta.
  destruct g as [e | token].
  - exists (Continue (rc + 1)). eexists. split; [apply failed_fst | split].
    + rewrite failed_trace, Htr, <- app_assoc. reflexivity.
    + apply attempted_no_token; [assumption | rewrite G; reflexivity].
  - destruct (offer_endpoint en (post_index w) (request_url self) token payload)
      as [e | r] eqn:A.
    + exists (Continue (rc + 1)). eexists. split; [apply failed_fst | split].
      * rewrite failed_trace. simpl. rewrite Htr, <- !app_assoc. reflexivity.
      * apply attempted_raised; [assumption | rewrite G; reflexivity | left; exact A].
    + destruct (status r =? 202) eqn:S.
      * exists Return. eexists. split; [reflexivity | split].
        -- simpl. rewrite Htr, <- !app_assoc. reflexivity.
        -- apply attempted_accepted with (r := r);
             [assumption | rewrite G; reflexivity | exact A | apply Z.eqb_eq; exact S].
      * apply Z.eqb_neq in S.
        destruct (text r) as [e | error_text] eqn:T.
        -- exists (Continue (rc + 1)). eexists. split; [apply failed_fst | split].
           ++ rewrite failed_trace. simpl. rewrite Htr, <- !app_assoc. reflexivity.
           ++ apply attempted_raised;
                [assumption | rewrite G; reflexivity | right; exists r; auto].
        -- exists Break. eexists. split; [reflexivity | split].
           ++ simpl. rewrite Htr, <- !app_assoc. reflexivity.
           ++ apply attempted_rejected with (r := r);
                [assumption | rewrite G; reflexivity | exact A | exact S | exact T].
Qed.

Lemma run_after_loop offer_name max_retries rc en w :
  run (after_loop offer_name max_retries rc) en w =
  (inr tt,
   if rc =? max_retries
   then emit (Logged (OfferExhausted offer_name max_retries)) w else w).
Proof. unfold after_loop. destruct (rc =? max_retries); reflexivity. Qed.

Lemma run_retry_loop offer_name payload max_retries variant rc en w :
  run (retry_loop int_of_str self offer_name payload max_retries (S variant) rc) en w =
  let (c, w') := run (attempt int_of_str self offer_name payload max_retries rc) en w in
  match c with
  | inl e => (inl e, w')
  | inr Return => (inr tt, w')
  | inr Break => run (after_loop offer_name max_retries rc) en w'
  | inr (Continue rc') =>
      run (retry_loop int_of_str self offer_name payload max_retries variant rc') en w'
  end.
Proof.
  simpl retry_loop. rewrite run_bindM.
  destruct (run (attempt int_of_str self offer_name payload max_retries rc) en w)
    as [[e | [ | | rc']] w']; reflexivity.
Qed.

End OfferFacts.

Section LoopFacts.

Variable int_of_str : string -> option Z.
Variable self : OfferCreator.
Variable offer_name : string.
Variable payload : json.
Variable max_retries : Z.
Variable en : env.

Lemma sleeps_map_Slept l : sleeps (map Slept l) = l.
Proof. induction l as [| s l IH]; simpl; [reflexivity | rewrite IH; reflexivity]. Qed.

Lemma records_map_Slept l : records (map Slept l) = [].
Proof. induction l as [| s l IH]; simpl; [reflexivity | exact IH]. Qed.

Lemma offer_posts_map_Slept l : offer_posts (map Slept l) = [].
Proof. induction l as [| s l IH]; simpl; [reflexivity | exact IH]. Qed.

(** What one pass shows in the trace. *)
Lemma attempted_summary rc w c evs :
  attempted int_of_str self offer_name payload max_retries en rc w c evs ->
  attempts evs = 1%nat /\
  match c with
  | Return =>
      sleeps evs = [] /\ offer_records evs = [OfferCreated offer_name] /\
      List.length (offer_posts evs) = 1%nat
  | Break =>
      sleeps evs = [] /\ List.length (offer_posts evs) = 1%nat /\
      exists st error_text,
        st <> 202 /\ offer_records evs = [OfferRejected offer_name st error_text]
  | Continue rc' =>
      rc' = rc + 1 /\ sleeps evs = backoff max_retries rc /\
      (List.length (offer_posts evs) <= 1)%nat /\
      exists msg, offer_records evs = [OfferError offer_name msg]
  end.
Proof.
  intros H. inversion H as [toks token r Ht G A S | toks token r txt Ht G A S T
                           | toks e Ht G | toks token e Ht G A]; subst;
    destruct (token_obs_silent toks Ht) as (S1 & S2 & S3 & S4 & S5);
    rewrite attempts_app, sleeps_app, offer_records_app, offer_posts_app, S1, S2, S3, S4;
    simpl.
  - unfold attempts, offer_records. simpl. repeat split; reflexivity.
  - unfold attempts, offer_records. simpl. repeat split; try reflexivity.
    exists (status r), txt. split; [assumption | reflexivity].
  - unfold attempts, offer_records. simpl.
    rewrite sleeps_map_Slept, records_map_Slept, offer_posts_map_Slept. simpl.
    repeat split; try reflexivity; try lia.
    eexists; reflexivity.
  - unfold attempts, offer_records. simpl.
    rewrite sleeps_map_Slept, records_map_Slept, offer_posts_map_Slept. simpl.
    repeat split; try reflexivity; try lia.
    eexists; reflexivity.
Qed.

Lemma attempts_offer_records evs :
  attempts evs = List.length (filter is_attempt_record (offer_records evs)).
Proof.
  unfold attempts, offer_records.
  induction (records evs) as [| r l IH]; simpl; [reflexivity |].
  destruct r; simpl; rewrite ?IH; reflexivity.
Qed.

(** The whole loop, whatever the surroundings answer: some failed
    passes, each leaving an [OfferError] record, then one last record. *)
Lemma retry_loop_spec variant :
  forall rc w,
    rc + Z.of_nat variant = max_retries ->
    exists evs msgs final,
      fst (run (retry_loop int_of_str self offer_name payload max_retries variant rc) en w)
        = inr tt /\
      trace (snd (run (retry_loop int_of_str self offer_name payload max_retries
                         variant rc) en w)) = (trace w ++ evs)%list /\
      offer_records evs = (map (OfferError offer_name) msgs ++ [final])%list /\
      sleeps evs = backoffs max_retries rc (List.length msgs) /\
      (List.length (offer_posts evs) <= attempts evs)%nat /\
      ((final = OfferExhausted offer_name max_retries /\ List.length msgs = variant) \/
       ((List.length msgs < variant)%nat /\
        exists i token r,
          offer_endpoint en i (request_url self) token payload = inr r /\
          ((final = OfferCreated offer_name /\ status r = 202 /\
            exists pre, evs = (pre ++ [Logged (OfferCreated offer_name)])%list) \/
           (exists error_text,
               final = OfferRejected offer_name (status r) error_text /\
               status r <> 202 /\ text r = inr error_text)))).
Proof.
  induction variant as [| v IH]; intros rc w Hrc.
  - simpl retry_loop. rewrite run_after_loop.
    replace (rc =? max_retries) with true by (symmetry; apply Z.eqb_eq; lia).
    exists [Logged (OfferExhausted offer_name max_retries)], [],
      (OfferExhausted offer_name max_retries).
    split; [reflexivity | split; [reflexivity | split; [reflexivity |]]].
    split; [reflexivity | split; [unfold attempts; simpl; lia |]].
    left. split; reflexivity.
  - assert (Hne : (rc =? max_retries) = false) by (apply Z.eqb_neq; lia).
    assert (Hrc' : rc + 1 + Z.of_nat v = max_retries) by lia.
    clear Hrc.
    rewrite run_retry_loop.
    destruct (attempt_spec int_of_str self offer_name payload max_retries rc en w)
      as (c & evs1 & Hc & Htr & Hat).
    destruct (run (attempt int_of_str self offer_name payload max_retries rc) en w)
      as [a w1]. simpl in Hc, Htr. subst a.
    pose proof (attempted_summary rc w c evs1 Hat) as [Hn Hsum].
    destruct c as [ | | rc'].
    + destruct Hsum as (Hs & Hr & Hp).
      exists evs1, [], (OfferCreated offer_name). simpl.
      split; [reflexivity | split; [exact Htr | split; [exact Hr | split; [exact Hs |]]]].
      split; [lia |].
      right. split; [lia |].
      inversion Hat as [toks token r Ht G A S | | |].
      exists (post_index w), token, r. split; [exact A | left].
      split; [reflexivity | split; [exact S |]].
      exists (toks ++ [OfferPosted (request_url self) token payload])%list.
      rewrite <- app_assoc. reflexivity.
    + destruct Hsum as (Hs & Hp & _).
      rewrite run_after_loop, Hne.
      inversion Hat as [| toks token r txt Ht G A S T | |].
      exists evs1, [], (OfferRejected offer_name (status r) txt). simpl.
      split; [reflexivity | split; [exact Htr | split; [| split; [exact Hs |]]]].
      * match goal with H : _ = evs1 |- _ => rewrite <- H end.
        destruct (token_obs_silent toks Ht) as (_ & _ & S3 & _).
        rewrite offer_records_app, S3. reflexivity.
      * split; [lia |].
        right. split; [lia |]. exists (post_index w), token, r. split; [exact A |].
        right. exists txt. auto.
    + destruct Hsum as (-> & Hs & Hp & msg & Hr).
      destruct (IH (rc + 1) w1 Hrc') as (evs2 & msgs & final & F & T & R & Sl & P & C).
      exists (evs1 ++ evs2)%list, (msg :: msgs), final.
      split; [exact F | split; [| split; [| split; [| split]]]].
      * rewrite T, Htr, app_assoc. reflexivity.
      * rewrite offer_records_app, Hr, R. reflexivity.
      * rewrite sleeps_app, Hs, Sl. reflexivity.
      * rewrite offer_posts_app, length_app, attempts_app. lia.
      * destruct C as [[C1 C2] | [C1 (i & tok & r & A & C2)]]; [left | right]; simpl.
        -- split; [exact C1 | lia].
        -- split; [lia |]. exists i, tok, r. split; [exact A |].
           destruct C2 as [(Cf & Cs & pre & Cp) | C2]; [left | right; exact C2].
           split; [exact Cf | split; [exact Cs |]].
           exists (evs1 ++ pre)%list. rewrite Cp, app_assoc. reflexivity.
Qed.

(** One pass on the timeline. *)
Lemma attempted_timeline rc w c evs :
  attempted int_of_str self offer_name payload max_retries en rc w c evs ->
  match c with
  | Return =>
      exists token r,
        offer_endpoint en (post_index w) (request_url self) token payload = inr r /\
        status r = 202 /\
        timeline evs = [OfferPosted (request_url self) token payload;
                        Logged (OfferCreated offer_name)]
  | Break =>
      exists token r error_text,
        offer_endpoint en (post_index w) (request_url self) token payload = inr r /\
        status r <> 202 /\
        timeline evs = [OfferPosted (request_url self) token payload;
                        Logged (OfferRejected offer_name (status r) error_text)]
  | Continue _ =>
      exists f,
        timeline evs = failed_pass (request_url self) offer_name payload max_retries rc f /\
        (fst f = None ->
         exists e, fst (run (get_token int_of_str (token_manager self)) en w) = inl e)
  end.
Proof.
  intros H. inversion H as [toks token r Ht G A S | toks token r txt Ht G A S T
                           | toks e Ht G | toks token e Ht G A]; subst;
    rewrite timeline_app, (timeline_token_obs toks Ht), app_nil_l.
  - exists token, r. split; [exact A | split; [exact S | reflexivity]].
  - exists token, r, txt. split; [exact A | split; [exact S | reflexivity]].
  - exists (None, exn_str e). split.
    + unfold failed_pass, timeline. simpl. f_equal. apply timeline_map_Slept.
    + intros _. exists e. exact G.
  - exists (Some token, exn_str e). split.
    + unfold failed_pass, timeline. simpl. do 2 f_equal. apply timeline_map_Slept.
    + intros D. discriminate D.
Qed.

(** The whole loop on the timeline: failed passes, each with its request
    (if it came to one), its error record and its sleep (if another pass
    follows), then the pass that ends the loop, or the exhaustion
    record. *)
Lemma retry_loop_timeline variant :
  forall rc w,
    rc + Z.of_nat variant = max_retries ->
    exists evs fs last,
      trace (snd (run (retry_loop int_of_str self offer_name payload max_retries
                         variant rc) en w)) = (trace w ++ evs)%list /\
      timeline evs =
        (failed_passes (request_url self) offer_name payload max_retries rc fs
           ++ last)%list /\
      Forall (fun f => fst f = None ->
                exists w' e,
                  fst (run (get_token int_of_str (token_manager self)) en w') = inl e) fs /\
      ((last = [Logged (OfferExhausted offer_name max_retries)] /\
        List.length fs = variant) \/
       ((List.length fs < variant)%nat /\
        exists i token r,
          offer_endpoint en i (request_url self) token payload = inr r /\
          ((status r = 202 /\
            last = [OfferPosted (request_url self) token payload;
                    Logged (OfferCreated offer_name)]) \/
           (exists error_text,
               status r <> 202 /\
               last = [OfferPosted (request_url self) token payload;
                       Logged (OfferRejected offer_name (status r) error_text)])))).
Proof.
  induction variant as [| v IH]; intros rc w Hrc.
  - simpl retry_loop. rewrite run_after_loop.
    replace (rc =? max_retries) with true by (symmetry; apply Z.eqb_eq; lia).
    exists [Logged (OfferExhausted offer_name max_retries)], [],
      [Logged (OfferExhausted offer_name max_retries)].
    split; [reflexivity | split; [reflexivity | split; [constructor |]]].
    left. split; reflexivity.
  - assert (Hne : (rc =? max_retries) = false) by (apply Z.eqb_neq; lia).
    assert (Hrc' : rc + 1 + Z.of_nat v = max_retries) by lia.
    clear Hrc.
    rewrite run_retry_loop.
    destruct (attempt_spec int_of_str self offer_name payload max_retries rc en w)
      as (c & evs1 & Hc & Htr & Hat).
    destruct (run (attempt int_of_str self offer_name payload max_retries rc) en w)
      as [a w1]. simpl in Hc, Htr. subst a.
    pose proof (attempted_timeline rc w c evs1 Hat) as Hline.
    pose proof (attempted_summary rc w c evs1 Hat) as [_ Hsum].
    destruct c as [ | | rc'].
    + destruct Hline as (token & r & A & S & Hl).
      exists evs1, [], [OfferPosted (request_url self) token payload;
                        Logged (OfferCreated offer_name)].
      split; [exact Htr | split; [exact Hl | split; [constructor |]]].
      right. split; [simpl; lia |]. exists (post_index w), token, r.
      split; [exact A | left]. split; [exact S | reflexivity].
    + destruct Hline as (token & r & txt & A & S & Hl).
      rewrite run_after_loop, Hne.
      exists evs1, [], [OfferPosted (request_url self) token payload;
                        Logged (OfferRejected offer_name (status r) txt)].
      split; [exact Htr | split; [exact Hl | split; [constructor |]]].
      right. split; [simpl; lia |]. exists (post_index w), token, r.
      split; [exact A | right]. exists txt. split; [exact S | reflexivity].
    + destruct Hsum as (-> & _).
      destruct Hline as (f & Hl & Hf).
      destruct (IH (rc + 1) w1 Hrc') as (evs2 & fs & last & T & L & F & C).
      exists (evs1 ++ evs2)%list, (f :: fs), last.
      split; [| split; [| split]].
      * rewrite T, Htr, app_assoc. reflexivity.
      * rewrite timeline_app, Hl, L. simpl. rewrite <- app_assoc. reflexivity.
      * constructor; [| exact F]. intros D. exists w. apply Hf. exact D.
      * destruct C as [[C1 C2] | [C1 C2]]; [left | right]; simpl.
        -- split; [exact C1 | lia].
        -- split; [lia | exact C2].
Qed.

(** What failed passes show. *)
Lemma offer_records_map_Slept l : offer_records (map Slept l) = [].
Proof. unfold offer_records. rewrite records_map_Slept. reflexivity. Qed.

Lemma failed_passes_shows fs :
  forall rc,
    offer_records (failed_passes (request_url self) offer_name payload max_retries rc fs)
      = map (fun f => OfferError offer_name (snd f)) fs /\
    sleeps (failed_passes (request_url self) offer_name payload max_retries rc fs)
      = backoffs max_retries rc (List.length fs) /\
    (List.length (offer_posts
       (failed_passes (request_url self) offer_name payload max_retries rc fs))
     <= List.length fs)%nat /\
    (Forall (fun f => fst f <> None) fs ->
     List.length (offer_posts
       (failed_passes (request_url self) offer_name payload max_retries rc fs))
     = List.length fs).
Proof.
  induction fs as [| [p m] fs IH]; intros rc.
  - simpl. repeat split; reflexivity || lia.
  - destruct (IH (rc + 1)) as (R & S & P & Q).
    cbn [failed_passes List.length map].
    set (rest := failed_passes _ _ _ _ _ fs) in *.
    unfold failed_pass. cbn [fst snd].
    assert (E : forall a b : list obs, forall r,
               ((a ++ Logged r :: b) ++ rest = a ++ [Logged r] ++ b ++ rest)%list).
    { intros a b r. rewrite <- app_assoc. reflexivity. }
    rewrite E.
    rewrite !offer_records_app, !sleeps_app, !offer_posts_app, !length_app.
    rewrite R, S, sleeps_map_Slept, offer_posts_map_Slept, offer_records_map_Slept.
    destruct p as [token |]; simpl.
    + split; [reflexivity | split; [reflexivity | split; [lia |]]].
      intros H. inversion H as [| x l Hp Hfs]; subst. rewrite (Q Hfs). reflexivity.
    + split; [reflexivity | split; [reflexivity | split; [lia |]]].
      intros H. inversion H as [| x l Hp Hfs]; subst. contradiction Hp. reflexivity.
Qed.

Lemma failed_passes_attempts fs rc :
  attempts (failed_passes (request_url self) offer_name payload max_retries rc fs)
    = List.length fs.
Proof.
  destruct (failed_passes_shows fs rc) as (R & _).
  rewrite attempts_offer_records, R. clear.
  induction fs as [| f fs IH]; simpl; [reflexivity | f_equal; exact IH].
Qed.

(** With a token at hand each time, every failed pass came to its
    request. *)
Lemma failed_passes_with_token fs :
  token_service_ok int_of_str en ->
  Forall (fun f : option json * string => fst f = None ->
            exists w' e,
              fst (run (get_token int_of_str (token_manager self)) en w') = inl e) fs ->
  Forall (fun f : option json * string => exists token, fst f = Some token) fs.
Proof.
  intros Hok H. induction H as [| [p m] fs Hf _ IH]; constructor; [| exact IH].
  destruct p as [t |]; [exists t; reflexivity | exfalso].
  destruct (Hf eq_refl) as (w' & e & He).
  destruct (get_token_served int_of_str (token_manager self) en w' Hok) as [t Ht].
  congruence.
Qed.

(** With a token in hand, a pass whose request raises is a failed pass
    with one request made. *)
Lemma attempt_when_raises rc w :
  token_service_ok int_of_str en ->
  raises_at en (post_index w) ->
  exists evs msg,
    fst (run (attempt int_of_str self offer_name payload max_retries rc) en w)
      = inr (Continue (rc + 1)) /\
    trace (snd (run (attempt int_of_str self offer_name payload max_retries rc) en w))
      = (trace w ++ evs)%list /\
    offer_records evs = [OfferError offer_name msg] /\
    sleeps evs = backoff max_retries rc /\
    List.length (offer_posts evs) = 1%nat /\
    attempts evs = 1%nat.
Proof.
  intros Hok Hr.
  destruct (attempt_spec int_of_str self offer_name payload max_retries rc en w)
    as (c & evs & Hc & Htr & Hat).
  destruct (get_token_served int_of_str (token_manager self) en w Hok) as [tok Htok].
  inversion Hat as [toks token r Ht G A S | toks token r txt Ht G A S T
                   | toks e Ht G | toks token e Ht G A].
  - destruct (Hr (request_url self) token payload) as [e He]. congruence.
  - destruct (Hr (request_url self) token payload) as [e He]. congruence.
  - congruence.
  - exists evs, (exn_str e). subst c evs.
    destruct (token_obs_silent toks Ht) as (S1 & S2 & S3 & S4 & S5).
    split; [exact Hc | split; [exact Htr |]].
    rewrite offer_records_app, sleeps_app, offer_posts_app, attempts_app, S1, S2, S3, S4.
    unfold offer_records, attempts. simpl.
    rewrite sleeps_map_Slept, records_map_Slept, offer_posts_map_Slept.
    repeat split; reflexivity.
Qed.

(** With a token in hand, a pass whose request is answered 202 returns,
    and the success record is the last thing the job does. *)
Lemma attempt_when_accepted rc w :
  token_service_ok int_of_str en ->
  accepts_at en (post_index w) ->
  exists toks token,
    forallb is_token_obs toks = true /\
    fst (run (attempt int_of_str self offer_name payload max_retries rc) en w)
      = inr Return /\
    trace (snd (run (attempt int_of_str self offer_name payload max_retries rc) en w))
      = (trace w ++ toks ++ [OfferPosted (request_url self) token payload;
                             Logged (OfferCreated offer_name)])%list.
Proof.
  intros Hok Ha.
  destruct (attempt_spec int_of_str self offer_name payload max_retries rc en w)
    as (c & evs & Hc & Htr & Hat).
  destruct (get_token_served int_of_str (token_manager self) en w Hok) as [tok Htok].
  inversion Hat as [toks token r Ht G A S | toks token r txt Ht G A S T
                   | toks e Ht G | toks token e Ht G A].
  - exists toks, token. subst c evs. auto.
  - destruct (Ha (request_url self) token payload) as (r' & Hr' & S'). congruence.
  - congruence.
  - destruct (Ha (request_url self) token payload) as (r' & Hr' & S').
    destruct A as [A | (r'' & A & S'' & _)]; congruence.
Qed.

(** With a token in hand, a pass whose request is answered with another
    status leaves by the [break]. *)
Lemma attempt_when_rejected rc w st error_text :
  token_service_ok int_of_str en ->
  rejects_at en (post_index w) st error_text ->
  exists toks token,
    forallb is_token_obs toks = true /\
    fst (run (attempt int_of_str self offer_name payload max_retries rc) en w)
      = inr Break /\
    trace (snd (run (attempt int_of_str self offer_name payload max_retries rc) en w))
      = (trace w ++ toks ++ [OfferPosted (request_url self) token payload;
                             Logged (OfferRejected offer_name st error_text)])%list.
Proof.
  intros Hok [Hst Ha].
  destruct (attempt_spec int_of_str self offer_name payload max_retries rc en w)
    as (c & evs & Hc & Htr & Hat).
  destruct (get_token_served int_of_str (token_manager self) en w Hok) as [tok Htok].
  inversion Hat as [toks token r Ht G A S | toks token r txt Ht G A S T
                   | toks e Ht G | toks token e Ht G A].
  - destruct (Ha (request_url self) token payload) as (r' & Hr' & S' & T'). congruence.
  - destruct (Ha (request_url self) token payload) as (r' & Hr' & S' & T').
    exists toks, token. subst c evs.
    assert (r' = r) by congruence. subst r'.
    assert (txt = error_text) by congruence. subst txt st. auto.
  - congruence.
  - destruct (Ha (request_url self) token payload) as (r' & Hr' & S' & T').
    destruct A as [A | (r'' & A & S'' & T'')]; congruence.
Qed.

(** [k] passes whose requests all raise, with a token each time: the
    loop is then where [k] [continue]s take it. *)
Lemma retry_loop_prefix k :
  forall variant rc w,
    token_service_ok int_of_str en ->
    (forall j, (j < k)%nat -> raises_at en (post_index w + j)) ->
    exists wk evs msgs,
      run (retry_loop int_of_str self offer_name payload max_retries (k + variant) rc) en w
        = run (retry_loop int_of_str self offer_name payload max_retries variant
                 (rc + Z.of_nat k)) en wk /\
      trace wk = (trace w ++ evs)%list /\
      offer_records evs = map (OfferError offer_name) msgs /\
      List.length msgs = k /\
      sleeps evs = backoffs max_retries rc k /\
      List.length (offer_posts evs) = k /\
      attempts evs = k.
Proof.
  induction k as [| k IH]; intros variant rc w Hok Hr.
  - exists w, [], []. simpl. rewrite Z.add_0_r, app_nil_r. repeat split; reflexivity.
  - destruct (attempt_when_raises rc w Hok) as (evs1 & msg & Hc & Htr & R1 & S1 & P1 & A1).
    { rewrite <- (Nat.add_0_r (post_index w)). apply Hr. lia. }
    change (Datatypes.S k + variant)%nat with (Datatypes.S (k + variant)).
    rewrite run_retry_loop.
    destruct (run (attempt int_of_str self offer_name payload max_retries rc) en w)
      as [a w1]. simpl in Hc, Htr. subst a.
    destruct (IH variant (rc + 1) w1 Hok) as (wk & evs2 & msgs & E & T & R & L & Sl & P & A).
    { intros j Hj. unfold post_index. rewrite Htr, offer_posts_app, length_app, P1.
      replace (Datatypes.length (offer_posts (trace w)) + 1 + j)%nat
        with (post_index w + Datatypes.S j)%nat by (unfold post_index; lia).
      apply Hr. lia. }
    exists wk, (evs1 ++ evs2)%list, (msg :: msgs).
    split; [| split; [| split; [| split; [| split; [| split]]]]].
    + rewrite E. f_equal. f_equal. lia.
    + rewrite T, Htr, app_assoc. reflexivity.
    + rewrite offer_records_app, R1, R. reflexivity.
    + simpl. rewrite L. reflexivity.
    + rewrite sleeps_app, S1, Sl. reflexivity.
    + rewrite offer_posts_app, length_app, P1, P. reflexivity.
    + rewrite attempts_app, A1, A. reflexivity.
Qed.

End LoopFacts.

(* ================================================================== *)
(** ** The retrying requester *)
(* ================================================================== *)




Lemma decimal_service_ok en :
  (forall i cid cs, exists tok, token_endpoint en i cid cs = grant tok) ->
  token_service_ok decimal en.
Proof.
  intros H i cid cs. destruct (H i cid cs) as [tok ->]. simpl. discriminate.
Qed.

Section Requester.

Variable int_of_str : string -> option Z.

(** C1 (as amended): when every creation request raises, each failure is
    logged and counted: the job makes exactly three attempts and ends
    with the exhaustion record.  Its timeline is: first attempt (its
    request, if a token was obtained, then its error record), a sleep of
    2 seconds, second attempt, a sleep of 4 seconds, third attempt, the
    exhaustion record, with no sleep after the third attempt; with a
    token at hand each time there are exactly three requests, one per
    attempt.  A request answered with another status than 202 (body
    read) is not counted: the job ends there, after one attempt, without
    sleep and without exhaustion. *)
Theorem create_offer_exhausts_when_requests_raise self offer_number en w :
  let name := offer_name_of offer_number in
  let url := request_url self in
  let payload := get_offer_payload self name in
  let out := run (create_offer int_of_str self offer_number) en w in
  ((forall i, raises_at en i) ->
   fst out = inr tt /\
   exists evs m1 m2 m3 p1 p2 p3,
     trace (snd out) = (trace w ++ evs)%list /\
     timeline evs =
       (request url payload p1 ++ [Logged (OfferError name m1); Slept 2] ++
        request url payload p2 ++ [Logged (OfferError name m2); Slept 4] ++
        request url payload p3 ++ [Logged (OfferError name m3);
                                   Logged (OfferExhausted name 3)])%list /\
     offer_records evs =
       [OfferError name m1; OfferError name m2; OfferError name m3;
        OfferExhausted name 3] /\
     attempts evs = 3%nat /\
     sleeps evs = [2; 4] /\
     (List.length (offer_posts evs) <= 3)%nat /\
     (token_service_ok int_of_str en ->
      (exists t1 t2 t3, p1 = Some t1 /\ p2 = Some t2 /\ p3 = Some t3) /\
      List.length (offer_posts evs) = 3%nat)) /\
  (forall st error_text,
     token_service_ok int_of_str en ->
     rejects_at en (post_index w) st error_text ->
     fst out = inr tt /\
     exists evs token,
       trace (snd out) = (trace w ++ evs)%list /\
       timeline evs =
         [OfferPosted url token payload;
          Logged (OfferRejected name st error_text)] /\
       offer_records evs = [OfferRejected name st error_text] /\
       attempts evs = 1%nat /\
       sleeps evs = [] /\
       List.length (offer_posts evs) = 1%nat).
Proof.
  intros name url payload out. subst out url. unfold create_offer. fold name. fold payload.
  change (Z.to_nat (3 - 0)) with 3%nat.
  split.
  - intros Hr.
    destruct (retry_loop_spec int_of_str self name payload 3 en 3 0 w eq_refl)
      as (evs0 & msgs & final & F & _).
    split; [exact F |].
    destruct (retry_loop_timeline int_of_str self name payload 3 en 3 0 w eq_refl)
      as (evs & fs & last & T & L & Hfs & C).
    destruct C as [[-> Len] | [_ (i & tok & r & A & _)]].
    2:{ destruct (Hr i (request_url self) tok payload) as [e He]. congruence. }
    destruct fs as [| [p1 m1] [| [p2 m2] [| [p3 m3] [| f4 fs]]]]; try discriminate Len.
    exists evs, m1, m2, m3, p1, p2, p3.
    assert (L' : timeline evs =
       (request (request_url self) payload p1
          ++ [Logged (OfferError name m1); Slept 2] ++
        request (request_url self) payload p2
          ++ [Logged (OfferError name m2); Slept 4] ++
        request (request_url self) payload p3
          ++ [Logged (OfferError name m3); Logged (OfferExhausted name 3)])%list).
    { rewrite L. destruct p1, p2, p3; reflexivity. }
    destruct (timeline_shows evs) as (S1 & S2 & S3 & S4).
    split; [exact T | split; [exact L' |]].
    rewrite <- S1, <- S2, <- S3, <- S4, L'.
    split; [destruct p1, p2, p3; reflexivity |].
    split; [destruct p1, p2, p3; reflexivity |].
    split; [destruct p1, p2, p3; reflexivity |].
    split; [destruct p1, p2, p3; simpl; lia |].
    intros Hok.
    assert (Hsome : forall p m, In (p, m) [(p1, m1); (p2, m2); (p3, m3)] ->
                                exists t, p = Some t).
    { intros p m Hin. destruct p as [t |]; [exists t; reflexivity | exfalso].
      rewrite Forall_forall in Hfs.
      destruct (Hfs _ Hin eq_refl) as (w' & e & He).
      destruct (get_token_served int_of_str (token_manager self) en w' Hok) as [t Ht].
      congruence. }
    destruct (Hsome p1 m1) as [t1 ->]; [simpl; auto |].
    destruct (Hsome p2 m2) as [t2 ->]; [simpl; auto |].
    destruct (Hsome p3 m3) as [t3 ->]; [simpl; auto |].
    split; [exists t1, t2, t3; repeat split | reflexivity].
  - intros st error_text Hok Hrej.
    rewrite run_retry_loop.
    destruct (attempt_when_rejected int_of_str self name payload 3 en 0 w st error_text
                Hok Hrej) as (toks & tok & Ht & Hc & Htr).
    destruct (run (attempt int_of_str self name payload 3 0) en w) as [a w1].
    simpl in Hc, Htr. subst a. rewrite run_after_loop. simpl.
    split; [reflexivity |].
    eexists. exists tok. split; [exact Htr |].
    destruct (token_obs_silent toks Ht) as (S1 & S2 & S3 & S4 & S5).
    rewrite timeline_app, (timeline_token_obs toks Ht).
    rewrite offer_records_app, attempts_app, sleeps_app, offer_posts_app, S1, S2, S3, S4.
    repeat split; reflexivity.
Qed.


Lemma offer_record_in evs r :
  In r (records evs) -> is_offer_record r = true -> In r (offer_records evs).
Proof. intros H1 H2. unfold offer_records. apply filter_In. auto. Qed.

(** C6 (as amended): when the first [k] creation requests raise
    ([k] < 3, a token at hand each time) and the next one is answered
    202, the job succeeds after exactly [k + 1] attempts and as many
    requests, having slept 2 then 4 seconds after the failures only.
    Its timeline is [k] failed attempts (request, error record, sleep)
    and then the request that is accepted and the success record; for
    [k] = 2: request, error, sleep of 2, request, error, sleep of 4,
    request, success.  In every run, the success record, once written,
    is the last thing the job does: no further attempt, request or sleep
    follows it. *)
Theorem create_offer_succeeds_after_raises self offer_number en w :
  let name := offer_name_of offer_number in
  let url := request_url self in
  let payload := get_offer_payload self name in
  let out := run (create_offer int_of_str self offer_number) en w in
  (forall k,
      (k < 3)%nat ->
      token_service_ok int_of_str en ->
      (forall j, (j < k)%nat -> raises_at en (post_index w + j)) ->
      accepts_at en (post_index w + k) ->
      fst out = inr tt /\
      exists evs msgs,
        trace (snd out) = (trace w ++ evs ++ [Logged (OfferCreated name)])%list /\
        offer_records evs = map (OfferError name) msgs /\
        List.length msgs = k /\
        attempts (evs ++ [Logged (OfferCreated name)]) = Datatypes.S k /\
        List.length (offer_posts evs) = Datatypes.S k /\
        sleeps evs = firstn k [2; 4] /\
        (exists fs token,
            List.length fs = k /\
            Forall (fun f => exists t, fst f = Some t) fs /\
            timeline (evs ++ [Logged (OfferCreated name)]) =
              (failed_passes url name payload 3 0 fs ++
               [OfferPosted url token payload; Logged (OfferCreated name)])%list) /\
        (k = 2%nat ->
         exists t1 m1 t2 m2 t3,
           timeline (evs ++ [Logged (OfferCreated name)]) =
             [OfferPosted url t1 payload; Logged (OfferError name m1); Slept 2;
              OfferPosted url t2 payload; Logged (OfferError name m2); Slept 4;
              OfferPosted url t3 payload; Logged (OfferCreated name)])) /\
  (exists evs,
      trace (snd out) = (trace w ++ evs)%list /\
      (In (OfferCreated name) (records evs) ->
       exists pre, evs = (pre ++ [Logged (OfferCreated name)])%list)).
Proof.
  intros name url payload out. subst out url. unfold create_offer. fold name. fold payload.
  change (Z.to_nat (3 - 0)) with 3%nat.
  split.
  - intros k Hk Hok Hr Ha.
    destruct (retry_loop_timeline int_of_str self name payload 3 en 3 0 w eq_refl)
      as (evs' & fs & last & T' & L' & F' & C').
    destruct (retry_loop_prefix int_of_str self name payload 3 en k (3 - k) 0 w Hok Hr)
      as (wk & evs & msgs & E & T & R & L & Sl & P & At).
    replace (k + (3 - k))%nat with 3%nat in E by lia.
    rewrite E in T' |- *.
    destruct (3 - k)%nat as [| v] eqn:Hv; [lia |].
    rewrite run_retry_loop in T' |- *.
    assert (Hidx : post_index wk = (post_index w + k)%nat).
    { unfold post_index. rewrite T, offer_posts_app, length_app, P. reflexivity. }
    destruct (attempt_when_accepted int_of_str self name payload 3 en (0 + Z.of_nat k) wk Hok)
      as (toks & tok & Ht & Hc & Htr).
    { rewrite Hidx. exact Ha. }
    destruct (run (attempt int_of_str self name payload 3 (0 + Z.of_nat k)) en wk)
      as [a w1]. simpl in Hc, Htr. subst a. simpl in T' |- *.
    split; [reflexivity |].
    destruct (token_obs_silent toks Ht) as (S1 & S2 & S3 & S4 & S5).
    set (evs0 := (evs ++ toks ++ [OfferPosted (request_url self) tok payload])%list).
    assert (Htrace : trace w1 = (trace w ++ evs0 ++ [Logged (OfferCreated name)])%list).
    { subst evs0. rewrite Htr, T, <- !app_assoc. reflexivity. }
    assert (Hatt : attempts (evs0 ++ [Logged (OfferCreated name)]) = Datatypes.S k).
    { subst evs0. rewrite !attempts_app, At, S4. unfold attempts. simpl. lia. }
    assert (Hline : exists fs token,
               List.length fs = k /\
               Forall (fun f : option json * string => exists t, fst f = Some t) fs /\
               timeline (evs0 ++ [Logged (OfferCreated name)]) =
               (failed_passes (request_url self) name payload 3 0 fs ++
                [OfferPosted (request_url self) token payload;
                 Logged (OfferCreated name)])%list).
    { rewrite Htrace in T'. apply app_inv_head in T'. subst evs'.
      pose proof (failed_passes_with_token int_of_str self en fs Hok F') as Hsome.
      destruct C' as [[-> _] | [_ (i & token & r & A & [(S & ->) | (txt & S & ->)])]].
      - exfalso. rewrite timeline_app in L'. apply app_inj_tail in L'.
        destruct L' as [_ L']. discriminate L'.
      - exists fs, token. split; [| split; [exact Hsome | exact L']].
        destruct (timeline_shows (evs0 ++ [Logged (OfferCreated name)]))
          as (_ & _ & _ & Q4).
        rewrite L', attempts_app, failed_passes_attempts, Hatt in Q4.
        unfold attempts in Q4. simpl in Q4. lia.
      - exfalso. rewrite timeline_app in L'.
        change [OfferPosted (request_url self) token payload;
                Logged (OfferRejected name (status r) txt)]
          with ([OfferPosted (request_url self) token payload]
                  ++ [Logged (OfferRejected name (status r) txt)])%list in L'.
        rewrite app_assoc in L'. apply app_inj_tail in L'.
        destruct L' as [_ L']. discriminate L'. }
    exists evs0, msgs.
    split; [exact Htrace | split; [| split; [exact L | split; [exact Hatt | split; [| split; [| split]]]]]].
    + subst evs0. rewrite !offer_records_app, R, S3. unfold offer_records. simpl.
      rewrite app_nil_r. reflexivity.
    + subst evs0. rewrite !offer_posts_app, !length_app, P, S2. simpl. lia.
    + subst evs0. rewrite !sleeps_app, Sl, S1. simpl. rewrite app_nil_r.
      destruct k as [| [| [| k]]]; try lia; reflexivity.
    + exact Hline.
    + intros ->. destruct Hline as (fs0 & token & Len & Hsome & Hl).
      destruct fs0 as [| [p1 m1] [| [p2 m2] [| f3 fs0]]]; try discriminate Len.
      inversion Hsome as [| f l [t1 H1] Hsome']; subst.
      inversion Hsome' as [| f l [t2 H2] _]; subst.
      simpl in H1, H2. subst p1 p2.
      exists t1, m1, t2, m2, token. rewrite Hl. reflexivity.
  - destruct (retry_loop_spec int_of_str self name payload 3 en 3 0 w eq_refl)
      as (evs & msgs & final & F & T & R & Sl & P & C).
    exists evs. split; [exact T |]. intros Hin.
    apply offer_record_in in Hin; [| reflexivity].
    rewrite R in Hin. apply in_app_or in Hin.
    assert (Hmsgs : ~ In (OfferCreated name) (map (OfferError name) msgs)).
    { intros H. apply in_map_iff in H. destruct H as (m & Hm & _). discriminate Hm. }
    destruct Hin as [Hin | [Hin | []]]; [contradiction |].
    destruct C as [[-> _] | [_ (i & tok & r & _ & [(_ & _ & pre & Hpre) | (txt & -> & _)])]].
    + discriminate Hin.
    + exists pre. exact Hpre.
    + discriminate Hin.
Qed.

End Requester.

(** C1, as stated, fails: against an endpoint that answers 500 to every
    request the job makes one attempt, never sleeps and never reports
    exhaustion. *)
Lemma create_offer_status_500_not_retried :
  (forall i url token payload,
      exists r, offer_endpoint env_500 i url token payload = inr r /\ status r <> 202) /\
  let tr := trace (snd (run (create_offer decimal creator0 7) env_500 init_world)) in
  attempts tr = 1%nat /\ sleeps tr = [] /\
  offer_records tr =
    [OfferRejected "dynamic_offer_1000_workers_7" 500 "Internal Server Error"] /\
  ~ (attempts tr = 3%nat /\ sleeps tr = [2; 4] /\
     In (OfferExhausted "dynamic_offer_1000_workers_7" 3) (records tr)).
Proof.
  split.
  - intros i url token payload. eexists. split; [reflexivity | discriminate].
  - vm_compute. repeat split; try reflexivity. intros [H _]. discriminate H.
Qed.

Lemma create_offer_exhausts_when_requests_raise_witness :
  (let name := offer_name_of 7 in
   let url := request_url creator0 in
   let payload := get_offer_payload creator0 name in
   let out := run (create_offer decimal creator0 7) env_timeout init_world in
   fst out = inr tt /\
   exists evs m1 m2 m3 p1 p2 p3,
     trace (snd out) = (trace init_world ++ evs)%list /\
     timeline evs =
       (request url payload p1 ++ [Logged (OfferError name m1); Slept 2] ++
        request url payload p2 ++ [Logged (OfferError name m2); Slept 4] ++
        request url payload p3 ++ [Logged (OfferError name m3);
                                   Logged (OfferExhausted name 3)])%list /\
     offer_records evs =
       [OfferError name m1; OfferError name m2; OfferError name m3;
        OfferExhausted name 3] /\
     attempts evs = 3%nat /\
     sleeps evs = [2; 4] /\
     (List.length (offer_posts evs) <= 3)%nat /\
     (token_service_ok decimal env_timeout ->
      (exists t1 t2 t3, p1 = Some t1 /\ p2 = Some t2 /\ p3 = Some t3) /\
      List.length (offer_posts evs) = 3%nat)) /\
  (let name := offer_name_of 7 in
   let url := request_url creator0 in
   let payload := get_offer_payload creator0 name in
   let out := run (create_offer decimal creator0 7) env_500 init_world in
   fst out = inr tt /\
   exists evs token,
     trace (snd out) = (trace init_world ++ evs)%list /\
     timeline evs =
       [OfferPosted url token payload;
        Logged (OfferRejected name 500 "Internal Server Error")] /\
     offer_records evs = [OfferRejected name 500 "Internal Server Error"] /\
     attempts evs = 1%nat /\
     sleeps evs = [] /\
     List.length (offer_posts evs) = 1%nat).
Proof.
  split.
  - apply (proj1 (create_offer_exhausts_when_requests_raise
                    decimal creator0 7 env_timeout init_world)).
    intros i url token payload. eexists. reflexivity.
  - apply (proj2 (create_offer_exhausts_when_requests_raise
                    decimal creator0 7 env_500 init_world)).
    + apply decimal_service_ok. intros i cid cs. exists "tok". reflexivity.
    + split; [discriminate |].
      intros url token payload. eexists. repeat split; reflexivity.
Defined.


(** C6, as stated, fails: when the first two requests fail with status 500
    and the third would be accepted, the job stops after the first
    attempt and never succeeds. *)
Lemma create_offer_500_500_202_not_succeeded :
  (forall url token payload,
      offer_endpoint env_500_500_202 0 url token payload = answer 500 "Internal Server Error" /\
      offer_endpoint env_500_500_202 1 url token payload = answer 500 "Internal Server Error" /\
      offer_endpoint env_500_500_202 2 url token payload = answer 202 "") /\
  let tr := trace (snd (run (create_offer decimal creator0 7) env_500_500_202 init_world)) in
  attempts tr = 1%nat /\
  List.length (offer_posts tr) = 1%nat /\
  ~ In (OfferCreated "dynamic_offer_1000_workers_7") (records tr).
Proof.
  split.
  - intros url token payload. repeat split; reflexivity.
  - vm_compute. repeat split. intros [H | []]. discriminate H.
Qed.

Lemma create_offer_succeeds_after_raises_witness :
  let name := offer_name_of 7 in
  let url := request_url creator0 in
  let payload := get_offer_payload creator0 name in
  let out := run (create_offer decimal creator0 7) env_timeout_timeout_202 init_world in
  fst out = inr tt /\
  exists evs msgs,
    trace (snd out) = (trace init_world ++ evs ++ [Logged (OfferCreated name)])%list /\
    offer_records evs = map (OfferError name) msgs /\
    List.length msgs = 2%nat /\
    attempts (evs ++ [Logged (OfferCreated name)]) = 3%nat /\
    List.length (offer_posts evs) = 3%nat /\
    sleeps evs = firstn 2 [2; 4] /\
    (exists fs token,
        List.length fs = 2%nat /\
        Forall (fun f => exists t, fst f = Some t) fs /\
        timeline (evs ++ [Logged (OfferCreated name)]) =
          (failed_passes url name payload 3 0 fs ++
           [OfferPosted url token payload; Logged (OfferCreated name)])%list) /\
    (2%nat = 2%nat ->
     exists t1 m1 t2 m2 t3,
       timeline (evs ++ [Logged (OfferCreated name)]) =
         [OfferPosted url t1 payload; Logged (OfferError name m1); Slept 2;
          OfferPosted url t2 payload; Logged (OfferError name m2); Slept 4;
          OfferPosted url t3 payload; Logged (OfferCreated name)]).
Proof.
  apply (proj1 (create_offer_succeeds_after_raises decimal creator0 7
                  env_timeout_timeout_202 init_world) 2%nat).
  - lia.
  - apply decimal_service_ok. intros i cid cs. exists "tok". reflexivity.
  - intros j Hj url token payload.
    destruct j as [| [| j]]; [eexists; reflexivity | eexists; reflexivity | lia].
  - intros url token payload. eexists. split; reflexivity.
Defined.

(* ================================================================== *)
(** ** The token cache *)
(* ================================================================== *)

Section Cache.

Variable int_of_str : string -> option Z.
Variable tm : TokenManager.

(** When [get_token] raises, the cached fields are as they were, except
    for a 200 answer whose body has [access_token] but no usable
    [expires_in]: the token has then been stored alone. *)
Lemma get_token_failure_cases en w e :
  fst (run (get_token int_of_str tm) en w) = inl e ->
  let w' := snd (run (get_token int_of_str tm) en w) in
  (access_token w' = access_token w /\ token_expires_at w' = token_expires_at w) \/
  (exists r body v,
      token_endpoint en (token_posts (trace w)) (client_id tm) (client_secret tm) = inr r /\
      status r = 200 /\ json_body r = inr body /\
      subscript body "access_token" = inr v /\
      granted int_of_str (inr r) = None /\
      access_token w' = v /\ token_expires_at w' = token_expires_at w).
Proof.
  assert (Hafter : forall r body v,
             status r = 200 -> json_body r = inr body ->
             subscript body "access_token" = inr v ->
             granted int_of_str (inr r) =
             match subscript body "expires_in" with
             | inr x => match py_int int_of_str x with
                        | inr n => match float_of_int n with
                                   | inr _ => Some (v, n)
                                   | inl _ => None
                                   end
                        | inl _ => None
                        end
             | inl _ => None
             end).
  { intros r body v S J V. unfold granted. rewrite S, J, V. reflexivity. }
  unfold get_token. unfold_prog. simpl.
  destruct (truthy (access_token w)) eqn:Ht; simpl;
    [destruct (float_lt (clock en (ticks w))
                 (float_sub (token_expires_at w) (nearest 300))) eqn:Hq;
       simpl; [discriminate |] |].
  all: destruct (token_endpoint en _ _ _) as [e' | r] eqn:A; simpl; [left; auto |].
  all: destruct (status r =? 200) eqn:S; simpl;
    [apply Z.eqb_eq in S | destruct (text r); simpl; left; auto].
  all: destruct (json_body r) as [e' | body] eqn:J; simpl; [left; auto |].
  all: destruct (subscript body "access_token") as [e' | v] eqn:V; simpl; [left; auto |].
  all: pose proof (Hafter r body v S J V) as G.
  all: destruct (subscript body "expires_in") as [e' | x] eqn:X; simpl;
    [intros _; right; exists r, body, v; auto 10 |].
  all: destruct (py_int int_of_str x) as [e' | n] eqn:N; simpl;
    [intros _; right; exists r, body, v; auto 10 |].
  all: destruct (float_of_int n) as [e' | s] eqn:Fl; simpl; [| discriminate].
  all: intros _; right; exists r, body, v; auto 10.
Qed.

(** C5 (as amended): a token granted with [expires_in = T], an int a
    float can hold, is stored at [issueTime] with the expiry
    [issueTime + T] rounded to a double; every later call made at a time
    [now] for which the test of the code holds, [now < expiry - 300]
    with the difference rounded again, returns that token without any
    request; and a call posts to the token endpoint exactly when no
    token is cached or that test fails.  (A granted token is a non-empty
    value.) *)
Theorem get_token_cache_hit en w v T :
  cache_valid w (clock en (ticks w)) = false ->
  granted int_of_str
    (token_endpoint en (token_posts (trace w)) (client_id tm) (client_secret tm))
    = Some (v, T) ->
  truthy v = true ->
  let issueTime := clock en (ticks (checked w)) in
  let expiry := float_add issueTime (nearest T) in
  let out := run (get_token int_of_str tm) en w in
  fst out = inr v /\
  access_token (snd out) = v /\
  token_expires_at (snd out) = expiry /\
  float_of_int T = inr (nearest T) /\
  (forall en' w2,
      access_token w2 = access_token (snd out) ->
      token_expires_at w2 = token_expires_at (snd out) ->
      float_lt (clock en' (ticks w2)) (float_sub expiry (nearest 300)) = true ->
      run (get_token int_of_str tm) en' w2 = (inr v, tick w2) /\
      trace (snd (run (get_token int_of_str tm) en' w2)) = trace w2) /\
  (forall en' w2,
      token_posts (trace (snd (run (get_token int_of_str tm) en' w2))) =
      (token_posts (trace w2)
       + if cache_valid w2 (clock en' (ticks w2)) then 0 else 1)%nat).
Proof.
  intros Hmiss Hgrant Hv issueTime expiry out. subst out expiry issueTime.
  rewrite (get_token_refresh int_of_str tm en w v T Hmiss Hgrant).
  cbn [fst snd access_token token_expires_at].
  split; [reflexivity | split; [reflexivity | split; [reflexivity | split; [| split]]]].
  - apply (granted_converts int_of_str _ v T Hgrant).
  - intros en' w2 Htok Hexp Hnow.
    assert (Hc : cache_valid w2 (clock en' (ticks w2)) = true).
    { unfold cache_valid. rewrite Htok, Hv, Hexp. simpl. exact Hnow. }
    rewrite (get_token_hit int_of_str tm en' w2 Hc), Htok. split; reflexivity.
  - intros en' w2. apply get_token_posts.
Qed.

End Cache.

Lemma get_token_cache_hit_witness :
  let w1 := snd (run (get_token decimal tm0) env_500 init_world) in
  fst (run (get_token decimal tm0) env_500 init_world) = inr (JStr "tok") /\
  run (get_token decimal tm0) env_later w1 = (inr (JStr "tok"), tick w1) /\
  trace (snd (run (get_token decimal tm0) env_later w1)) = trace w1.
Proof.
  destruct (get_token_cache_hit decimal tm0 env_500 init_world (JStr "tok") 3600)
    as (A & _ & _ & _ & D & _); [reflexivity | reflexivity | reflexivity |].
  split; [exact A |].
  apply D; [reflexivity | reflexivity | vm_compute; reflexivity].
Defined.

(** C5, as stated, fails: the code adds and compares doubles.  A token
    granted for 3600 seconds is stored at [issueTime], the double next
    after 2147483000; the sum [issueTime + 3600] lies half way between
    two doubles and is rounded down.  A call made at [now] = 2147486300,
    which is before [issueTime + 3600 - 300], finds the test of the
    code false and posts a second exchange. *)
Lemma get_token_exchanges_again_before_expiry :
  let issueTime := clock env_2038 0 in
  let now := clock env_2038 1 in
  let first := run (get_token decimal tm0) env_2038 init_world in
  let second := run (get_token decimal tm0) env_2038 (snd first) in
  granted decimal (token_endpoint env_2038 0 (client_id tm0) (client_secret tm0))
    = Some (JStr "tok", 3600) /\
  fst first = inr (JStr "tok") /\
  token_posts (trace (snd first)) = 1%nat /\
  ticks (snd first) = 1%nat /\
  (exists i n,
      exact issueTime = Some i /\ exact now = Some n /\
      (n < i + inject_Z 3600 - inject_Z 300)%Q) /\
  cache_valid (snd first) now = false /\
  token_posts (trace (snd second)) = 2%nat.
Proof.
  vm_compute. repeat split.
  eexists. eexists. split; [reflexivity | split; [reflexivity | reflexivity]].
Qed.

(** C2 fails on a 200 answer whose body carries [access_token] without
    [expires_in]: [get_token] raises [KeyError] after it has stored the
    new token, and the expiry is the old one. *)
Theorem get_token_partial_update :
  let out := run (get_token decimal tm0) env_no_expiry init_world in
  fst out = inl (Raise KeyError "'expires_in'") /\
  access_token init_world = JNull /\
  access_token (snd out) = JStr "tok" /\
  token_expires_at (snd out) = token_expires_at init_world.
Proof. vm_compute. repeat split. Qed.

(* ================================================================== *)
(** ** What holds of every run *)
(* ================================================================== *)

Lemma sat_impl {R : Type} (PO PO' : obs -> Prop) (PR PR' : R -> Prop) (p : prog R) :
  (forall o, PO o -> PO' o) -> (forall r, PR r -> PR' r) ->
  sat PO PR p -> sat PO' PR' p.
Proof.
  intros HO HR H. induction H as [r Hr | X e k He Hk IH].
  - apply sat_ret. auto.
  - apply sat_vis; auto.
Qed.

Lemma sat_bind {A B : Type} (PO : obs -> Prop) (PA : A -> Prop) (PB : B -> Prop)
    (p : prog A) (f : A -> prog B) :
  sat PO PA p -> (forall a, PA a -> sat PO PB (f a)) -> sat PO PB (bind p f).
Proof.
  intros H Hf. induction H as [r Hr | X e k He Hk IH]; simpl.
  - apply Hf. exact Hr.
  - apply sat_vis; auto.
Qed.

Lemma handle_trace {X : Type} (e : event X) en w :
  trace (snd (handle e en w)) =
  (trace w ++ match observe e with Some o => [o] | None => [] end)%list.
Proof. destruct e; simpl; rewrite ?app_nil_r; reflexivity. Qed.

(** A property of the tree is a property of its sequential run. *)
Lemma run_sat {R : Type} (PO : obs -> Prop) (PR : R -> Prop) (p : prog R) en :
  sat PO PR p ->
  forall w,
    PR (fst (run p en w)) /\
    exists evs, trace (snd (run p en w)) = (trace w ++ evs)%list /\ Forall PO evs.
Proof.
  intros H. induction H as [r Hr | X e k He Hk IH]; intros w; simpl.
  - split; [exact Hr |]. exists []. rewrite app_nil_r. split; [reflexivity | constructor].
  - pose proof (handle_trace e en w) as Ht.
    destruct (handle e en w) as [x w1]. simpl in Ht.
    destruct (IH x w1) as [Hr (evs & Htr & Hevs)].
    split; [exact Hr |].
    destruct (observe e) as [o |] eqn:Ho.
    + exists (o :: evs). split.
      * rewrite Htr, Ht, <- app_assoc. reflexivity.
      * constructor; [apply He; reflexivity | exact Hevs].
    + exists evs. split; [| exact Hevs].
      rewrite Htr, Ht, app_nil_r. reflexivity.
Qed.

Ltac sat_step :=
  match goal with
  | |- sat _ _ (Ret _) => apply sat_ret
  | |- sat _ _ (Vis _ _) =>
      apply sat_vis;
      [ let o := fresh "o" in
        let Ho := fresh "Ho" in
        intros o Ho; simpl in Ho; try discriminate Ho;
        try (injection Ho as <-)
      | intros ? ]
  | |- sat _ _ (match ?x with _ => _ end) => destruct x eqn:?
  | |- sat _ _ (bind ?p _) =>
      match p with context [match ?x with _ => _ end] => destruct x eqn:? end
  end; simpl.

Section Trees.

Variable int_of_str : string -> option Z.

Lemma get_token_sat tm :
  sat (fun o => is_token_obs o = true) (fun _ => True) (get_token int_of_str tm).
Proof.
  unfold get_token. unfold_prog. simpl.
  repeat sat_step; auto.
Qed.

Variable self : OfferCreator.
Variable offer_name : string.
Variable payload : json.

Lemma token_obs_of_job o : is_token_obs o = true -> of_job (request_url self) offer_name payload o.
Proof.
  destruct o as [ | | | r | ]; simpl; try discriminate; auto.
  destruct r; simpl; try discriminate; auto.
Qed.

(** A pass of the loop never raises, and all it shows is about this
    job's offer and document. *)
Lemma attempt_sat max_retries rc :
  sat (of_job (request_url self) offer_name payload) (fun r => exists c, r = inr c)
    (attempt int_of_str self offer_name payload max_retries rc).
Proof.
  unfold attempt, try_except, bindM.
  apply sat_bind with (PA := fun _ => True).
  - apply sat_bind with (PA := fun _ => True).
    + apply sat_impl with (PO := fun o => is_token_obs o = true) (PR := fun _ => True);
        [apply token_obs_of_job | auto | apply get_token_sat].
    + intros [e | token] _; [apply sat_ret; exact I |].
      unfold_prog. unfold request_url. simpl.
      repeat sat_step; simpl; auto.
  - intros [e | c] _; [| apply sat_ret; eauto].
    unfold_prog. simpl.
    repeat sat_step; simpl; eauto.
Qed.

Lemma after_loop_sat max_retries rc :
  sat (of_job (request_url self) offer_name payload) (fun r => r = inr tt) (after_loop offer_name max_retries rc).
Proof.
  unfold after_loop. unfold_prog.
  destruct (rc =? max_retries); repeat sat_step; simpl; auto.
  destruct x. reflexivity.
Qed.

Lemma retry_loop_sat max_retries variant :
  forall rc,
    sat (of_job (request_url self) offer_name payload) (fun r => r = inr tt)
      (retry_loop int_of_str self offer_name payload max_retries variant rc).
Proof.
  induction variant as [| v IH]; intros rc; simpl retry_loop.
  - apply after_loop_sat.
  - unfold bindM. apply sat_bind with (PA := fun r => exists c, r = inr c).
    + apply attempt_sat.
    + intros a [c ->]. destruct c as [ | | rc'].
      * apply sat_ret. reflexivity.
      * apply after_loop_sat.
      * apply IH.
Qed.

End Trees.

Section Jobs.

Variable int_of_str : string -> option Z.

Lemma create_offer_sat self offer_number :
  sat (of_job (request_url self) (offer_name_of offer_number)
         (get_offer_payload self (offer_name_of offer_number)))
      (fun r => r = inr tt)
      (create_offer int_of_str self offer_number).
Proof. unfold create_offer. apply retry_loop_sat. Qed.

Lemma of_job_posts_document url name payload o :
  of_job url name payload o -> posts_document payload o.
Proof. destruct o; simpl; tauto. Qed.

(** C10: the name and the document of a job are fixed before its first
    attempt: every request the job sends, at whatever attempt and under
    whatever schedule, goes to the same address with the document of
    its offer number, and every record it writes names that offer. *)
Theorem create_offer_same_request_every_attempt self offer_number en w :
  let name := offer_name_of offer_number in
  let payload := get_offer_payload self name in
  sat (of_job (request_url self) name payload) (fun _ => True)
    (create_offer int_of_str self offer_number) /\
  exists evs,
    trace (snd (run (create_offer int_of_str self offer_number) en w))
      = (trace w ++ evs)%list /\
    Forall (of_job (request_url self) name payload) evs.
Proof.
  intros name payload. split.
  - apply sat_impl with (3 := create_offer_sat self offer_number); auto.
  - apply (run_sat _ _ _ en (create_offer_sat self offer_number) w).
Qed.

(** C9: the document of an offer is a function of its index alone: it
    does not depend on the creator object it is built through, nor on
    the world or the answers met by the job that sends it. *)
Theorem get_offer_payload_function_of_index self self' offer_number en w :
  get_offer_payload self (offer_name_of offer_number)
    = get_offer_payload self' (offer_name_of offer_number) /\
  exists evs,
    trace (snd (run (create_offer int_of_str self offer_number) en w))
      = (trace w ++ evs)%list /\
    Forall (posts_document (get_offer_payload self' (offer_name_of offer_number))) evs.
Proof.
  split; [reflexivity |].
  destruct (run_sat _ _ _ en (create_offer_sat self offer_number) w)
    as [_ (evs & Htr & Hevs)].
  exists evs. split; [exact Htr |].
  apply Forall_impl with (2 := Hevs).
  intros o Ho. apply of_job_posts_document in Ho. exact Ho.
Qed.

End Jobs.

(* ================================================================== *)
(** ** The dispatcher *)
(* ================================================================== *)

Lemma advance_sat {R : Type} (PO : obs -> Prop) (PR : R -> Prop) (p : prog R) en :
  sat PO PR p ->
  forall w,
    match fst (advance p en w) with
    | Done r => PR r
    | Suspended rest => sat PO PR rest
    end.
Proof.
  intros H. induction H as [r Hr | X e k He Hk IH]; intros w; simpl.
  - exact Hr.
  - destruct (handle e en w) as [x w1].
    destruct (suspends e); simpl; [apply Hk | apply IH].
Qed.

Lemma Forall_replace {A : Type} (P : A -> Prop) i x (l : list A) :
  Forall P l -> P x -> Forall P (replace i x l).
Proof.
  intros Hl Hx. revert i. induction Hl as [| y l Hy Hl IH]; intros i.
  - destruct i; constructor.
  - destruct i; simpl; constructor; auto.
Qed.

Section Pool.

Variable A : Type.
Variable en : env.

Lemma advance_never_raises (p : M A) w :
  sat (fun _ => True) (fun r => exists a, r = inr a) p ->
  never_raises (fst (advance p en w)).
Proof.
  intros H. pose proof (advance_sat _ _ p en H w) as Hs.
  destruct (fst (advance p en w)); exact Hs.
Qed.

Lemma start_never_raises (ps : list (M A)) :
  Forall (sat (fun _ => True) (fun r => exists a, r = inr a)) ps ->
  forall w, Forall never_raises (fst (start ps en w)).
Proof.
  intros H. induction H as [| p ps Hp Hps IH]; intros w.
  - constructor.
  - change (start (p :: ps) en w)
      with (let (t, w1) := advance p en w in
            let (ts, w2) := start ps en w1 in (t :: ts, w2)).
    pose proof (advance_never_raises p w Hp) as H1. unfold result in H1.
    destruct (advance p en w) as [t w1].
    pose proof (IH w1) as H2. unfold result in H2.
    destruct (start ps en w1) as [ts w2].
    constructor; [exact H1 | exact H2].
Qed.

Lemma resume_never_raises i (pool : list (task (result A))) w :
  Forall never_raises pool -> Forall never_raises (fst (resume i pool en w)).
Proof.
  intros H. unfold resume.
  destruct (nth_error pool i) as [[r | p] |] eqn:E; simpl; try exact H.
  assert (Hp : never_raises (Suspended p)).
  { rewrite Forall_forall in H. apply H. eapply nth_error_In. exact E. }
  pose proof (advance_never_raises p w Hp) as H1. unfold result in *.
  destruct (advance p en w) as [t w1]. cbn [fst] in *.
  apply Forall_replace; assumption.
Qed.

Lemma first_raised_none (pool : list (task (result A))) :
  Forall never_raises pool -> first_raised pool = None.
Proof.
  intros H. induction H as [| t pool Ht Hpool IH]; simpl; [reflexivity |].
  destruct t as [[e | a] | p]; try exact IH.
  destruct Ht as [a Ha]. discriminate Ha.
Qed.

(** If no task can raise, [gather] does not raise. *)
Lemma event_loop_never_raises order :
  forall (pool : list (task (result A))) w,
    Forall never_raises pool ->
    fst (event_loop order pool en w) = Returned \/
    fst (event_loop order pool en w) = Running.
Proof.
  induction order as [| i order IH]; intros pool w H; simpl;
    rewrite (first_raised_none pool H);
    destruct (forallb is_done pool); simpl; auto.
  pose proof (resume_never_raises i pool w H) as H1. unfold result in *.
  destruct (resume i pool en w) as [pool' w'].
  cbn [fst] in H1. apply IH. exact H1.
Qed.

End Pool.

(* ================================================================== *)
(** ** Every job comes to its end *)
(* ================================================================== *)

Lemma settles_mono {R : Type} d (p : prog R) :
  settles d p -> forall d', (d <= d')%nat -> settles d' p.
Proof.
  intros H. induction H as [d r | d X e k He Hk IH | d X e k He Hk IH]; intros d' Hd.
  - constructor.
  - apply settles_go; auto.
  - destruct d' as [| d']; [lia |]. apply settles_wait; auto. intros x. apply IH. lia.
Qed.

Lemma settles_bind {A B : Type} a b (p : prog A) (f : A -> prog B) :
  settles a p -> (forall x, settles b (f x)) -> settles (a + b) (bind p f).
Proof.
  intros H Hf. induction H as [d r | d X e k He Hk IH | d X e k He Hk IH]; simpl.
  - apply settles_mono with (d := b); [apply Hf | lia].
  - apply settles_go; auto.
  - apply settles_wait; auto.
Qed.

Ltac settles_step :=
  match goal with
  | |- settles _ (Ret _) => apply settles_ret
  | |- settles (S _) (Vis ?e _) =>
      first [ apply settles_go; [reflexivity | intros ?]
            | apply settles_wait; [reflexivity | intros ?] ]
  | |- settles _ (Vis ?e _) => apply settles_go; [reflexivity | intros ?]
  | |- settles _ (match ?x with _ => _ end) => destruct x eqn:?
  | |- settles _ (bind ?p _) =>
      match p with context [match ?x with _ => _ end] => destruct x eqn:? end
  end; simpl.

Section Settling.

Variable int_of_str : string -> option Z.

Lemma get_token_settles tm : settles 1 (get_token int_of_str tm).
Proof.
  unfold get_token. unfold_prog. simpl.
  repeat settles_step.
Qed.

Lemma attempt_settles self offer_name payload max_retries rc :
  settles 3 (attempt int_of_str self offer_name payload max_retries rc).
Proof.
  unfold attempt, try_except, bindM.
  apply (settles_bind 2 1).
  - apply (settles_bind 1 1); [apply get_token_settles |].
    intros [e | token]; [apply settles_ret |].
    unfold_prog. simpl. repeat settles_step.
  - intros [e | c]; [| apply settles_ret].
    unfold_prog. simpl. repeat settles_step.
Qed.

Lemma after_loop_settles offer_name max_retries rc :
  settles 0 (after_loop offer_name max_retries rc).
Proof.
  unfold after_loop. unfold_prog. destruct (rc =? max_retries); repeat settles_step.
Qed.

Lemma retry_loop_settles self offer_name payload max_retries variant :
  forall rc,
    settles (3 * variant)
      (retry_loop int_of_str self offer_name payload max_retries variant rc).
Proof.
  induction variant as [| v IH]; intros rc; simpl retry_loop.
  - apply after_loop_settles.
  - replace (3 * Datatypes.S v)%nat with (3 + 3 * v)%nat by lia.
    unfold bindM. apply settles_bind; [apply attempt_settles |].
    intros [e | [ | | rc']].
    + apply settles_ret.
    + apply settles_ret.
    + apply settles_mono with (d := 0%nat); [apply after_loop_settles | lia].
    + apply IH.
Qed.

(** A job yields to the loop at most nine times. *)
Lemma body_settles c : settles 9 (body int_of_str c).
Proof. unfold body, create_offer. apply (retry_loop_settles _ _ _ 3 3). Qed.

End Settling.

Section Rounds.

Variable R : Type.
Variable en : env.

Lemma advance_within d (p : prog R) :
  settles d p -> forall w, within d (fst (advance p en w)).
Proof.
  intros H. induction H as [d r | d X e k He Hk IH | d X e k He Hk IH]; intros w; simpl.
  - exact I.
  - destruct (handle e en w) as [x w1]. rewrite He. apply IH.
  - destruct (handle e en w) as [x w1]. rewrite He. simpl. exists d. auto.
Qed.

Lemma within_mono d d' (t : task R) : within d t -> (d <= d')%nat -> within d' t.
Proof.
  destruct t as [r | rest]; simpl; [auto |].
  intros (d0 & -> & H) Hd. destruct d' as [| d']; [lia |].
  exists d'. split; [reflexivity |]. apply settles_mono with (d := d0); [exact H | lia].
Qed.

Lemma start_within d (ps : list (prog R)) :
  Forall (settles d) ps -> forall w, Forall (within d) (fst (start ps en w)).
Proof.
  intros H. induction H as [| p ps Hp Hps IH]; intros w.
  - constructor.
  - change (start (p :: ps) en w)
      with (let (t, w1) := advance p en w in
            let (ts, w2) := start ps en w1 in (t :: ts, w2)).
    pose proof (advance_within d p Hp w) as H1.
    destruct (advance p en w) as [t w1].
    pose proof (IH w1) as H2.
    destruct (start ps en w1) as [ts w2].
    constructor; [exact H1 | exact H2].
Qed.

Lemma start_length (ps : list (prog R)) :
  forall w, List.length (fst (start ps en w)) = List.length ps.
Proof.
  induction ps as [| p ps IH]; intros w; [reflexivity |].
  change (start (p :: ps) en w)
    with (let (t, w1) := advance p en w in
          let (ts, w2) := start ps en w1 in (t :: ts, w2)).
  destruct (advance p en w) as [t w1].
  pose proof (IH w1) as H. destruct (start ps en w1) as [ts w2].
  simpl in *. rewrite H. reflexivity.
Qed.

Lemma replace_middle (front : list (task R)) t x back :
  replace (List.length front) x (front ++ t :: back) = (front ++ x :: back)%list.
Proof.
  induction front as [| y front IHf]; simpl; [reflexivity |].
  rewrite IHf. reflexivity.
Qed.

(** Waking the task that follows [front] brings it one step nearer. *)
Lemma resume_middle d (front : list (task R)) t back w :
  within (Datatypes.S d) t ->
  exists t' w',
    resume (List.length front) (front ++ t :: back) en w = ((front ++ t' :: back)%list, w') /\
    within d t'.
Proof.
  intros Ht. unfold resume.
  assert (Hn : nth_error (front ++ t :: back) (List.length front) = Some t).
  { rewrite nth_error_app2 by lia. rewrite Nat.sub_diag. reflexivity. }
  rewrite Hn. destruct t as [r | rest].
  - exists (Done r), w. split; [reflexivity | exact I].
  - destruct Ht as (d0 & Hd & Hs). injection Hd as <-.
    pose proof (advance_within d rest Hs w) as H1.
    destruct (advance rest en w) as [t' w']. simpl in H1.
    exists t', w'. rewrite replace_middle. split; [reflexivity | exact H1].
Qed.

Lemma round_within d (back : list (task R)) :
  forall front w,
    Forall (within d) front ->
    Forall (within (Datatypes.S d)) back ->
    Forall (within d)
      (fst (resume_all (seq (List.length front) (List.length back))
              (front ++ back) en w)) /\
    List.length (fst (resume_all (seq (List.length front) (List.length back))
                        (front ++ back) en w))
      = List.length (front ++ back).
Proof.
  induction back as [| t back IH]; intros front w Hf Hb.
  - simpl. rewrite app_nil_r. split; [exact Hf | reflexivity].
  - inversion Hb as [| t0 back0 Ht Hback]; subst.
    destruct (resume_middle d front t back w Ht) as (t' & w' & Hres & Ht').
    simpl resume_all. simpl seq. cbn [resume_all]. rewrite Hres.
    specialize (IH (front ++ [t'])%list w').
    rewrite length_app, Nat.add_1_r, <- app_assoc in IH. simpl in IH.
    destruct IH as [IH1 IH2].
    + apply Forall_app. split; [exact Hf | constructor; [exact Ht' | constructor]].
    + exact Hback.
    + split; [exact IH1 |]. rewrite IH2, !length_app. simpl. reflexivity.
Qed.

Lemma rounds_within d :
  forall (pool : list (task R)) w,
    Forall (within d) pool ->
    Forall (within 0)
      (fst (resume_all (round_robin (List.length pool) d) pool en w)).
Proof.
  induction d as [| d IH]; intros pool w H.
  - exact H.
  - simpl round_robin.
    assert (Happ : forall l1 l2 (p : list (task R)) w0,
               resume_all (l1 ++ l2) p en w0 =
               resume_all l2 (fst (resume_all l1 p en w0)) en
                 (snd (resume_all l1 p en w0))).
    { induction l1 as [| i l1 IHl]; intros l2 p w0; [reflexivity |].
      simpl. destruct (resume i p en w0) as [p' w0']. apply IHl. }
    rewrite Happ.
    destruct (round_within d pool [] w (Forall_nil _) H) as [H1 H2].
    simpl in H1, H2.
    rewrite <- H2 at 1. apply IH. exact H1.
Qed.

Lemma within_0_done (pool : list (task R)) :
  Forall (within 0) pool -> forallb is_done pool = true.
Proof.
  intros H. induction H as [| t pool Ht Hp IH]; [reflexivity |].
  destruct t as [r | rest]; simpl; [exact IH |].
  destruct Ht as (d' & Hd & _). discriminate Hd.
Qed.

Lemma resume_done i (pool : list (task R)) w :
  forallb is_done pool = true -> resume i pool en w = (pool, w).
Proof.
  intros H. unfold resume.
  destruct (nth_error pool i) as [[r | rest] |] eqn:E; try reflexivity.
  apply nth_error_In in E. rewrite forallb_forall in H.
  apply H in E. discriminate E.
Qed.

Lemma resume_all_done order (pool : list (task R)) w :
  forallb is_done pool = true -> resume_all order pool en w = (pool, w).
Proof.
  intros H. induction order as [| i order IH]; [reflexivity |].
  simpl. rewrite (resume_done i pool w H). exact IH.
Qed.

End Rounds.

Section Completion.

Variable A : Type.
Variable en : env.

(** When no task can raise, [gather] stands as the pool does once every
    wake-up of [order] has been made. *)
Lemma event_loop_resume_all order :
  forall (pool : list (task (result A))) w,
    Forall never_raises pool ->
    fst (event_loop order pool en w) =
    if forallb is_done (fst (resume_all order pool en w)) then Returned else Running.
Proof.
  induction order as [| i order IH]; intros pool w H; simpl;
    rewrite (first_raised_none A pool H).
  - destruct (forallb is_done pool); reflexivity.
  - destruct (forallb is_done pool) eqn:D.
    + rewrite (resume_done (result A) en i pool w D).
      rewrite (resume_all_done (result A) en order pool w D). simpl. rewrite D.
      reflexivity.
    + pose proof (resume_never_raises A en i pool w H) as H1.
      destruct (resume i pool en w) as [pool' w']. apply IH. exact H1.
Qed.

End Completion.

Section Startup.

Variable int_of_str : string -> option Z.
Variable environ : string -> option string.

Lemma truthy_env_unset v : truthy_env v = false <-> unset v.
Proof.
  unfold unset. destruct v as [s |]; simpl.
  - rewrite negb_false_iff, String.eqb_eq. split.
    + intros ->. right. reflexivity.
    + intros [H | H]; [discriminate | injection H; auto].
  - split; auto.
Qed.

Lemma bad_config_validated :
  bad_config int_of_str environ -> validated int_of_str environ = None.
Proof.
  unfold validated, all. simpl.
  intros [H | H | H | s Hs Hn | s n Hs Hn Hle].
  - apply truthy_env_unset in H. rewrite H. reflexivity.
  - apply truthy_env_unset in H. rewrite H.
    destruct (truthy_env (environ "MS_CLIENT_ID")); reflexivity.
  - apply truthy_env_unset in H. rewrite H.
    destruct (truthy_env (environ "MS_CLIENT_ID"));
      destruct (truthy_env (environ "MS_CLIENT_SECRET")); reflexivity.
  - rewrite Hs. simpl. rewrite Hn.
    destruct (_ && _); reflexivity.
  - rewrite Hs. simpl. rewrite Hn.
    replace (n <=? 0) with true by (symmetry; apply Z.leb_le; exact Hle).
    destruct (_ && _); reflexivity.
Qed.

Lemma good_config_validated n :
  good_config int_of_str environ n -> validated int_of_str environ = Some n.
Proof.
  unfold validated, all. simpl.
  intros (Hid & Hsec & s & Hs & Hne & Hn & Hpos).
  rewrite <- truthy_env_unset in Hid, Hsec.
  apply not_false_is_true in Hid, Hsec. rewrite Hid, Hsec, Hs. simpl.
  replace (s =? "")%string with false by (symmetry; apply String.eqb_neq; exact Hne).
  simpl. rewrite Hn.
  replace (n <=? 0) with false by (symmetry; apply Z.leb_gt; exact Hpos).
  reflexivity.
Qed.

(** [main] up to [gather], by what its checks let through. *)
Lemma run_main_startup en w :
  match validated int_of_str environ with
  | Some n =>
      exists coroutines line,
        run (main int_of_str environ) en w = (inr coroutines, emit (Printed line) w) /\
        List.length coroutines = Z.to_nat n
  | None =>
      exists e,
        fst (run (main int_of_str environ) en w) = inl e /\
        exn_cls e = ValueError /\
        (snd (run (main int_of_str environ) en w) = w \/
         snd (run (main int_of_str environ) en w)
           = emit (Logged (InvalidNumOffers (exn_str e))) w)
  end.
Proof.
  unfold validated, main.
  destruct (all _) eqn:Hall; simpl negb; cbv iota.
  - unfold py_int_str. unfold_prog.
    destruct (int_of_str (the (environ "NUM_OFFERS"))) as [n |]; simpl.
    + destruct (n <=? 0); simpl.
      * eexists. split; [reflexivity | split; [reflexivity | right; reflexivity]].
      * eexists. eexists. split; [reflexivity |].
        rewrite length_map, length_seq. reflexivity.
    + eexists. split; [reflexivity | split; [reflexivity | right; reflexivity]].
  - eexists. split; [reflexivity | split; [reflexivity | left; reflexivity]].
Qed.

Lemma body_never_raises c :
  sat (fun _ => True) (fun r => exists a, r = inr a) (body int_of_str c).
Proof.
  unfold body.
  apply sat_impl with (3 := create_offer_sat int_of_str (creator c) (offer_number c)).
  - auto.
  - intros r ->. exists tt. reflexivity.
Qed.

(** C7: a job never raises, whatever its requests meet: each error is
    caught in the job, so [gather] never raises and no job or the
    process is stopped by another job; [main] raises only from its
    configuration checks, before any job exists.  Once the checks have
    passed, nine rounds of wake-ups bring every job to its end and
    [gather] returns. *)
Theorem job_errors_stay_in_the_job order en self offer_number en' w :
  sat (fun _ => True) (fun r => r = inr tt) (create_offer int_of_str self offer_number) /\
  fst (run (create_offer int_of_str self offer_number) en' w) = inr tt /\
  match fst (run (main int_of_str environ) en init_world) with
  | inl e =>
      exn_cls e = ValueError /\
      validated int_of_str environ = None /\
      fst (run_main int_of_str environ order en) = Raised e
  | inr coroutines =>
      (fst (run_main int_of_str environ order en) = Returned \/
       fst (run_main int_of_str environ order en) = Running) /\
      fst (run_main int_of_str environ (round_robin (List.length coroutines) 9) en)
        = Returned
  end.
Proof.
  split; [| split].
  - apply sat_impl with (3 := create_offer_sat int_of_str self offer_number); auto.
  - apply (run_sat _ _ _ en' (create_offer_sat int_of_str self offer_number) w).
  - unfold run_main.
    pose proof (run_main_startup en init_world) as H.
    destruct (validated int_of_str environ) as [n |].
    + destruct H as (coroutines & line & -> & _). cbn [fst].
      set (w0 := emit (Printed line) init_world).
      set (ps := map (body int_of_str) coroutines).
      assert (Hs : Forall never_raises (fst (start ps en w0))).
      { apply start_never_raises. apply Forall_forall. intros p Hp.
        apply in_map_iff in Hp. destruct Hp as (c & <- & _). apply body_never_raises. }
      assert (Hw : Forall (within 9) (fst (start ps en w0))).
      { apply start_within. apply Forall_forall. intros p Hp.
        apply in_map_iff in Hp. destruct Hp as (c & <- & _). apply body_settles. }
      assert (Hl : List.length (fst (start ps en w0)) = List.length coroutines).
      { rewrite start_length. unfold ps. apply length_map. }
      destruct (start ps en w0) as [pool w1]. cbn [fst] in Hs, Hw, Hl.
      split; [apply event_loop_never_raises; exact Hs |].
      rewrite (event_loop_resume_all unit en _ pool w1 Hs), <- Hl.
      rewrite (within_0_done _ _ (rounds_within _ en 9 pool w1 Hw)). reflexivity.
    + destruct H as (e & He & Hcls & _).
      destruct (run (main int_of_str environ) en init_world) as [[e' | cs] w1];
        cbn [fst] in *; [| discriminate].
      injection He as ->. auto.
Qed.

(** C8: with a credential or the offer count missing, or an offer count
    that is no number or is not positive, the process ends in
    [ValueError] with no request made; with both credentials set and a
    positive offer count the checks pass, and [main] goes on to its
    jobs, one per offer. *)
Theorem main_checks_configuration order en :
  (bad_config int_of_str environ ->
   exists e,
     fst (run_main int_of_str environ order en) = Raised e /\
     exn_cls e = ValueError /\
     token_posts (trace (snd (run_main int_of_str environ order en))) = 0%nat /\
     offer_posts (trace (snd (run_main int_of_str environ order en))) = []) /\
  (forall n,
      good_config int_of_str environ n ->
      exists coroutines,
        fst (run (main int_of_str environ) en init_world) = inr coroutines /\
        List.length coroutines = Z.to_nat n /\
        token_posts (trace (snd (run (main int_of_str environ) en init_world))) = 0%nat /\
        offer_posts (trace (snd (run (main int_of_str environ) en init_world))) = []).
Proof.
  split.
  - intros Hbad. apply bad_config_validated in Hbad.
    pose proof (run_main_startup en init_world) as H. rewrite Hbad in H.
    destruct H as (e & He & Hcls & Hw). exists e. unfold run_main.
    destruct (run (main int_of_str environ) en init_world) as [[e' | cs] w1];
      cbn [fst snd] in *; [| discriminate].
    injection He as ->.
    split; [reflexivity | split; [exact Hcls |]].
    destruct Hw as [-> | ->]; split; reflexivity.
  - intros n Hgood. apply good_config_validated in Hgood.
    pose proof (run_main_startup en init_world) as H. rewrite Hgood in H.
    destruct H as (coroutines & line & -> & Hlen).
    exists coroutines. repeat split; auto.
Qed.

End Startup.

Lemma main_checks_configuration_witness :
  (exists e,
      fst (run_main decimal environ_zero [] env_500) = Raised e /\
      exn_cls e = ValueError /\
      token_posts (trace (snd (run_main decimal environ_zero [] env_500))) = 0%nat /\
      offer_posts (trace (snd (run_main decimal environ_zero [] env_500))) = []) /\
  (exists coroutines,
      fst (run (main decimal environ_two) env_500 init_world) = inr coroutines /\
      List.length coroutines = Z.to_nat 2 /\
      token_posts (trace (snd (run (main decimal environ_two) env_500 init_world))) = 0%nat /\
      offer_posts (trace (snd (run (main decimal environ_two) env_500 init_world))) = []).
Proof.
  split.
  - apply (proj1 (main_checks_configuration decimal environ_zero [] env_500)).
    apply num_offers_not_positive with (s := "0") (n := 0); [reflexivity | reflexivity | lia].
  - apply (proj2 (main_checks_configuration decimal environ_two [] env_500)).
    split; [intros [H | H]; discriminate H |].
    split; [intros [H | H]; discriminate H |].
    exists "2". split; [reflexivity | split; [discriminate | split; [reflexivity | lia]]].
Defined.

(* ================================================================== *)
(** ** Concurrent callers of [get_token] *)
(* ================================================================== *)

Section Callers.

Variable int_of_str : string -> option Z.
Variable tm : TokenManager.

(** A caller that finds no valid token posts its own exchange and is
    suspended on it; once woken, what it returns is decided by the
    answer to that exchange alone. *)
Lemma advance_get_token_miss en w :
  cache_valid w (clock en (ticks w)) = false ->
  exists rest,
    advance (get_token int_of_str tm) en w
      = (Suspended rest, emit (TokenPosted (client_id tm) (client_secret tm)) (checked w)) /\
    forall en' w',
      match granted int_of_str
              (token_endpoint en (token_posts (trace w)) (client_id tm) (client_secret tm))
      with
      | Some (v, _) => fst (advance rest en' w') = Done (inr v)
      | None => exists e, fst (advance rest en' w') = Done (inl e)
      end.
Proof.
  unfold cache_valid, checked, granted. intros Hc.
  unfold get_token. unfold_prog. simpl.
  destruct (truthy (access_token w)) eqn:Ht; simpl in *;
    [rewrite Hc; simpl |].
  all: eexists; split; [reflexivity |]; intros en' w'.
  all: destruct (token_endpoint en _ _ _) as [e | r]; simpl; [eexists; reflexivity |].
  all: destruct (status r =? 200); simpl;
    [| destruct (text r); simpl; eexists; reflexivity].
  all: destruct (json_body r) as [e | body]; simpl; [eexists; reflexivity |].
  all: destruct (subscript body "access_token") as [e | v]; simpl; [eexists; reflexivity |].
  all: destruct (subscript body "expires_in") as [e | x]; simpl; [eexists; reflexivity |].
  all: destruct (py_int int_of_str x) as [e | n]; simpl; [eexists; reflexivity |].
  all: destruct (float_of_int n) as [e | s]; simpl; [eexists; reflexivity |].
  all: reflexivity.
Qed.

(** C3 (as amended): [n] callers that start while no valid token is
    cached each post their own exchange, [n] exchanges in all, before
    any answer arrives; the cache is as it was; and each caller, once
    woken, returns what its own exchange granted, or raises when it
    granted nothing. *)
Theorem concurrent_callers_each_exchange n :
  forall en w,
    (forall t, cache_valid w (clock en t) = false) ->
    let out := start (repeat (get_token int_of_str tm) n) en w in
    token_posts (trace (snd out)) = (token_posts (trace w) + n)%nat /\
    access_token (snd out) = access_token w /\
    token_expires_at (snd out) = token_expires_at w /\
    List.length (fst out) = n /\
    forall i,
      (i < n)%nat ->
      exists rest,
        nth_error (fst out) i = Some (Suspended rest) /\
        forall en' w',
          match granted int_of_str
                  (token_endpoint en (token_posts (trace w) + i)
                     (client_id tm) (client_secret tm))
          with
          | Some (v, _) => fst (advance rest en' w') = Done (inr v)
          | None => exists e, fst (advance rest en' w') = Done (inl e)
          end.
Proof.
  induction n as [| n IH]; intros en w Hc out; subst out.
  - simpl. rewrite Nat.add_0_r. repeat split; try reflexivity. intros i Hi. lia.
  - change (repeat (get_token int_of_str tm) (Datatypes.S n))
      with (get_token int_of_str tm :: repeat (get_token int_of_str tm) n).
    change (start (get_token int_of_str tm :: repeat (get_token int_of_str tm) n) en w)
      with (let (t, w1) := advance (get_token int_of_str tm) en w in
            let (ts, w2) := start (repeat (get_token int_of_str tm) n) en w1 in
            (t :: ts, w2)).
    destruct (advance_get_token_miss en w (Hc _)) as (rest & -> & Hrest).
    set (w1 := emit (TokenPosted (client_id tm) (client_secret tm)) (checked w)).
    assert (Ha : access_token w1 = access_token w).
    { unfold w1, checked. destruct (truthy (access_token w)); reflexivity. }
    assert (He : token_expires_at w1 = token_expires_at w).
    { unfold w1, checked. destruct (truthy (access_token w)); reflexivity. }
    assert (Hp : token_posts (trace w1) = Datatypes.S (token_posts (trace w))).
    { unfold w1, checked.
      destruct (truthy (access_token w)); simpl; rewrite token_posts_app;
        unfold token_posts; simpl; lia. }
    assert (Hc1 : forall t, cache_valid w1 (clock en t) = false).
    { intros t. unfold cache_valid. rewrite Ha, He. apply Hc. }
    destruct (IH en w1 Hc1) as (P & A & E & L & R).
    destruct (start (repeat (get_token int_of_str tm) n) en w1) as [ts w2].
    cbn [fst snd] in *.
    split; [rewrite P, Hp; lia | split; [congruence | split; [congruence | split]]].
    + simpl. rewrite L. reflexivity.
    + intros [| i] Hi.
      * exists rest. split; [reflexivity |]. rewrite Nat.add_0_r. exact Hrest.
      * destruct (R i ltac:(lia)) as (rest' & Hn & Hr).
        exists rest'. split; [exact Hn |].
        rewrite Hp in Hr.
        replace (token_posts (trace w) + Datatypes.S i)%nat
          with (Datatypes.S (token_posts (trace w)) + i)%nat by lia.
        exact Hr.
Qed.

End Callers.

(** C3, as stated, fails: two callers that find the cache empty make two
    exchanges, and each returns the token of its own. *)
Lemma two_callers_two_exchanges :
  let callers := [get_token decimal tm0; get_token decimal tm0] in
  let started := start callers env_two_tokens init_world in
  let woken0 := resume 0 (fst started) env_two_tokens (snd started) in
  let woken1 := resume 1 (fst woken0) env_two_tokens (snd woken0) in
  cache_valid init_world (clock env_two_tokens 0) = false /\
  token_posts (trace (snd started)) = 2%nat /\
  token_posts (trace (snd woken1)) <> 1%nat /\
  fst woken1 = [Done (inr (JStr "A")); Done (inr (JStr "B"))].
Proof. vm_compute. repeat split. discriminate. Qed.

Lemma concurrent_callers_each_exchange_witness :
  let out := start (repeat (get_token decimal tm0) 2) env_two_tokens init_world in
  token_posts (trace (snd out)) = 2%nat /\
  List.length (fst out) = 2%nat.
Proof.
  destruct (concurrent_callers_each_exchange decimal tm0 2 env_two_tokens init_world)
    as (P & _ & _ & L & _).
  - intros t. reflexivity.
  - split; [exact P | exact L].
Defined.

(* ================================================================== *)
(** ** More on [get_token] *)
(* ================================================================== *)

Section TokenErrors.

Variable int_of_str : string -> option Z.
Variable tm : TokenManager.

(** X1: an exception of [get_token] is always one met after the exchange
    was posted, and it is logged once, with its own message, just before
    it is raised; a call that returns logs nothing, posts at most one
    exchange, and returns the token that is then in the cache. *)
Theorem get_token_logs_what_it_raises en w :
  let out := run (get_token int_of_str tm) en w in
  match fst out with
  | inl e =>
      trace (snd out) =
        (trace w ++ [TokenPosted (client_id tm) (client_secret tm);
                     Logged (TokenError (exn_str e))])%list
  | inr v =>
      access_token (snd out) = v /\
      (trace (snd out) = trace w \/
       trace (snd out) =
         (trace w ++ [TokenPosted (client_id tm) (client_secret tm)])%list)
  end.
Proof.
  unfold get_token. unfold_prog. simpl.
  repeat case_step; rewrite <- ?app_assoc; simpl; auto.
Qed.

(** X2: when the exchange brings no token (transport error, status other
    than 200, body that is not JSON or lacks [access_token]),
    [get_token] raises and both cached fields are as they were. *)
Theorem get_token_without_token_keeps_cache en w :
  cache_valid w (clock en (ticks w)) = false ->
  no_token_in
    (token_endpoint en (token_posts (trace w)) (client_id tm) (client_secret tm)) ->
  let out := run (get_token int_of_str tm) en w in
  (exists e, fst out = inl e) /\
  access_token (snd out) = access_token w /\
  token_expires_at (snd out) = token_expires_at w.
Proof.
  unfold cache_valid, no_token_in. intros Hc Hn.
  unfold get_token. unfold_prog. simpl.
  destruct (truthy (access_token w)) eqn:Ht; simpl in *; [rewrite Hc; simpl |].
  all: destruct (token_endpoint en _ _ _) as [e | r]; simpl; [eauto |].
  all: destruct (status r =? 200) eqn:S; simpl;
    [apply Z.eqb_eq in S | destruct (text r); simpl; eauto].
  all: destruct Hn as [Hn | [[e Hn] | (body & e & Hb & Hn)]]; [contradiction | |].
  all: try (rewrite Hn; simpl; eauto).
  all: rewrite Hb; simpl; rewrite Hn; simpl; eauto.
Qed.

(** X3: on a status other than 200 whose body reads as [body], the
    exception carries the status and the body, and the same text goes to
    the log. *)
Theorem get_token_reports_status_and_body en w r body :
  cache_valid w (clock en (ticks w)) = false ->
  token_endpoint en (token_posts (trace w)) (client_id tm) (client_secret tm) = inr r ->
  status r <> 200 ->
  text r = inr body ->
  let msg := "Failed to get token. Status: " ++ str_of_Z (status r)
               ++ ", Error: " ++ body in
  let out := run (get_token int_of_str tm) en w in
  fst out = inl (Raise PlainException msg) /\
  records (trace (snd out)) = (records (trace w) ++ [TokenError msg])%list.
Proof.
  unfold cache_valid. intros Hc Ha Hs Ht.
  apply Z.eqb_neq in Hs.
  unfold get_token. unfold_prog. simpl.
  destruct (truthy (access_token w)) eqn:Htr; simpl in *; [rewrite Hc; simpl |].
  all: rewrite Ha; simpl; rewrite Hs; simpl; rewrite Ht; simpl.
  all: rewrite !records_app; simpl; rewrite app_nil_r; repeat split; reflexivity.
Qed.

End TokenErrors.

(* ================================================================== *)
(** ** More on [create_offer] *)
(* ================================================================== *)

Section Backoff.

Variable int_of_str : string -> option Z.

(** X4: a job sleeps between attempts only, and sends at most one
    creation request per attempt.  Its timeline is a row of failed
    attempts, each made of its request (if a token was obtained), its
    error record and, when another attempt follows, one sleep (2 seconds
    after the first, 4 after the second, none after the third); then
    either the exhaustion record, after three failed attempts, or one
    last attempt made of its request and its record.  After [n] attempts
    the job has slept [n - 1] times, six seconds at most. *)
Theorem create_offer_sleeps_between_attempts self offer_number en w :
  let name := offer_name_of offer_number in
  let url := request_url self in
  let payload := get_offer_payload self name in
  let failure (f : option json * string) :=
    (request url payload (fst f) ++ [Logged (OfferError name (snd f))])%list in
  exists evs fs last,
    trace (snd (run (create_offer int_of_str self offer_number) en w))
      = (trace w ++ evs)%list /\
    timeline evs = (failed_passes url name payload 3 0 fs ++ last)%list /\
    ((List.length fs = 3%nat /\ attempts evs = 3%nat /\
      last = [Logged (OfferExhausted name 3)]) \/
     ((List.length fs < 3)%nat /\ attempts evs = Datatypes.S (List.length fs) /\
      exists token record,
        last = [OfferPosted url token payload; Logged record] /\
        (record = OfferCreated name \/
         exists st error_text,
           st <> 202 /\ record = OfferRejected name st error_text))) /\
    (forall f1 f2 f3,
        failed_passes url name payload 3 0 [f1] = (failure f1 ++ [Slept 2])%list /\
        failed_passes url name payload 3 0 [f1; f2] =
          (failure f1 ++ [Slept 2] ++ failure f2 ++ [Slept 4])%list /\
        failed_passes url name payload 3 0 [f1; f2; f3] =
          (failure f1 ++ [Slept 2] ++ failure f2 ++ [Slept 4] ++ failure f3)%list) /\
    sleeps evs = firstn (attempts evs - 1) [2; 4] /\
    (List.length (offer_posts evs) <= attempts evs <= 3)%nat.
Proof.
  intros name url payload failure. subst url failure.
  unfold create_offer. fold name. fold payload.
  change (Z.to_nat (3 - 0)) with 3%nat.
  destruct (retry_loop_timeline int_of_str self name payload 3 en 3 0 w eq_refl)
    as (evs & fs & last & T & L & _ & C).
  exists evs, fs, last.
  destruct (timeline_shows evs) as (S1 & S2 & S3 & S4).
  destruct (failed_passes_shows self name payload 3 fs 0) as (R & Sl & P & _).
  assert (Ha : attempts evs = (List.length fs + attempts last)%nat).
  { rewrite <- S4, L, attempts_app, attempts_offer_records, R.
    f_equal. clear. induction fs as [| f fs IH]; simpl; [reflexivity | f_equal; exact IH]. }
  assert (Hs : sleeps evs = (backoffs 3 0 (List.length fs) ++ sleeps last)%list).
  { rewrite <- S1, L, sleeps_app, Sl. reflexivity. }
  assert (Hp : (List.length (offer_posts evs)
                <= List.length fs + List.length (offer_posts last))%nat).
  { rewrite <- S2, L, offer_posts_app, length_app. lia. }
  assert (Hshape : forall f1 f2 f3 : option json * string,
    failed_passes (request_url self) name payload 3 0 [f1] =
      ((request (request_url self) payload (fst f1)
          ++ [Logged (OfferError name (snd f1))]) ++ [Slept 2])%list /\
    failed_passes (request_url self) name payload 3 0 [f1; f2] =
      ((request (request_url self) payload (fst f1)
          ++ [Logged (OfferError name (snd f1))]) ++ [Slept 2] ++
       (request (request_url self) payload (fst f2)
          ++ [Logged (OfferError name (snd f2))]) ++ [Slept 4])%list /\
    failed_passes (request_url self) name payload 3 0 [f1; f2; f3] =
      ((request (request_url self) payload (fst f1)
          ++ [Logged (OfferError name (snd f1))]) ++ [Slept 2] ++
       (request (request_url self) payload (fst f2)
          ++ [Logged (OfferError name (snd f2))]) ++ [Slept 4] ++
       (request (request_url self) payload (fst f3)
          ++ [Logged (OfferError name (snd f3))]))%list).
  { intros [[t1 |] m1] [[t2 |] m2] [[t3 |] m3]; repeat split; reflexivity. }
  split; [exact T | split; [exact L |]].
  destruct C as [[-> Len] | [Len (i & tok & r & A & [(S & ->) | (txt & S & ->)])]].
  - change (attempts [Logged (OfferExhausted name 3)]) with 0%nat in Ha.
    simpl in Hp. rewrite Hs, Ha, Len. rewrite Len in Hp.
    split; [left; repeat split; reflexivity |].
    split; [exact Hshape |]. split; [reflexivity | lia].
  - change (attempts [OfferPosted (request_url self) tok payload;
                      Logged (OfferCreated name)]) with 1%nat in Ha.
    split.
    { right. split; [exact Len | split; [lia |]].
      exists tok, (OfferCreated name). split; [reflexivity | left; reflexivity]. }
    split; [exact Hshape |].
    rewrite Hs, Ha. simpl in Hp.
    destruct fs as [| f1 [| f2 [| f3 fs]]]; simpl in Len; try lia;
      (split; [reflexivity | simpl in *; lia]).
  - change (attempts [OfferPosted (request_url self) tok payload;
                      Logged (OfferRejected name (status r) txt)]) with 1%nat in Ha.
    split.
    { right. split; [exact Len | split; [lia |]].
      exists tok, (OfferRejected name (status r) txt). split; [reflexivity | right].
      exists (status r), txt. split; [exact S | reflexivity]. }
    split; [exact Hshape |].
    rewrite Hs, Ha. simpl in Hp.
    destruct fs as [| f1 [| f2 [| f3 fs]]]; simpl in Len; try lia;
      (split; [reflexivity | simpl in *; lia]).
Qed.

(** X5: a creation request answered with another status than 202 is
    retried after all when its body cannot be read: reading the body
    raises inside the [try].  Against an endpoint that always answers so,
    the job makes three attempts, sleeps 2 and 4 seconds and reports
    exhaustion. *)
Theorem create_offer_retries_unreadable_rejections self offer_number en w :
  unreadable_rejections en ->
  let name := offer_name_of offer_number in
  exists evs m1 m2 m3,
    trace (snd (run (create_offer int_of_str self offer_number) en w))
      = (trace w ++ evs)%list /\
    offer_records evs =
      [OfferError name m1; OfferError name m2; OfferError name m3;
       OfferExhausted name 3] /\
    attempts evs = 3%nat /\
    sleeps evs = [2; 4].
Proof.
  intros Hu name. unfold create_offer. fold name.
  change (Z.to_nat (3 - 0)) with 3%nat.
  set (payload := get_offer_payload self name).
  destruct (retry_loop_spec int_of_str self name payload 3 en 3 0 w eq_refl)
    as (evs & msgs & final & F & T & R & Sl & P & C).
  destruct C as [[-> L] | [_ (i & tok & r & A & C)]].
  - destruct msgs as [| m1 [| m2 [| m3 [| m4 msgs]]]]; try discriminate L.
    exists evs, m1, m2, m3.
    split; [exact T | split; [exact R | split; [| exact Sl]]].
    rewrite attempts_offer_records, R. reflexivity.
  - exfalso.
    destruct (Hu i (request_url self) tok payload) as (r' & e & A' & S' & T').
    rewrite A in A'. injection A' as <-.
    destruct C as [(_ & S & _) | (txt & _ & _ & Tx)]; congruence.
Qed.

End Backoff.

Lemma create_offer_retries_unreadable_rejections_witness :
  exists evs m1 m2 m3,
    trace (snd (run (create_offer decimal creator0 7) env_unreadable init_world))
      = (trace init_world ++ evs)%list /\
    offer_records evs =
      [OfferError (offer_name_of 7) m1; OfferError (offer_name_of 7) m2;
       OfferError (offer_name_of 7) m3; OfferExhausted (offer_name_of 7) 3] /\
    attempts evs = 3%nat /\
    sleeps evs = [2; 4].
Proof.
  apply (create_offer_retries_unreadable_rejections decimal creator0 7 env_unreadable
           init_world).
  intros i url token payload. eexists. eexists.
  split; [reflexivity | split; [discriminate | reflexivity]].
Defined.

Section TokenAndJob.

Variable int_of_str : string -> option Z.
Variable self : OfferCreator.
Variable offer_name : string.
Variable payload : json.
Variable en : env.

Let tm : TokenManager := token_manager self.

Lemma cache_valid_same w w' now :
  access_token w' = access_token w ->
  token_expires_at w' = token_expires_at w ->
  cache_valid w' now = cache_valid w now.
Proof. unfold cache_valid. intros -> ->. reflexivity. Qed.

(** A pass of the loop leaves the cache as [get_token] left it. *)
Lemma attempt_cache max_retries rc w :
  let w1 := snd (run (get_token int_of_str tm) en w) in
  let w' := snd (run (attempt int_of_str self offer_name payload max_retries rc) en w) in
  access_token w' = access_token w1 /\ token_expires_at w' = token_expires_at w1.
Proof.
  cbv zeta. rewrite run_attempt. fold tm.
  destruct (run (get_token int_of_str tm) en w) as [[e | token] w1]; unfold failed; simpl.
  - destruct (rc + 1 <? max_retries); simpl; auto.
  - destruct (offer_endpoint en _ _ _ _) as [e | r]; simpl.
    + destruct (rc + 1 <? max_retries); simpl; auto.
    + destruct (status r =? 202); simpl; auto.
      destruct (text r); simpl; auto.
      destruct (rc + 1 <? max_retries); simpl; auto.
Qed.

(** With no valid token and a token endpoint that refuses, [get_token]
    raises and the cache is as it was. *)
Lemma get_token_refused w :
  cache_valid w (clock en (ticks w)) = false ->
  token_refused en ->
  exists e,
    run (get_token int_of_str tm) en w =
    (inl e,
     emit (Logged (TokenError (exn_str e)))
       (emit (TokenPosted (client_id tm) (client_secret tm)) (checked w))).
Proof.
  unfold cache_valid, checked. intros Hc Hr.
  specialize (Hr (token_posts (trace w)) (client_id tm) (client_secret tm)).
  unfold get_token. unfold_prog. simpl.
  destruct (truthy (access_token w)) eqn:Ht; simpl in *; [rewrite Hc; simpl |].
  all: destruct (token_endpoint en _ _ _) as [e | r]; simpl;
    [exists e; reflexivity |].
  all: apply Z.eqb_neq in Hr; rewrite Hr; simpl.
  all: destruct (text r) as [e | body]; simpl;
    [exists e | eexists (Raise PlainException _)]; reflexivity.
Qed.

Lemma attempt_token_refused max_retries rc w :
  (forall t, cache_valid w (clock en t) = false) ->
  token_refused en ->
  exists m w',
    run (attempt int_of_str self offer_name payload max_retries rc) en w
      = (inr (Continue (rc + 1)), w') /\
    trace w' =
      (trace w ++ [TokenPosted (client_id tm) (client_secret tm);
                   Logged (TokenError m); Logged (OfferError offer_name m)]
               ++ map Slept (backoff max_retries rc))%list /\
    (forall t, cache_valid w' (clock en t) = false).
Proof.
  intros Hc Hr. rewrite run_attempt. fold tm.
  destruct (get_token_refused w (Hc _) Hr) as [e ->].
  exists (exn_str e). eexists. split; [reflexivity | split].
  - unfold failed, backoff, checked.
    destruct (truthy (access_token w)); destruct (rc + 1 <? max_retries); simpl;
      rewrite <- !app_assoc; reflexivity.
  - intros t. rewrite <- (Hc t). apply cache_valid_same;
      unfold failed, checked;
      destruct (truthy (access_token w)); destruct (rc + 1 <? max_retries); reflexivity.
Qed.

Lemma attempt_cache_valid max_retries rc w :
  (forall t, cache_valid w (clock en t) = true) ->
  let out := run (attempt int_of_str self offer_name payload max_retries rc) en w in
  exists c evs,
    fst out = inr c /\
    trace (snd out) = (trace w ++ evs)%list /\
    Forall (served_from_cache (access_token w)) evs /\
    access_token (snd out) = access_token w /\
    token_expires_at (snd out) = token_expires_at w.
Proof.
  intros Hc. cbv zeta. rewrite run_attempt. fold tm.
  rewrite (get_token_hit int_of_str tm en w (Hc _)).
  unfold failed, tick, post_index. simpl.
  destruct (offer_endpoint en _ _ _ _) as [e | r]; simpl.
  - destruct (rc + 1 <? max_retries); simpl; eexists; eexists;
      (split; [reflexivity | split; [rewrite <- ?app_assoc; reflexivity |]]);
      repeat split; repeat constructor; simpl; auto.
  - destruct (status r =? 202); simpl.
    + eexists; eexists;
        (split; [reflexivity | split; [rewrite <- ?app_assoc; reflexivity |]]);
        repeat split; repeat constructor; simpl; auto.
    + destruct (text r); simpl; [destruct (rc + 1 <? max_retries); simpl |];
        eexists; eexists;
        (split; [reflexivity | split; [rewrite <- ?app_assoc; reflexivity |]]);
        repeat split; repeat constructor; simpl; auto.
Qed.

Lemma retry_loop_cache_valid max_retries variant :
  forall rc w,
    (forall t, cache_valid w (clock en t) = true) ->
    let out := run (retry_loop int_of_str self offer_name payload max_retries
                      variant rc) en w in
    exists evs,
      trace (snd out) = (trace w ++ evs)%list /\
      Forall (served_from_cache (access_token w)) evs /\
      access_token (snd out) = access_token w /\
      token_expires_at (snd out) = token_expires_at w.
Proof.
  induction variant as [| v IH]; intros rc w Hc; cbv zeta.
  - simpl retry_loop. rewrite run_after_loop.
    destruct (rc =? max_retries); simpl.
    + eexists. split; [reflexivity |]. repeat split. repeat constructor.
    + exists []. rewrite app_nil_r. repeat split. constructor.
  - rewrite run_retry_loop.
    destruct (attempt_cache_valid max_retries rc w Hc) as (c & evs1 & Hf & Htr & Hs & Ha & He).
    destruct (run (attempt int_of_str self offer_name payload max_retries rc) en w)
      as [a w1]. cbn [fst snd] in *. subst a.
    destruct c as [ | | rc'].
    + exists evs1. auto.
    + rewrite run_after_loop. destruct (rc =? max_retries); simpl.
      * exists (evs1 ++ [Logged (OfferExhausted offer_name max_retries)])%list.
        rewrite Htr, <- app_assoc. repeat split; auto.
        apply Forall_app. split; [exact Hs | repeat constructor].
      * exists evs1. auto.
    + destruct (IH rc' w1) as (evs2 & T2 & S2 & A2 & E2).
      { intros t. rewrite <- (Hc t). apply cache_valid_same; assumption. }
      exists (evs1 ++ evs2)%list.
      rewrite T2, Htr, app_assoc, A2, E2, Ha, He. repeat split.
      apply Forall_app. split; [exact Hs |]. rewrite <- Ha. exact S2.
Qed.

End TokenAndJob.

Section JobAndToken.

Variable int_of_str : string -> option Z.

(** X6: while no valid token is cached and the token endpoint refuses
    (each exchange raises or is answered with another status than 200),
    a job never sends a creation request: each of its three attempts
    posts one exchange, logs the token error and then the same message as
    the attempt's error, and the job ends exhausted after sleeps of 2 and
    4 seconds. *)
Theorem create_offer_without_token self offer_number en w :
  (forall t, cache_valid w (clock en t) = false) ->
  token_refused en ->
  let name := offer_name_of offer_number in
  let exchange :=
    TokenPosted (client_id (token_manager self)) (client_secret (token_manager self)) in
  exists m1 m2 m3,
    trace (snd (run (create_offer int_of_str self offer_number) en w)) =
    (trace w ++
     [exchange; Logged (TokenError m1); Logged (OfferError name m1); Slept 2;
      exchange; Logged (TokenError m2); Logged (OfferError name m2); Slept 4;
      exchange; Logged (TokenError m3); Logged (OfferError name m3);
      Logged (OfferExhausted name 3)])%list.
Proof.
  intros Hc Hr name exchange. unfold create_offer. fold name.
  change (Z.to_nat (3 - 0)) with 3%nat.
  set (payload := get_offer_payload self name).
  rewrite run_retry_loop.
  destruct (attempt_token_refused int_of_str self name payload en 3 0 w Hc Hr)
    as (m1 & w1 & -> & T1 & Hc1).
  rewrite run_retry_loop.
  destruct (attempt_token_refused int_of_str self name payload en 3 (0 + 1) w1 Hc1 Hr)
    as (m2 & w2 & -> & T2 & Hc2).
  rewrite run_retry_loop.
  destruct (attempt_token_refused int_of_str self name payload en 3 (0 + 1 + 1) w2 Hc2 Hr)
    as (m3 & w3 & -> & T3 & Hc3).
  simpl retry_loop. rewrite run_after_loop. simpl.
  exists m1, m2, m3. rewrite T3, T2, T1. simpl. rewrite <- !app_assoc. reflexivity.
Qed.

(** X7: while the cached token stays valid, a job makes no credential
    exchange and logs no token error, every creation request it sends
    carries the cached token, and the cache is left as it was. *)
Theorem create_offer_uses_cached_token self offer_number en w :
  (forall t, cache_valid w (clock en t) = true) ->
  let out := run (create_offer int_of_str self offer_number) en w in
  exists evs,
    trace (snd out) = (trace w ++ evs)%list /\
    Forall (served_from_cache (access_token w)) evs /\
    token_posts evs = 0%nat /\
    access_token (snd out) = access_token w /\
    token_expires_at (snd out) = token_expires_at w.
Proof.
  intros Hc out. subst out. unfold create_offer.
  destruct (retry_loop_cache_valid int_of_str self (offer_name_of offer_number)
              (get_offer_payload self (offer_name_of offer_number)) en 3
              (Z.to_nat (3 - 0)) 0 w Hc) as (evs & T & S & A & E).
  exists evs. split; [exact T | split; [exact S | split; [| split; assumption]]].
  clear T. induction S as [| o evs Ho Hevs IH]; [reflexivity |].
  destruct o; simpl in Ho; try contradiction; exact IH.
Qed.

End JobAndToken.

Lemma create_offer_without_token_witness :
  exists m1 m2 m3,
    trace (snd (run (create_offer decimal creator0 7) env_token_down init_world)) =
    (trace init_world ++
     [TokenPosted "app" "secret"; Logged (TokenError m1);
      Logged (OfferError (offer_name_of 7) m1); Slept 2;
      TokenPosted "app" "secret"; Logged (TokenError m2);
      Logged (OfferError (offer_name_of 7) m2); Slept 4;
      TokenPosted "app" "secret"; Logged (TokenError m3);
      Logged (OfferError (offer_name_of 7) m3);
      Logged (OfferExhausted (offer_name_of 7) 3)])%list.
Proof.
  apply (create_offer_without_token decimal creator0 7 env_token_down init_world).
  - intros t. reflexivity.
  - intros i cid cs. exact I.
Defined.

Lemma create_offer_uses_cached_token_witness :
  let out := run (create_offer decimal creator0 7) env_token_down world_with_token in
  exists evs,
    trace (snd out) = (trace world_with_token ++ evs)%list /\
    Forall (served_from_cache (JStr "cached")) evs /\
    token_posts evs = 0%nat /\
    access_token (snd out) = JStr "cached" /\
    token_expires_at (snd out) = nearest 10000.
Proof.
  apply (create_offer_uses_cached_token decimal creator0 7 env_token_down world_with_token).
  intros t. reflexivity.
Defined.

Section Provenance.

Variable int_of_str : string -> option Z.
Variable en : env.
Variable tok0 : json.

Let known (v : json) : Prop := v = tok0 \/ issued en v.

Lemma get_token_returns_cached tm w v :
  fst (run (get_token int_of_str tm) en w) = inr v ->
  access_token (snd (run (get_token int_of_str tm) en w)) = v.
Proof.
  unfold get_token. unfold_prog. simpl.
  repeat case_step; intros H; try discriminate H; injection H as <-; reflexivity.
Qed.

Lemma get_token_cache_known tm w :
  known (access_token w) ->
  known (access_token (snd (run (get_token int_of_str tm) en w))).
Proof.
  intros Hk.
  assert (Hi : forall r body v,
             token_endpoint en (token_posts (trace w)) (client_id tm) (client_secret tm)
               = inr r ->
             (status r =? 200) = true -> json_body r = inr body ->
             subscript body "access_token" = inr v -> known v).
  { intros r body v A S J V. right. apply Z.eqb_eq in S.
    exists (token_posts (trace w)), (client_id tm), (client_secret tm), r, body. auto. }
  unfold get_token. unfold_prog. simpl.
  repeat case_step; simpl; eauto.
Qed.

Lemma token_obs_bearer (P : json -> Prop) toks :
  forallb is_token_obs toks = true -> Forall (bearer P) toks.
Proof.
  induction toks as [| o toks IH]; simpl; intros H; constructor.
  - apply andb_prop in H. destruct H as [H _]. destruct o; try discriminate H; exact I.
  - apply andb_prop in H. destruct H as [_ H]. auto.
Qed.

Lemma Forall_bearer_slept (P : json -> Prop) l : Forall (bearer P) (map Slept l).
Proof. induction l; simpl; constructor; auto. exact I. Qed.

Lemma retry_loop_bearer_known self offer_name payload max_retries variant :
  forall rc w,
    known (access_token w) ->
    let out := run (retry_loop int_of_str self offer_name payload max_retries
                      variant rc) en w in
    exists evs,
      trace (snd out) = (trace w ++ evs)%list /\
      Forall (bearer known) evs /\
      known (access_token (snd out)).
Proof.
  induction variant as [| v IH]; intros rc w Hk; cbv zeta.
  - simpl retry_loop. rewrite run_after_loop.
    destruct (rc =? max_retries); simpl.
    + eexists. split; [reflexivity | split; [repeat constructor | exact Hk]].
    + exists []. rewrite app_nil_r. split; [reflexivity | split; [constructor | exact Hk]].
  - rewrite run_retry_loop.
    destruct (attempt_spec int_of_str self offer_name payload max_retries rc en w)
      as (c & evs1 & Hc & Htr & Hat).
    pose proof (attempt_cache int_of_str self offer_name payload en max_retries rc w)
      as [Ha _]. cbv zeta in Ha.
    pose proof (get_token_cache_known (token_manager self) w Hk) as Hk1.
    rewrite <- Ha in Hk1.
    assert (Hev : Forall (bearer known) evs1).
    { inversion Hat as [toks token r Ht G A S | toks token r txt Ht G A S T
                       | toks e Ht G | toks token e Ht G A]; subst;
        apply Forall_app; split; try (apply token_obs_bearer; exact Ht).
      - apply get_token_returns_cached in G. rewrite <- Ha in G.
        constructor; [simpl; rewrite <- G; exact Hk1 | repeat constructor].
      - apply get_token_returns_cached in G. rewrite <- Ha in G.
        constructor; [simpl; rewrite <- G; exact Hk1 | repeat constructor].
      - constructor; [exact I | apply Forall_bearer_slept].
      - apply get_token_returns_cached in G. rewrite <- Ha in G.
        constructor; [simpl; rewrite <- G; exact Hk1 |].
        constructor; [exact I | apply Forall_bearer_slept]. }
    destruct (run (attempt int_of_str self offer_name payload max_retries rc) en w)
      as [a w1]. cbn [fst snd] in *. subst a.
    destruct c as [ | | rc'].
    + exists evs1. auto.
    + rewrite run_after_loop. destruct (rc =? max_retries); simpl.
      * exists (evs1 ++ [Logged (OfferExhausted offer_name max_retries)])%list.
        rewrite Htr, <- app_assoc. split; [reflexivity | split; [| exact Hk1]].
        apply Forall_app. split; [exact Hev | repeat constructor].
      * exists evs1. auto.
    + destruct (IH rc' w1 Hk1) as (evs2 & T2 & S2 & K2).
      exists (evs1 ++ evs2)%list. rewrite T2, Htr, app_assoc.
      split; [reflexivity | split; [| exact K2]].
      apply Forall_app. split; assumption.
Qed.

End Provenance.

Section Bearer.

Variable int_of_str : string -> option Z.

(** X8: the token a creation request carries is never made up: it is
    the token that was cached when the job started, or the
    [access_token] of the body of a 200 answer of the token endpoint. *)
Theorem create_offer_bearer_from_endpoint self offer_number en w :
  exists evs,
    trace (snd (run (create_offer int_of_str self offer_number) en w))
      = (trace w ++ evs)%list /\
    Forall (bearer (fun v => v = access_token w \/ issued en v)) evs.
Proof.
  unfold create_offer.
  destruct (retry_loop_bearer_known int_of_str en (access_token w) self
              (offer_name_of offer_number)
              (get_offer_payload self (offer_name_of offer_number)) 3
              (Z.to_nat (3 - 0)) 0 w) as (evs & T & S & _).
  - left. reflexivity.
  - exists evs. split; [exact T | exact S].
Qed.

End Bearer.

(* ================================================================== *)
(** ** Offer names and the jobs of [main] *)
(* ================================================================== *)

Lemma decimal_str_of_Z z : decimal (str_of_Z z) = Some z.
Proof.
  unfold decimal, str_of_Z.
  rewrite NilZero.isi.
  - simpl. rewrite DecimalZ.of_to. reflexivity.
  - destruct z; simpl; try discriminate.
    intros H. injection H as H. exact (DecimalPos.Unsigned.to_uint_nonnil _ H).
  - destruct z; simpl; try discriminate.
    intros H. injection H as H. exact (DecimalPos.Unsigned.to_uint_nonnil _ H).
Qed.

Lemma str_of_Z_inj a b : str_of_Z a = str_of_Z b -> a = b.
Proof.
  intros H. apply (f_equal decimal) in H.
  rewrite !decimal_str_of_Z in H. injection H as H. exact H.
Qed.

Lemma append_inj_r (p s t : string) : (p ++ s)%string = (p ++ t)%string -> s = t.
Proof.
  induction p as [| c p IH]; simpl; intros H; [exact H |].
  injection H as H. auto.
Qed.

Lemma offer_name_of_inj a b : offer_name_of a = offer_name_of b -> a = b.
Proof.
  unfold offer_name_of. intros H. apply append_inj_r in H. apply str_of_Z_inj. exact H.
Qed.

(** X9: two different offer numbers give two different offer names, and
    two different documents, whichever creators build them. *)
Theorem different_offers_different_documents self self' a b :
  a <> b ->
  offer_name_of a <> offer_name_of b /\
  get_offer_payload self (offer_name_of a) <> get_offer_payload self' (offer_name_of b).
Proof.
  intros Hab. split.
  - intros H. apply Hab. apply offer_name_of_inj. exact H.
  - intros H. apply Hab. apply offer_name_of_inj.
    remember (offer_name_of a) as x. remember (offer_name_of b) as y.
    unfold get_offer_payload in H.
    injection H as H _. exact H.
Qed.

Lemma different_offers_different_documents_witness :
  offer_name_of 1 <> offer_name_of 2 /\
  get_offer_payload creator0 (offer_name_of 1) <> get_offer_payload creator0 (offer_name_of 2).
Proof.
  apply (different_offers_different_documents creator0 creator0 1 2). discriminate.
Defined.

Lemma NoDup_map_injective {A B : Type} (f : A -> B) (l : list A) :
  (forall x y, f x = f y -> x = y) -> NoDup l -> NoDup (map f l).
Proof.
  intros Hf H. induction H as [| x l Hx Hl IH]; simpl; constructor; [| exact IH].
  intros Hin. apply in_map_iff in Hin. destruct Hin as (y & Hy & Hin).
  apply Hf in Hy. subst y. contradiction.
Qed.

Section MainJobs.

Variable int_of_str : string -> option Z.
Variable environ : string -> option string.

(** [main] up to [gather], once its checks have passed. *)
Lemma run_main_valid en w n :
  validated int_of_str environ = Some n ->
  run (main int_of_str environ) en w =
  (inr (map (fun i => {| creator := creator_of environ; offer_number := Z.of_nat i |})
          (seq 0 (Z.to_nat n))),
   emit (Printed (starting_line n)) w).
Proof.
  unfold validated, main.
  destruct (all _); simpl negb; cbv iota; [| discriminate].
  unfold py_int_str. unfold_prog.
  destruct (int_of_str (the (environ "NUM_OFFERS"))) as [m |]; simpl; [| discriminate].
  destruct (m <=? 0); simpl; [discriminate |].
  intros H. injection H as ->. reflexivity.
Qed.

(** X10: once the checks have passed with [NUM_OFFERS] = [n], [main]
    hands [gather] exactly [n] jobs, numbered 0 to [n - 1] in this order,
    all on one creator that holds the credentials of the environment;
    no two of them create an offer of the same name. *)
Theorem main_jobs_are_numbered en w n :
  validated int_of_str environ = Some n ->
  exists coroutines,
    fst (run (main int_of_str environ) en w) = inr coroutines /\
    map offer_number coroutines = map Z.of_nat (seq 0 (Z.to_nat n)) /\
    Forall (fun c => creator c = creator_of environ) coroutines /\
    NoDup (map (fun c => offer_name_of (offer_number c)) coroutines).
Proof.
  intros Hv. rewrite (run_main_valid en w n Hv). eexists. split; [reflexivity |].
  split; [| split].
  - rewrite map_map. reflexivity.
  - apply Forall_forall. intros c Hc. apply in_map_iff in Hc.
    destruct Hc as (i & <- & _). reflexivity.
  - rewrite map_map. simpl. apply NoDup_map_injective; [| apply seq_NoDup].
    intros x y H. apply offer_name_of_inj in H. lia.
Qed.

(** X11: what [main] writes before its jobs start.  With a variable
    unset it raises at once and writes nothing; with all three set but an
    offer count that is no number or not positive, it logs the message of
    the [ValueError] it raises, once, and prints nothing; with a valid
    configuration it prints the starting line and logs nothing. *)
Theorem main_startup_output en w :
  ((unset (environ "MS_CLIENT_ID") \/ unset (environ "MS_CLIENT_SECRET") \/
    unset (environ "NUM_OFFERS")) ->
   exists e,
     run (main int_of_str environ) en w = (inl e, w) /\ exn_cls e = ValueError) /\
  (~ unset (environ "MS_CLIENT_ID") -> ~ unset (environ "MS_CLIENT_SECRET") ->
   ~ unset (environ "NUM_OFFERS") ->
   validated int_of_str environ = None ->
   exists e,
     run (main int_of_str environ) en w
       = (inl e, emit (Logged (InvalidNumOffers (exn_str e))) w) /\
     exn_cls e = ValueError) /\
  (forall n,
      validated int_of_str environ = Some n ->
      trace (snd (run (main int_of_str environ) en w))
        = (trace w ++ [Printed (starting_line n)])%list).
Proof.
  split; [| split].
  - intros H.
    assert (Hall : all [truthy_env (environ "MS_CLIENT_ID");
                        truthy_env (environ "MS_CLIENT_SECRET");
                        truthy_env (environ "NUM_OFFERS")] = false).
    { unfold all. simpl.
      destruct H as [H | [H | H]]; apply truthy_env_unset in H; rewrite H;
        repeat (destruct (truthy_env _)); reflexivity. }
    unfold main. rewrite Hall. simpl. eexists. split; reflexivity.
  - intros H1 H2 H3 Hv.
    rewrite <- truthy_env_unset in H1, H2, H3.
    apply not_false_is_true in H1, H2, H3.
    unfold validated in Hv. unfold main, all in *. simpl in *.
    rewrite H1, H2, H3 in *. simpl in *.
    unfold py_int_str. unfold_prog.
    destruct (int_of_str (the (environ "NUM_OFFERS"))) as [m |]; simpl.
    + destruct (m <=? 0); simpl; [| discriminate Hv].
      eexists (Raise ValueError _). split; reflexivity.
    + eexists (Raise ValueError _). split; reflexivity.
  - intros n Hv. rewrite (run_main_valid en w n Hv). reflexivity.
Qed.

End MainJobs.

Lemma main_jobs_are_numbered_witness :
  exists coroutines,
    fst (run (main decimal environ_two) env_500 init_world) = inr coroutines /\
    map offer_number coroutines = map Z.of_nat (seq 0 (Z.to_nat 2)) /\
    Forall (fun c => creator c = creator_of environ_two) coroutines /\
    NoDup (map (fun c => offer_name_of (offer_number c)) coroutines).
Proof.
  apply (main_jobs_are_numbered decimal environ_two env_500 init_world 2). reflexivity.
Defined.

Lemma main_startup_output_witness :
  (exists e,
      run (main decimal environ_no_secret) env_500 init_world = (inl e, init_world) /\
      exn_cls e = ValueError) /\
  (exists e,
      run (main decimal environ_zero) env_500 init_world
        = (inl e, emit (Logged (InvalidNumOffers (exn_str e))) init_world) /\
      exn_cls e = ValueError) /\
  trace (snd (run (main decimal environ_two) env_500 init_world))
    = (trace init_world ++ [Printed (starting_line 2)])%list.
Proof.
  destruct (main_startup_output decimal environ_no_secret env_500 init_world)
    as (A & _ & _).
  destruct (main_startup_output decimal environ_zero env_500 init_world)
    as (_ & B & _).
  destruct (main_startup_output decimal environ_two env_500 init_world)
    as (_ & _ & C).
  split; [| split].
  - apply A. right. left. left. reflexivity.
  - apply B; try (intros [H | H]; discriminate H). reflexivity.
  - apply C. reflexivity.
Defined.

(* ================================================================== *)
(** ** The start of a run *)
(* ================================================================== *)

Section Herd.

Variable int_of_str : string -> option Z.
Variable en : env.

(** A job that finds no token cached goes straight to the token
    endpoint and waits there. *)
Lemma advance_body_no_token c w :
  truthy (access_token w) = false ->
  exists rest,
    advance (body int_of_str c) en w =
    (Suspended rest,
     emit (TokenPosted (client_id (token_manager (creator c)))
             (client_secret (token_manager (creator c)))) w).
Proof.
  intros H. unfold body, create_offer. change (Z.to_nat (3 - 0)) with 3%nat.
  simpl retry_loop. unfold attempt, get_token. unfold_prog. simpl.
  rewrite H. simpl. eexists. reflexivity.
Qed.

Lemma start_no_token oc coroutines :
  forall w,
    truthy (access_token w) = false ->
    Forall (fun c => creator c = oc) coroutines ->
    exists pool w',
      start (map (body int_of_str) coroutines) en w = (pool, w') /\
      trace w' =
        (trace w ++ repeat (TokenPosted (client_id (token_manager oc))
                              (client_secret (token_manager oc)))
                      (List.length coroutines))%list /\
      Forall (fun t => is_done t = false) pool /\
      List.length pool = List.length coroutines.
Proof.
  induction coroutines as [| c cs IH]; intros w Hw Hc.
  - exists [], w. simpl. rewrite app_nil_r. repeat split. constructor.
  - inversion Hc as [| c0 cs0 Hc1 Hc2]; subst.
    destruct (advance_body_no_token c w Hw) as [rest Hadv].
    destruct (IH (emit (TokenPosted (client_id (token_manager (creator c)))
                          (client_secret (token_manager (creator c)))) w) Hw Hc2)
      as (pool & w' & Hs & Ht & Hd & Hl).
    exists (Suspended rest :: pool), w'.
    change (map (body int_of_str) (c :: cs))
      with (body int_of_str c :: map (body int_of_str) cs).
    change (start (body int_of_str c :: map (body int_of_str) cs) en w)
      with (let (t, w1) := advance (body int_of_str c) en w in
            let (ts, w2) := start (map (body int_of_str) cs) en w1 in (t :: ts, w2)).
    rewrite Hadv, Hs. split; [reflexivity |].
    split; [| split].
    + rewrite Ht. simpl. rewrite <- app_assoc. reflexivity.
    + constructor; [reflexivity | exact Hd].
    + simpl. rewrite Hl. reflexivity.
Qed.

Lemma first_raised_suspended {A : Type} (pool : list (task (result A))) :
  Forall (fun t => is_done t = false) pool -> first_raised pool = None.
Proof.
  intros H. induction H as [| t pool Ht Hp IH]; [reflexivity |].
  destruct t as [r | rest]; [discriminate Ht | exact IH].
Qed.

(** X12: every run starts with one credential exchange per job: when
    [gather] takes over, each of the [n] jobs has found the cache empty
    and posted its own exchange, and nothing else has happened yet. *)
Theorem main_starts_with_an_exchange_per_job environ n :
  validated int_of_str environ = Some n ->
  run_main int_of_str environ [] en =
  (Running,
   {| access_token := JNull; token_expires_at := S754_zero false; ticks := 0%nat;
      trace :=
        Printed (starting_line n)
          :: repeat (TokenPosted (the (environ "MS_CLIENT_ID"))
                       (the (environ "MS_CLIENT_SECRET"))) (Z.to_nat n) |}).
Proof.
  intros Hv. unfold run_main. rewrite (run_main_valid int_of_str environ en init_world n Hv).
  set (coroutines := map (fun i => {| creator := creator_of environ;
                                      offer_number := Z.of_nat i |})
                       (seq 0 (Z.to_nat n))).
  destruct (start_no_token (creator_of environ) coroutines
              (emit (Printed (starting_line n)) init_world) eq_refl)
    as (pool & w' & Hs & Ht & Hd & Hl).
  { apply Forall_forall. intros c Hc. apply in_map_iff in Hc.
    destruct Hc as (i & <- & _). reflexivity. }
  match goal with
  | |- context [start ?ps ?e ?w0] =>
      change (start ps e w0)
        with (start (map (body int_of_str) coroutines) en
                (emit (Printed (starting_line n)) init_world))
  end.
  rewrite Hs.
  assert (Hn : (0 < List.length pool)%nat).
  { rewrite Hl. unfold coroutines. rewrite length_map, length_seq.
    unfold validated in Hv. destruct (all _); [| discriminate].
    destruct (int_of_str _) as [m |]; [| discriminate].
    destruct (m <=? 0) eqn:Hm; [discriminate |]. injection Hv as <-.
    apply Z.leb_gt in Hm. lia. }
  simpl event_loop. rewrite (first_raised_suspended pool Hd).
  assert (Hnd : forallb is_done pool = false).
  { destruct Hd as [| t pool' Ht' Hp]; [simpl in Hn; lia |].
    simpl. rewrite Ht'. reflexivity. }
  rewrite Hnd. f_equal.
  assert (Hfields : forall cs w0 pool0 w1,
             start (map (body int_of_str) cs) en w0 = (pool0, w1) ->
             truthy (access_token w0) = false ->
             access_token w1 = access_token w0 /\
             token_expires_at w1 = token_expires_at w0 /\ ticks w1 = ticks w0).
  { induction cs as [| c cs IH]; intros w0 pool0 w1 H0 Hw0.
    - injection H0 as _ <-. auto.
    - change (map (body int_of_str) (c :: cs))
        with (body int_of_str c :: map (body int_of_str) cs) in H0.
      change (start (body int_of_str c :: map (body int_of_str) cs) en w0)
        with (let (t, w2) := advance (body int_of_str c) en w0 in
              let (ts, w3) := start (map (body int_of_str) cs) en w2 in (t :: ts, w3))
        in H0.
      destruct (advance_body_no_token c w0 Hw0) as [rest Hadv]. rewrite Hadv in H0.
      destruct (start (map (body int_of_str) cs) en _) as [ts w3] eqn:E.
      injection H0 as _ <-.
      destruct (IH _ _ _ E Hw0) as (A1 & A2 & A3). auto. }
  destruct (Hfields coroutines _ _ _ Hs eq_refl) as (A1 & A2 & A3).
  destruct w' as [a x t tr]. simpl in *. subst.
  unfold coroutines. rewrite length_map, length_seq. reflexivity.
Qed.

End Herd.

Lemma main_starts_with_an_exchange_per_job_witness :
  run_main decimal environ_two [] env_500 =
  (Running,
   {| access_token := JNull; token_expires_at := S754_zero false; ticks := 0%nat;
      trace := [Printed (starting_line 2); TokenPosted "app" "secret";
                TokenPosted "app" "secret"] |}).
Proof.
  apply (main_starts_with_an_exchange_per_job decimal env_500 environ_two 2). reflexivity.
Defined.

(* ================================================================== *)
(** ** Tasks that share the cache *)
(* ================================================================== *)

Section Overwrite.

Variable int_of_str : string -> option Z.
Variable tm : TokenManager.

(** X13: [get_token] does not look at the cache again after its
    exchange.  A caller suspended on an exchange that grants [v] for [T]
    seconds, once woken, stores [v] over whatever is cached by then, even
    a token that is still valid, and counts the [T] seconds from the time
    it is woken, not from the time it posted the exchange. *)
Theorem woken_caller_overwrites_cache en w v T :
  cache_valid w (clock en (ticks w)) = false ->
  granted int_of_str
    (token_endpoint en (token_posts (trace w)) (client_id tm) (client_secret tm))
    = Some (v, T) ->
  exists rest,
    fst (advance (get_token int_of_str tm) en w) = Suspended rest /\
    forall en' w',
      advance rest en' w' =
      (Done (inr v),
       {| access_token := v;
          token_expires_at := float_add (clock en' (ticks w')) (nearest T);
          ticks := S (ticks w');
          trace := trace w' |}).
Proof.
  unfold cache_valid, granted. intros Hc Hg.
  unfold get_token. unfold_prog. simpl.
  destruct (truthy (access_token w)) eqn:Ht; simpl in *; [rewrite Hc; simpl |].
  all: eexists; split; [reflexivity |]; intros en' w'.
  all: destruct (token_endpoint en _ _ _) as [e | r]; [discriminate |]; simpl.
  all: destruct (status r =? 200); [| discriminate]; simpl.
  all: destruct (json_body r) as [e | body]; [discriminate |]; simpl.
  all: destruct (subscript body "access_token") as [e | v']; [discriminate |]; simpl.
  all: destruct (subscript body "expires_in") as [e | x]; [discriminate |]; simpl.
  all: destruct (py_int int_of_str x) as [e | n']; [discriminate |]; simpl.
  all: destruct (float_of_int n') as [e | s] eqn:Hs; [discriminate |]; simpl.
  all: apply float_of_int_inr in Hs; injection Hg as -> ->; subst s; reflexivity.
Qed.

End Overwrite.

Lemma woken_caller_overwrites_cache_witness :
  exists rest,
    fst (advance (get_token decimal tm0) env_500 init_world) = Suspended rest /\
    advance rest env_later world_with_token =
    (Done (inr (JStr "tok")),
     {| access_token := JStr "tok";
        token_expires_at := float_add (clock env_later 0) (nearest 3600);
        ticks := 1%nat;
        trace := [] |}).
Proof.
  destruct (woken_caller_overwrites_cache decimal tm0 env_500 init_world (JStr "tok") 3600)
    as (rest & H1 & H2); [reflexivity | reflexivity |].
  exists rest. split; [exact H1 | apply H2].
Defined.

(* ================================================================== *)
(** ** What a whole run shows *)
(* ================================================================== *)

Section JobEvents.

Variable int_of_str : string -> option Z.
Variable self : OfferCreator.
Variable offer_number : Z.






End JobEvents.

Section PoolShows.

Variable R : Type.
Variable PO : obs -> Prop.
Variable en : env.




End PoolShows.

Section LoopShows.

Variable A : Type.
Variable PO : obs -> Prop.
Variable en : env.


End LoopShows.

Section RunShows.

Variable int_of_str : string -> option Z.
Variable environ : string -> option string.


End RunShows.


(* ================================================================== *)
(** ** How much a run can send *)
(* ================================================================== *)

Lemma spends_mono {R : Type} c d (p : prog R) :
  spends c d p -> forall d', (d <= d')%nat -> spends c d' p.
Proof.
  intros H. induction H as [d r | d X e k He Hk IH | d X e k Hk IH]; intros d' Hd.
  - constructor.
  - apply spends_free; auto.
  - destruct d' as [| d']; [lia |]. apply spends_one. intros x. apply IH. lia.
Qed.

Lemma spends_bind {A B : Type} c a b (p : prog A) (f : A -> prog B) :
  spends c a p -> (forall x, spends c b (f x)) -> spends c (a + b) (bind p f).
Proof.
  intros H Hf. induction H as [d r | d X e k He Hk IH | d X e k Hk IH]; simpl.
  - apply spends_mono with (d := b); [apply Hf | lia].
  - apply spends_free; auto.
  - apply spends_one; auto.
Qed.

Ltac spends_step :=
  match goal with
  | |- spends _ _ (Ret _) => apply spends_ret
  | |- spends _ _ (Vis _ _) =>
      first
        [ apply spends_free;
          [ solve [ let o := fresh "o" in
                    let Ho := fresh "Ho" in
                    intros o Ho; simpl in Ho;
                    first [discriminate Ho | injection Ho as <-; reflexivity] ]
          | intros ? ]
        | apply spends_one; intros ? ]
  | |- spends _ _ (match ?x with _ => _ end) => destruct x eqn:?
  | |- spends _ _ (bind ?p _) =>
      match p with context [match ?x with _ => _ end] => destruct x eqn:? end
  end; simpl.

Section Spending.

Variable int_of_str : string -> option Z.

Lemma get_token_spends_exchange tm : spends is_token_post 1 (get_token int_of_str tm).
Proof. unfold get_token. unfold_prog. simpl. repeat spends_step. Qed.

Lemma get_token_spends_no_request tm : spends is_offer_post 0 (get_token int_of_str tm).
Proof. unfold get_token. unfold_prog. simpl. repeat spends_step. Qed.

Lemma attempt_spends self offer_name payload max_retries rc :
  spends is_token_post 1 (attempt int_of_str self offer_name payload max_retries rc) /\
  spends is_offer_post 1 (attempt int_of_str self offer_name payload max_retries rc).
Proof.
  unfold attempt, try_except, bindM. split.
  - apply (spends_bind _ 1 0).
    + apply (spends_bind _ 1 0); [apply get_token_spends_exchange |].
      intros [e | token]; [apply spends_ret |].
      unfold_prog. simpl. repeat spends_step.
    + intros [e | c]; [| apply spends_ret].
      unfold_prog. simpl. repeat spends_step.
  - apply (spends_bind _ 1 0).
    + apply (spends_bind _ 0 1); [apply get_token_spends_no_request |].
      intros [e | token]; [apply spends_ret |].
      unfold_prog. simpl. repeat spends_step.
    + intros [e | c]; [| apply spends_ret].
      unfold_prog. simpl. repeat spends_step.
Qed.

Lemma after_loop_spends c offer_name max_retries rc :
  (forall r, c (Logged r) = false) ->
  spends c 0 (after_loop offer_name max_retries rc).
Proof.
  intros Hc. unfold after_loop. unfold_prog.
  destruct (rc =? max_retries); [| apply spends_ret].
  apply spends_free; [| intros x; apply spends_ret].
  intros o Ho. simpl in Ho. injection Ho as <-. apply Hc.
Qed.

Lemma retry_loop_spends c self offer_name payload max_retries variant :
  (forall r, c (Logged r) = false) ->
  (forall rc, spends c 1 (attempt int_of_str self offer_name payload max_retries rc)) ->
  forall rc,
    spends c variant
      (retry_loop int_of_str self offer_name payload max_retries variant rc).
Proof.
  intros Hc Hat. induction variant as [| v IH]; intros rc; simpl retry_loop.
  - apply after_loop_spends. exact Hc.
  - unfold bindM. apply (spends_bind c 1 v); [apply Hat |].
    intros [e | [ | | rc']].
    + apply spends_ret.
    + apply spends_ret.
    + apply spends_mono with (d := 0%nat); [apply after_loop_spends; exact Hc | lia].
    + apply IH.
Qed.

(** A job posts at most three exchanges and three creation requests. *)
Lemma body_spends c :
  spends is_token_post 3 (body int_of_str c) /\
  spends is_offer_post 3 (body int_of_str c).
Proof.
  unfold body, create_offer. change (Z.to_nat (3 - 0)) with 3%nat.
  split; apply retry_loop_spends; try reflexivity; intros rc; apply attempt_spends.
Qed.

End Spending.

Section Budget.

Variable R : Type.
Variable c : obs -> bool.
Variable en : env.

Lemma count_app tr1 tr2 : count c (tr1 ++ tr2) = (count c tr1 + count c tr2)%nat.
Proof. unfold count. rewrite filter_app. apply length_app. Qed.

Lemma handle_count {X : Type} (e : event X) w :
  (count c (trace (snd (handle e en w))) <= Datatypes.S (count c (trace w)))%nat /\
  ((forall o, observe e = Some o -> c o = false) ->
   count c (trace (snd (handle e en w))) = count c (trace w)).
Proof.
  rewrite handle_trace, count_app.
  destruct (observe e) as [o |]; unfold count; simpl.
  - destruct (c o) eqn:Ho; simpl; split; try lia.
    intros H. specialize (H o eq_refl). congruence.
  - split; [lia | intros _; lia].
Qed.

(** A stretch of a task takes what it shows from what the task owes. *)
Lemma advance_spends d (p : prog R) :
  spends c d p ->
  forall w,
  exists d',
    owes c d' (fst (advance p en w)) /\
    (count c (trace (snd (advance p en w))) + d' <= count c (trace w) + d)%nat.
Proof.
  intros H. induction H as [d r | d X e k He Hk IH | d X e k Hk IH]; intros w; simpl.
  - exists 0%nat. split; [exact I | lia].
  - pose proof (handle_count e w) as [_ Hh]. specialize (Hh He).
    destruct (handle e en w) as [x w1]. simpl in Hh.
    destruct (suspends e); simpl.
    + exists d. split; [apply Hk | lia].
    + destruct (IH x w1) as (d' & Ho & Hle). exists d'. split; [exact Ho | lia].
  - pose proof (handle_count e w) as [Hh _].
    destruct (handle e en w) as [x w1]. simpl in Hh.
    destruct (suspends e); simpl.
    + exists d. split; [apply Hk | lia].
    + destruct (IH x w1) as (d' & Ho & Hle). exists d'. split; [exact Ho | lia].
Qed.

Lemma start_spends d (ps : list (prog R)) :
  Forall (spends c d) ps ->
  forall w,
  exists ds,
    Forall2 (owes c) ds (fst (start ps en w)) /\
    (count c (trace (snd (start ps en w))) + list_sum ds
     <= count c (trace w) + d * List.length ps)%nat.
Proof.
  intros H. induction H as [| p ps Hp Hps IH]; intros w.
  - exists []. simpl. split; [constructor | lia].
  - change (start (p :: ps) en w)
      with (let (t, w1) := advance p en w in
            let (ts, w2) := start ps en w1 in (t :: ts, w2)).
    destruct (advance_spends d p Hp w) as (d1 & H1 & L1).
    destruct (advance p en w) as [t w1].
    destruct (IH w1) as (ds & H2 & L2).
    destruct (start ps en w1) as [ts w2]. cbn [fst snd] in *.
    exists (d1 :: ds). split; [constructor; assumption |].
    simpl. lia.
Qed.

Lemma budgets_replace ds (pool : list (task R)) :
  Forall2 (owes c) ds pool ->
  forall i t,
    nth_error pool i = Some t ->
    exists d,
      owes c d t /\
      forall d' t',
        owes c d' t' ->
        exists ds',
          Forall2 (owes c) ds' (replace i t' pool) /\
          (list_sum ds' + d = list_sum ds + d')%nat.
Proof.
  intros H. induction H as [| d0 t0 ds pool H0 H IH]; intros i t Hn.
  - destruct i; discriminate Hn.
  - destruct i as [| i]; simpl in Hn.
    + injection Hn as <-. exists d0. split; [exact H0 |].
      intros d' t' H'. exists (d' :: ds). split; [constructor; assumption |].
      simpl. lia.
    + destruct (IH i t Hn) as (d & Hd & Hrep).
      exists d. split; [exact Hd |].
      intros d' t' H'. destruct (Hrep d' t' H') as (ds' & F & S).
      exists (d0 :: ds'). split; [constructor; assumption |].
      simpl. lia.
Qed.

Lemma resume_spends i ds (pool : list (task R)) w :
  Forall2 (owes c) ds pool ->
  exists ds',
    Forall2 (owes c) ds' (fst (resume i pool en w)) /\
    (count c (trace (snd (resume i pool en w))) + list_sum ds'
     <= count c (trace w) + list_sum ds)%nat.
Proof.
  intros H. unfold resume.
  destruct (nth_error pool i) as [[r | p] |] eqn:E; simpl;
    try (exists ds; split; [exact H | lia]).
  destruct (budgets_replace ds pool H i (Suspended p) E) as (d & Hd & Hrep).
  destruct (advance_spends d p Hd w) as (d' & Ho & Hle).
  destruct (advance p en w) as [t w1]. cbn [fst snd] in *.
  destruct (Hrep d' t Ho) as (ds' & F & S).
  exists ds'. split; [exact F | lia].
Qed.

End Budget.

Section LoopBudget.

Variable A : Type.
Variable c : obs -> bool.
Variable en : env.

Lemma event_loop_spends order :
  forall ds (pool : list (task (result A))) w,
    Forall2 (owes c) ds pool ->
    (count c (trace (snd (event_loop order pool en w)))
     <= count c (trace w) + list_sum ds)%nat.
Proof.
  induction order as [| i order IH]; intros ds pool w H; simpl.
  - destruct (first_raised pool); [| destruct (forallb is_done pool)]; simpl; lia.
  - destruct (first_raised pool); [simpl; lia |].
    destruct (forallb is_done pool); [simpl; lia |].
    destruct (resume_spends (result A) c en i ds pool w H) as (ds' & F & L).
    unfold result in *.
    destruct (resume i pool en w) as [pool' w']. cbn [fst snd] in *.
    specialize (IH ds' pool' w' F). lia.
Qed.

End LoopBudget.

Section RunBudget.

Variable int_of_str : string -> option Z.
Variable environ : string -> option string.

(** X15: whatever the endpoints answer and in whatever order the jobs
    are woken, a run of [n] jobs posts at most [3 n] creation requests
    and at most [3 n] credential exchanges. *)
Theorem run_sends_at_most_three_per_job order en n :
  validated int_of_str environ = Some n ->
  let tr := trace (snd (run_main int_of_str environ order en)) in
  (List.length (offer_posts tr) <= 3 * Z.to_nat n)%nat /\
  (token_posts tr <= 3 * Z.to_nat n)%nat.
Proof.
  intros Hv tr. subst tr. unfold run_main.
  rewrite (run_main_valid int_of_str environ en init_world n Hv).
  set (coroutines := map (fun i => {| creator := creator_of environ;
                                      offer_number := Z.of_nat i |})
                       (seq 0 (Z.to_nat n))).
  set (w0 := emit (Printed (starting_line n)) init_world).
  set (ps := map (body int_of_str) coroutines).
  assert (Hlen : List.length ps = Z.to_nat n).
  { unfold ps, coroutines. rewrite !length_map, length_seq. reflexivity. }
  assert (Hbound : forall c,
             count c (trace w0) = 0%nat ->
             Forall (spends c 3) ps ->
             (count c (trace (snd (let (pool, w') := start ps en w0 in
                                   event_loop order pool en w')))
              <= 3 * Z.to_nat n)%nat).
  { intros c H0 Hps.
    destruct (start_spends (result unit) c en 3 ps Hps w0) as (ds & F & L).
    unfold M, result in *.
    destruct (start ps en w0) as [pool w1]. cbn [fst snd] in *.
    pose proof (event_loop_spends unit c en order ds pool w1 F) as L2.
    unfold result in *. lia. }
  split.
  - apply (Hbound is_offer_post); [reflexivity |].
    apply Forall_forall. intros p Hp. apply in_map_iff in Hp.
    destruct Hp as (c & <- & _). apply body_spends.
  - apply (Hbound is_token_post); [reflexivity |].
    apply Forall_forall. intros p Hp. apply in_map_iff in Hp.
    destruct Hp as (c & <- & _). apply body_spends.
Qed.

End RunBudget.

Lemma run_sends_at_most_three_per_job_witness :
  let tr := trace (snd (run_main decimal environ_two [0; 1; 0; 1]%nat env_timeout)) in
  (List.length (offer_posts tr) <= 3 * Z.to_nat 2)%nat /\
  (token_posts tr <= 3 * Z.to_nat 2)%nat.
Proof.
  apply (run_sends_at_most_three_per_job decimal environ_two [0; 1; 0; 1]%nat
           env_timeout 2).
  reflexivity.
Defined.

(* ================================================================== *)
(** ** A run in which nothing fails *)
(* ================================================================== *)

Lemma resume_all_app {R : Type} en l1 l2 :
  forall (pool : list (task R)) w,
    resume_all (l1 ++ l2) pool en w =
    resume_all l2 (fst (resume_all l1 pool en w)) en (snd (resume_all l1 pool en w)).
Proof.
  induction l1 as [| i l1 IH]; intros pool w; [reflexivity |].
  simpl. destruct (resume i pool en w) as [pool' w']. apply IH.
Qed.

Section LoopWorld.

Variable A : Type.
Variable en : env.

(** When no task can raise, the world [gather] leaves is the one the
    wake-ups of [order] make. *)
Lemma event_loop_world order :
  forall (pool : list (task (result A))) w,
    Forall never_raises pool ->
    snd (event_loop order pool en w) = snd (resume_all order pool en w).
Proof.
  induction order as [| i order IH]; intros pool w H; simpl;
    rewrite (first_raised_none A pool H).
  - destruct (forallb is_done pool); reflexivity.
  - destruct (forallb is_done pool) eqn:D.
    + rewrite (resume_done (result A) en i pool w D).
      rewrite (resume_all_done (result A) en order pool w D). reflexivity.
    + pose proof (resume_never_raises A en i pool w H) as H1.
      unfold result in *.
      destruct (resume i pool en w) as [pool' w']. apply IH. exact H1.
Qed.

End LoopWorld.

Section Round.

Variable en : env.
Variable P Q : coroutine -> task (result unit) -> Prop.
Variable E : coroutine -> list obs -> Prop.

Hypothesis step :
  forall c t,
    P c t ->
    exists rest,
      t = Suspended rest /\
      forall w,
      exists evs,
        trace (snd (advance rest en w)) = (trace w ++ evs)%list /\
        E c evs /\ Q c (fst (advance rest en w)).

(** One round of wake-ups takes every task from stage [P] to stage [Q];
    the trace grows by what each task shows on the way, in order. *)
Lemma round_stage back :
  forall cs_back front cs_front w,
    Forall2 Q cs_front front ->
    Forall2 P cs_back back ->
    let out := resume_all (seq (List.length front) (List.length back))
                 (front ++ back) en w in
    Forall2 Q (cs_front ++ cs_back) (fst out) /\
    exists evss,
      Forall2 E cs_back evss /\
      trace (snd out) = (trace w ++ List.concat evss)%list.
Proof.
  induction back as [| t back IH]; intros cs_back front cs_front w Hf Hb; cbv zeta.
  - inversion Hb; subst. simpl. rewrite !app_nil_r. split; [exact Hf |].
    exists []. simpl. rewrite app_nil_r. split; [constructor | reflexivity].
  - inversion Hb as [| c t0 cs back0 Hc Hcs]; subst.
    destruct (step c t Hc) as (rest & -> & Hrest).
    destruct (Hrest w) as (evs & Ht & He & Hq).
    assert (Hres : resume (List.length front) (front ++ Suspended rest :: back) en w
                   = ((front ++ fst (advance rest en w) :: back)%list,
                      snd (advance rest en w))).
    { unfold resume.
      assert (Hn : nth_error (front ++ Suspended rest :: back) (List.length front)
                   = Some (Suspended rest)).
      { rewrite nth_error_app2 by lia. rewrite Nat.sub_diag. reflexivity. }
      unfold result in *. rewrite Hn.
      destruct (advance rest en w) as [t' w'].
      rewrite (replace_middle (exn + unit) front (Suspended rest) t' back).
      reflexivity. }
    simpl seq. cbn [resume_all]. rewrite Hres.
    specialize (IH cs (front ++ [fst (advance rest en w)])%list
                  (cs_front ++ [c])%list (snd (advance rest en w))).
    rewrite length_app, Nat.add_1_r, <- !app_assoc in IH. simpl in IH.
    destruct IH as [IH1 (evss & IH2 & IH3)].
    + apply Forall2_app; [exact Hf | constructor; [exact Hq | constructor]].
    + exact Hcs.
    + split; [exact IH1 |].
      exists (evs :: evss). split; [constructor; assumption |].
      rewrite IH3, Ht. simpl. rewrite <- app_assoc. reflexivity.
Qed.

End Round.

Section HappyPath.

Variable int_of_str : string -> option Z.
Variable en : env.

Hypothesis grants : token_service_ok int_of_str en.
Hypothesis accepts : forall i, accepts_at en i.

Lemma advance_body_granted c w :
  truthy (access_token w) = false ->
  exists t,
    advance (body int_of_str c) en w =
      (t, emit (TokenPosted (client_id (token_manager (creator c)))
                 (client_secret (token_manager (creator c)))) w) /\
    waits_for_token en c t.
Proof.
  intros Hw.
  pose proof (grants (token_posts (trace w)) (client_id (token_manager (creator c)))
                (client_secret (token_manager (creator c)))) as Hg.
  unfold granted in Hg.
  unfold body, create_offer. change (Z.to_nat (3 - 0)) with 3%nat.
  simpl retry_loop. unfold attempt, get_token. unfold_prog. simpl.
  rewrite Hw. simpl.
  eexists. split; [reflexivity |].
  eexists. split; [reflexivity |]. intros w1.
  destruct (token_endpoint en _ _ _) as [e | r]; [contradiction Hg; reflexivity |].
  destruct (status r =? 200); [| contradiction Hg; reflexivity].
  destruct (json_body r) as [e | body]; [contradiction Hg; reflexivity |].
  destruct (subscript body "access_token") as [e | v]; [contradiction Hg; reflexivity |].
  destruct (subscript body "expires_in") as [e | x]; [contradiction Hg; reflexivity |].
  destruct (py_int int_of_str x) as [e | n]; [contradiction Hg; reflexivity |].
  destruct (float_of_int n) as [e | seconds]; [contradiction Hg; reflexivity |].
  simpl. exists v. split; [reflexivity |].
  eexists. split; [reflexivity |]. intros w2.
  match goal with
  | |- context [offer_endpoint en ?i ?u ?t ?p] =>
      destruct (accepts i u t p) as (r2 & -> & Hs)
  end.
  simpl. rewrite Hs. reflexivity.
Qed.

Lemma start_granted oc coroutines :
  forall w,
    truthy (access_token w) = false ->
    Forall (fun c => creator c = oc) coroutines ->
    exists pool w',
      start (map (body int_of_str) coroutines) en w = (pool, w') /\
      Forall2 (waits_for_token en) coroutines pool /\
      trace w' =
        (trace w ++ repeat (TokenPosted (client_id (token_manager oc))
                              (client_secret (token_manager oc)))
                      (List.length coroutines))%list.
Proof.
  induction coroutines as [| c cs IH]; intros w Hw Hc.
  - exists [], w. simpl. rewrite app_nil_r. repeat split. constructor.
  - inversion Hc as [| c0 cs0 Hc1 Hc2]; subst.
    destruct (advance_body_granted c w Hw) as (t & Hadv & Ht).
    destruct (IH (emit (TokenPosted (client_id (token_manager (creator c)))
                          (client_secret (token_manager (creator c)))) w) Hw Hc2)
      as (pool & w' & Hs & Hp & Htr).
    exists (t :: pool), w'.
    change (map (body int_of_str) (c :: cs))
      with (body int_of_str c :: map (body int_of_str) cs).
    change (start (body int_of_str c :: map (body int_of_str) cs) en w)
      with (let (t, w1) := advance (body int_of_str c) en w in
            let (ts, w2) := start (map (body int_of_str) cs) en w1 in (t :: ts, w2)).
    rewrite Hadv, Hs. split; [reflexivity | split; [constructor; assumption |]].
    rewrite Htr. simpl. rewrite <- app_assoc. reflexivity.
Qed.

Lemma step_to_request c t :
  waits_for_token en c t ->
  exists rest,
    t = Suspended rest /\
    forall w,
    exists evs,
      trace (snd (advance rest en w)) = (trace w ++ evs)%list /\
      posts_request c evs /\ waits_for_answer en c (fst (advance rest en w)).
Proof.
  intros (rest & -> & H). exists rest. split; [reflexivity |]. intros w.
  destruct (H w) as (token & Ht & Hq).
  eexists. split; [exact Ht | split; [exists token; reflexivity | exact Hq]].
Qed.

Lemma step_to_success c t :
  waits_for_answer en c t ->
  exists rest,
    t = Suspended rest /\
    forall w,
    exists evs,
      trace (snd (advance rest en w)) = (trace w ++ evs)%list /\
      logs_success c evs /\ has_returned c (fst (advance rest en w)).
Proof.
  intros (rest & -> & H). exists rest. split; [reflexivity |]. intros w.
  rewrite (H w). eexists. split; [reflexivity | split; reflexivity].
Qed.

End HappyPath.

Lemma requests_summary cs evss :
  Forall2 posts_request cs evss ->
  token_posts (List.concat evss) = 0%nat /\
  List.length (offer_posts (List.concat evss)) = List.length cs /\
  sleeps (List.concat evss) = [] /\
  records (List.concat evss) = [].
Proof.
  intros H. induction H as [| c evs cs evss (token & ->) H IH]; simpl.
  - repeat split.
  - destruct IH as (A & B & C & D). unfold token_posts in *. simpl.
    repeat split; auto.
Qed.

Lemma successes_summary cs evss :
  Forall2 logs_success cs evss ->
  token_posts (List.concat evss) = 0%nat /\
  offer_posts (List.concat evss) = [] /\
  sleeps (List.concat evss) = [] /\
  records (List.concat evss)
    = map (fun c => OfferCreated (offer_name_of (offer_number c))) cs.
Proof.
  intros H. induction H as [| c evs cs evss Hc H IH]; simpl.
  - repeat split.
  - destruct IH as (A & B & C & D). unfold logs_success in Hc. subst evs.
    unfold token_posts in *. simpl. rewrite D. repeat split; auto.
Qed.

Lemma exchanges_summary cid cs n :
  token_posts (repeat (TokenPosted cid cs) n) = n /\
  offer_posts (repeat (TokenPosted cid cs) n) = [] /\
  sleeps (repeat (TokenPosted cid cs) n) = [] /\
  records (repeat (TokenPosted cid cs) n) = [].
Proof.
  induction n as [| n (A & B & C & D)]; simpl; [repeat split |].
  unfold token_posts in *. simpl. rewrite A. repeat split; auto.
Qed.

Lemma returned_done cs pool :
  Forall2 has_returned cs pool -> forallb is_done pool = true.
Proof.
  intros H. induction H as [| c t cs pool Ht H IH]; [reflexivity |].
  unfold has_returned in Ht. subst t. exact IH.
Qed.

Section HappyRun.

Variable int_of_str : string -> option Z.
Variable environ : string -> option string.

(** X16: when every exchange grants a token and every creation request
    is answered 202, two rounds of wake-ups end the run: [gather]
    returns, each of the [n] jobs has posted one exchange of its own and
    one creation request, none has slept, and the log holds the success
    records of the offers 0 to [n - 1], in this order, and nothing else. *)
Theorem run_where_nothing_fails en n :
  validated int_of_str environ = Some n ->
  token_service_ok int_of_str en ->
  (forall i, accepts_at en i) ->
  let out := run_main int_of_str environ (round_robin (Z.to_nat n) 2) en in
  fst out = Returned /\
  token_posts (trace (snd out)) = Z.to_nat n /\
  List.length (offer_posts (trace (snd out))) = Z.to_nat n /\
  sleeps (trace (snd out)) = [] /\
  records (trace (snd out))
    = map (fun i => OfferCreated (offer_name_of (Z.of_nat i))) (seq 0 (Z.to_nat n)).
Proof.
  intros Hv Hg Ha out. subst out. unfold run_main.
  rewrite (run_main_valid int_of_str environ en init_world n Hv).
  set (coroutines := map (fun i => {| creator := creator_of environ;
                                      offer_number := Z.of_nat i |})
                       (seq 0 (Z.to_nat n))).
  set (w0 := emit (Printed (starting_line n)) init_world).
  assert (Hlen : List.length coroutines = Z.to_nat n).
  { unfold coroutines. rewrite length_map, length_seq. reflexivity. }
  destruct (start_granted int_of_str en Hg Ha (creator_of environ) coroutines w0 eq_refl)
    as (pool & w1 & Hs & Hp & Ht1).
  { apply Forall_forall. intros c Hc. apply in_map_iff in Hc.
    destruct Hc as (i & <- & _). reflexivity. }
  assert (Hnr : Forall never_raises (fst (start (map (body int_of_str) coroutines) en w0))).
  { apply start_never_raises. apply Forall_forall. intros p Hp0.
    apply in_map_iff in Hp0. destruct Hp0 as (c & <- & _). apply body_never_raises. }
  match goal with
  | |- context [start ?ps ?e ?w] =>
      change (start ps e w) with (start (map (body int_of_str) coroutines) en w0)
  end.
  rewrite Hs in *. cbn [fst] in Hnr.
  assert (Hpl : List.length pool = Z.to_nat n).
  { rewrite <- Hlen. symmetry. eapply Forall2_length. exact Hp. }
  pose proof (round_stage en (waits_for_token en) (waits_for_answer en) posts_request
                (step_to_request en) pool coroutines [] [] w1
                (Forall2_nil _) Hp) as [Hq1 (evss1 & He1 & Ht2)].
  simpl in Hq1, Ht2.
  set (r1 := resume_all (seq 0 (List.length pool)) pool en w1) in *.
  assert (Hl1 : List.length (fst r1) = List.length pool).
  { rewrite <- (Forall2_length Hq1). exact (Forall2_length Hp). }
  pose proof (round_stage en (waits_for_answer en) has_returned logs_success
                (step_to_success en) (fst r1) coroutines [] [] (snd r1)
                (Forall2_nil _) Hq1) as [Hq2 (evss2 & He2 & Ht3)].
  simpl in Hq2, Ht3. rewrite Hl1 in Hq2, Ht3.
  assert (Hall : resume_all (round_robin (Z.to_nat n) 2) pool en w1
                 = resume_all (seq 0 (List.length pool)) (fst r1) en (snd r1)).
  { simpl round_robin. rewrite app_nil_r, resume_all_app, <- Hpl. reflexivity. }
  split.
  - rewrite (event_loop_resume_all unit en _ pool w1 Hnr), Hall.
    rewrite (returned_done _ _ Hq2). reflexivity.
  - rewrite (event_loop_world unit en _ pool w1 Hnr), Hall, Ht3, Ht2, Ht1.
    unfold w0. simpl trace.
    destruct (requests_summary _ _ He1) as (A1 & A2 & A3 & A4).
    destruct (successes_summary _ _ He2) as (B1 & B2 & B3 & B4).
    destruct (exchanges_summary (client_id (token_manager (creator_of environ)))
                (client_secret (token_manager (creator_of environ)))
                (List.length coroutines)) as (C1 & C2 & C3 & C4).
    rewrite !token_posts_app, !offer_posts_app, !length_app, !sleeps_app, !records_app.
    rewrite A1, A2, A3, A4, B1, B2, B3, B4, C1, C2, C3, C4, Hlen.
    unfold token_posts. simpl.
    split; [lia | split; [lia | split; [reflexivity |]]].
    unfold coroutines. rewrite map_map. reflexivity.
Qed.

End HappyRun.

Lemma run_where_nothing_fails_witness :
  let out := run_main decimal environ_two (round_robin (Z.to_nat 2) 2) env_all_good in
  fst out = Returned /\
  token_posts (trace (snd out)) = Z.to_nat 2 /\
  List.length (offer_posts (trace (snd out))) = Z.to_nat 2 /\
  sleeps (trace (snd out)) = [] /\
  records (trace (snd out))
    = map (fun i => OfferCreated (offer_name_of (Z.of_nat i))) (seq 0 (Z.to_nat 2)).
Proof.
  apply (run_where_nothing_fails decimal environ_two env_all_good 2).
  - reflexivity.
  - apply decimal_service_ok. intros i cid cs. exists "tok". reflexivity.
  - intros i url token payload. eexists. split; reflexivity.
Defined.

Lemma get_token_without_token_keeps_cache_witness :
  let out := run (get_token decimal tm0) env_token_down init_world in
  (exists e, fst out = inl e) /\
  access_token (snd out) = access_token init_world /\
  token_expires_at (snd out) = token_expires_at init_world.
Proof.
  apply (get_token_without_token_keeps_cache decimal tm0 env_token_down init_world).
  - reflexivity.
  - exact I.
Defined.

Lemma get_token_reports_status_and_body_witness :
  let out := run (get_token decimal tm0) env_token_401 init_world in
  fst out =
    inl (Raise PlainException "Failed to get token. Status: 401, Error: invalid_client") /\
  records (trace (snd out)) =
    (records (trace init_world)
       ++ [TokenError "Failed to get token. Status: 401, Error: invalid_client"])%list.
Proof.
  apply (get_token_reports_status_and_body decimal tm0 env_token_401 init_world
           {| status := 401; json_body := inl (Raise ValueError "not json");
              text := inr "invalid_client" |} "invalid_client").
  - reflexivity.
  - reflexivity.
  - discriminate.
  - reflexivity.
Defined.

(* ================================================================== *)
(** ** An expiry no float can hold *)
(* ================================================================== *)

(** The ints that convert end just below [2 ^ 1024 - 2 ^ 970], which is
    half way between the largest double and [2 ^ 1024]. *)
Lemma float_of_int_largest :
  float_of_int (2 ^ 1024 - 2 ^ 970 - 1) = inr (S754_finite false (2 ^ 53 - 1) 971) /\
  float_of_int (2 ^ 1024 - 2 ^ 970)
    = inl (Raise OverflowError "int too large to convert to float") /\
  float_of_int (- (2 ^ 1024 - 2 ^ 970))
    = inl (Raise OverflowError "int too large to convert to float").
Proof. vm_compute. repeat split. Qed.

Section Overflow.

Variable int_of_str : string -> option Z.
Variable tm : TokenManager.

(** X17: when the exchange grants a token whose [expires_in] reads as an
    int too large for a float, the addition that computes the expiry
    raises [OverflowError] after the token has been stored: [get_token]
    logs and re-raises it, the new token is in the cache and the expiry
    is the old one. *)
Theorem get_token_expiry_beyond_float en w r body v x n e :
  cache_valid w (clock en (ticks w)) = false ->
  token_endpoint en (token_posts (trace w)) (client_id tm) (client_secret tm) = inr r ->
  status r = 200 ->
  json_body r = inr body ->
  subscript body "access_token" = inr v ->
  subscript body "expires_in" = inr x ->
  py_int int_of_str x = inr n ->
  float_of_int n = inl e ->
  let out := run (get_token int_of_str tm) en w in
  e = Raise OverflowError "int too large to convert to float" /\
  fst out = inl e /\
  access_token (snd out) = v /\
  token_expires_at (snd out) = token_expires_at w /\
  trace (snd out) =
    (trace w ++ [TokenPosted (client_id tm) (client_secret tm);
                 Logged (TokenError (exn_str e))])%list /\
  granted int_of_str (inr r) = None.
Proof.
  unfold cache_valid, granted. intros Hc A S J V X N F.
  assert (He : e = Raise OverflowError "int too large to convert to float").
  { unfold float_of_int in F. destruct (nearest n); inversion F; reflexivity. }
  split; [exact He |].
  apply Z.eqb_eq in S.
  unfold get_token. unfold_prog. simpl.
  destruct (truthy (access_token w)) eqn:Ht; simpl in *; [rewrite Hc; simpl |].
  all: rewrite A; simpl; rewrite S; simpl; rewrite J; simpl; rewrite V; simpl.
  all: rewrite X; simpl; rewrite N; simpl; rewrite F; simpl.
  all: rewrite <- app_assoc; repeat split; reflexivity.
Qed.

End Overflow.

Lemma get_token_expiry_beyond_float_witness :
  let e := Raise OverflowError "int too large to convert to float" in
  let out := run (get_token decimal tm0) env_long_expiry init_world in
  e = Raise OverflowError "int too large to convert to float" /\
  fst out = inl e /\
  access_token (snd out) = JStr "tok" /\
  token_expires_at (snd out) = token_expires_at init_world /\
  trace (snd out) =
    (trace init_world ++ [TokenPosted (client_id tm0) (client_secret tm0);
                          Logged (TokenError (exn_str e))])%list /\
  granted decimal (token_endpoint env_long_expiry 0 "app" "secret") = None.
Proof.
  apply (get_token_expiry_beyond_float decimal tm0 env_long_expiry init_world
           {| status := 200;
              json_body := inr (JObj [("access_token", JStr "tok");
                                      ("expires_in", JInt (10 ^ 400))]);
              text := inr "" |}
           (JObj [("access_token", JStr "tok"); ("expires_in", JInt (10 ^ 400))])
           (JStr "tok") (JInt (10 ^ 400)) (10 ^ 400)).
  - reflexivity.
  - reflexivity.
  - reflexivity.
  - reflexivity.
  - reflexivity.
  - reflexivity.
  - reflexivity.
  - vm_compute. reflexivity.
Defined.
